(** * TQQQ Tier-1 trading app: signal engine, indicators and position sizer

    Shallow embedding of [src/app.py].  The script is a straight-line
    pandas program: it derives indicator columns from two OHLC frames,
    scans the bars once with a two-state machine ([in_pos]) and sizes a
    position from the latest bar.

    Numbers.  pandas columns hold IEEE doubles.  They are modelled by
    [Float.t]: NaN, the two infinities, or a finite value carried as an
    exact rational.  Comparisons, NaN propagation and division by zero
    follow IEEE; signed zeros and the exponent range are not modelled.
    The indicator columns and the scan are computed in exact arithmetic
    (the rounding inside pandas' rolling and rank routines is not part of
    the source).  The position sizer, whose integer result depends on the
    last bit of a quotient, is computed in binary64 arithmetic: every
    product and quotient is rounded to the nearest double (module
    [IEEE]). *)

From Stdlib Require Import QArith Qround Qabs Qpower Lqa ZArith Lia List Bool
  Arith.
Import ListNotations.

Set Implicit Arguments.

(* ===================================================================== *)
(** ** Floats *)
(* ===================================================================== *)

Module Float.

Inductive t : Type :=
| NaN
| PInf
| NInf
| Fin (q : Q).

Definition Qltb (x y : Q) : bool := negb (Qle_bool y x).

Definition is_nan (a : t) : bool :=
  match a with NaN => true | _ => false end.

(** [a < b]; every comparison with NaN is false. *)
Definition ltb (a b : t) : bool :=
  match a, b with
  | NaN, _ | _, NaN => false
  | Fin x, Fin y => Qltb x y
  | NInf, NInf => false
  | NInf, _ => true
  | _, NInf => false
  | PInf, _ => false
  | Fin _, PInf => true
  end.

(** [a <= b]. *)
Definition leb (a b : t) : bool :=
  match a, b with
  | NaN, _ | _, NaN => false
  | Fin x, Fin y => Qle_bool x y
  | NInf, _ => true
  | _, PInf => true
  | _, NInf => false
  | PInf, _ => false
  end.

Definition gtb (a b : t) : bool := ltb b a.
Definition geb (a b : t) : bool := leb b a.

(** [a == b]; NaN is not equal to itself. *)
Definition eqb (a b : t) : bool :=
  match a, b with
  | Fin x, Fin y => Qeq_bool x y
  | PInf, PInf | NInf, NInf => true
  | _, _ => false
  end.

Definition neg (a : t) : t :=
  match a with
  | NaN => NaN
  | PInf => NInf
  | NInf => PInf
  | Fin x => Fin (- x)
  end.

Definition add (a b : t) : t :=
  match a, b with
  | NaN, _ | _, NaN => NaN
  | Fin x, Fin y => Fin (x + y)
  | PInf, NInf | NInf, PInf => NaN
  | PInf, _ | _, PInf => PInf
  | NInf, _ | _, NInf => NInf
  end.

Definition sub (a b : t) : t := add a (neg b).

(** Sign of a finite value: [Gt], [Eq] or [Lt] against zero. *)
Definition sgn (x : Q) : comparison := Qcompare x 0.

Definition inf_of (c : comparison) : t :=
  match c with Gt => PInf | Lt => NInf | Eq => NaN end.

Definition flip (c : comparison) : comparison := CompOpp c.

Definition mul (a b : t) : t :=
  match a, b with
  | NaN, _ | _, NaN => NaN
  | Fin x, Fin y => Fin (x * y)
  | PInf, PInf | NInf, NInf => PInf
  | PInf, NInf | NInf, PInf => NInf
  | PInf, Fin y | Fin y, PInf => inf_of (sgn y)
  | NInf, Fin y | Fin y, NInf => inf_of (flip (sgn y))
  end.

(** numpy division: [x / 0] is an infinity of the sign of [x], [0 / 0] is
    NaN; nothing is raised. *)
Definition div (a b : t) : t :=
  match a, b with
  | NaN, _ | _, NaN => NaN
  | Fin x, Fin y =>
      if Qeq_bool y 0 then inf_of (sgn x) else Fin (x / y)
  | Fin _, _ => Fin 0
  | PInf, Fin y => if Qltb y 0 then NInf else PInf
  | NInf, Fin y => if Qltb y 0 then PInf else NInf
  | _, _ => NaN
  end.

Definition abs (a : t) : t :=
  match a with
  | NaN => NaN
  | PInf | NInf => PInf
  | Fin x => Fin (Qabs x)
  end.

(** Python's builtin [max(a, b)]: the first argument is kept unless the
    second compares strictly greater. *)
Definition pymax (a b : t) : t := if gtb b a then b else a.

(** [Series.clip(lower=l)] and [Series.clip(upper=u)]; NaN stays NaN. *)
Definition clip_lower (l a : t) : t := if ltb a l then l else a.
Definition clip_upper (u a : t) : t := if gtb a u then u else a.

(** [max] over a row with [skipna=True]: NaN entries are ignored, a row of
    NaNs gives NaN. *)
Definition max_skipna (a b : t) : t :=
  match a, b with
  | NaN, _ => b
  | _, NaN => a
  | _, _ => if ltb a b then b else a
  end.

Definition of_Z (z : Z) : t := Fin (inject_Z z).

(** Finite values, compared as rationals. *)
Definition finite (a : t) : Prop := exists q, a = Fin q.

Definition finite_or_nan (a : t) : Prop := a = NaN \/ finite a.

End Float.

Abbreviation float := Float.t.
Abbreviation NaN := Float.NaN.
Abbreviation Fin := Float.Fin.

(* ===================================================================== *)
(** ** Binary64 rounding *)
(* ===================================================================== *)

(** Round-to-nearest, ties-to-even, on a 53-bit significand.  The exponent
    is unbounded: overflow and subnormal numbers are not modelled. *)
Module IEEE.

(** [2 ^ k] for any integer [k]. *)
Definition pow2 (k : Z) : Q := Qpower 2 k.

(** Floor of the binary logarithm of a positive rational. *)
Definition ilog2 (x : Q) : Z :=
  let k := (Z.log2 (Qnum x) - Z.log2 (Z.pos (Qden x)))%Z in
  if Qle_bool (pow2 k) x then k else (k - 1)%Z.

(** Nearest integer, ties to the even one. *)
Definition rint (y : Q) : Z :=
  let f := Qfloor y in
  match Qcompare (y - inject_Z f) (1 # 2) with
  | Lt => f
  | Gt => (f + 1)%Z
  | Eq => if Z.even f then f else (f + 1)%Z
  end.

(** The nearest number with a 53-bit significand, for [x > 0]. *)
Definition round_pos (x : Q) : Q :=
  let e := (ilog2 x - 52)%Z in
  inject_Z (rint (x / pow2 e)) * pow2 e.

Definition round64 (x : Q) : Q :=
  match Qcompare x 0 with
  | Eq => 0
  | Gt => round_pos x
  | Lt => - round_pos (- x)
  end.

(** The result of a float operation: a finite exact result is rounded. *)
Definition rnd (a : float) : float :=
  match a with
  | Float.Fin q => Fin (round64 q)
  | _ => a
  end.

Definition mul (a b : float) : float := rnd (Float.mul a b).
Definition div (a b : float) : float := rnd (Float.div a b).

(** [float(n)] for a Python integer. *)
Definition of_int (n : Z) : Q := round64 (inject_Z n).

End IEEE.

(* ===================================================================== *)
(** ** Data model *)
(* ===================================================================== *)

(** Sidebar inputs.  Integer widgets are [Z] or [nat] (window lengths),
    float widgets are rationals.  [risk_per_trade] is the slider value
    already divided by 100. *)
Record params : Type := {
  account_size : Z;
  risk_per_trade : Q;
  short_ma : nat;
  long_ma : nat;
  rsi_period : nat;
  rsi_buy : Z;
  rsi_sell : Z;
  atr_period : nat;
  stop_atr : Q;
  target_atr : Q;
  trail_atr : Q;
  volatility_filter : Z
}.

(** One row of a downloaded frame after [dropna()]: no price is NaN. *)
Record bar : Type := {
  Date : Z;
  High : Q;
  Low : Q;
  Close : Q
}.

(** Exceptions the script can end with. *)
Inductive exn : Type :=
| IndexError
| ValueError
| OverflowError.

(** One row of the [price] frame once the indicator columns are attached:
    its index label and its cells.  The price cells are floats because the
    frame can hold rows that no downloaded bar stands behind (see
    [blank_row]).  A [Trend_OK] cell is [True], [False] or, when the date
    is missing from the benchmark index, NaN ([None]). *)
Record row : Type := {
  r_date : Z;
  r_high : float;
  r_low : float;
  r_close : float;
  SMA_S : float;
  SMA_L : float;
  RSI : float;
  ATR : float;
  ATR_pct : float;
  Trend_OK : option bool
}.

Inductive label : Type :=
| CASH
| NO_TRADE
| BUY
| SELL
| TRAIL_STOP
| TAKE_PROFIT.

(** The columns the signal engine writes. *)
Record out_rec : Type := {
  Signal : label;
  Stop : float;
  Target : float;
  Trail : float
}.

(** The loop variables [in_pos], [entry], [stop], [target], [trail]. *)
Record pos_state : Type := {
  in_pos : bool;
  entry : float;
  stop : float;
  target : float;
  trail : float
}.

Definition label_eqb (a b : label) : bool :=
  match a, b with
  | CASH, CASH | NO_TRADE, NO_TRADE | BUY, BUY | SELL, SELL
  | TRAIL_STOP, TRAIL_STOP | TAKE_PROFIT, TAKE_PROFIT => true
  | _, _ => false
  end.

Definition is_exit (l : label) : bool :=
  match l with
  | SELL | TRAIL_STOP | TAKE_PROFIT => true
  | _ => false
  end.

(* ===================================================================== *)
(** ** pandas primitives *)
(* ===================================================================== *)

Module Pandas.

Definition zip_with {A B C : Type} (f : A -> B -> C)
  (xs : list A) (ys : list B) : list C :=
  map (fun xy => f (fst xy) (snd xy)) (combine xs ys).

Definition fsum (w : list float) : float :=
  fold_right Float.add (Fin 0) w.

Definition mean (w : list float) : float :=
  Float.div (fsum w) (Float.of_Z (Z.of_nat (length w))).

(** [Series.rolling(n).mean()], with the default [min_periods = n]: the
    cell at position [i] is NaN until [n] observations are available, and
    NaN whenever the window holds a NaN. *)
Definition rolling_mean (n : nat) (xs : list float) : list float :=
  map (fun i =>
         if (S i <? n)%nat then NaN
         else mean (firstn n (skipn (S i - n) xs)))
      (seq 0 (length xs)).

(** [Series.shift()]: one position down, NaN on top. *)
Definition shift (xs : list float) : list float :=
  firstn (length xs) (NaN :: xs).

(** [Series.diff()]. *)
Definition diff (xs : list float) : list float :=
  zip_with Float.sub xs (shift xs).

Definition count (f : float -> bool) (xs : list float) : Q :=
  inject_Z (Z.of_nat (length (filter f xs))).

(** [Series.rank(pct=True)], default [method='average'] and
    [na_option='keep']: ties share the mean of their ranks, NaN cells stay
    NaN and are not counted. *)
Definition rank_pct (xs : list float) : list float :=
  let n := count (fun y => negb (Float.is_nan y)) xs in
  map (fun x =>
         if Float.is_nan x then NaN
         else
           let less := count (fun y => Float.ltb y x) xs in
           let same := count (fun y => Float.eqb y x) xs in
           Fin ((less + (same + 1) / 2) / n))
      xs.

(** [Series.reindex] from a Series with unique labels: the value stored
    under the label, NaN for a label the Series does not have.  (On a
    Series with repeated labels pandas raises instead; the caller,
    [assign_trend], checks.) *)
Fixpoint reindex (s : list (Z * bool)) (d : Z) : option bool :=
  match s with
  | [] => None
  | (d', v) :: s' => if Z.eqb d d' then Some v else reindex s' d
  end.

(** [Index.equals] and [Index.is_unique] on date labels. *)
Fixpoint index_equals (a b : list Z) : bool :=
  match a, b with
  | [], [] => true
  | x :: a', y :: b' => Z.eqb x y && index_equals a' b'
  | _, _ => false
  end.

Fixpoint is_unique (l : list Z) : bool :=
  match l with
  | [] => true
  | x :: l' => negb (existsb (Z.eqb x) l') && is_unique l'
  end.

(** Truth value of a cell in a condition: NaN is a non-zero float, hence
    true. *)
Definition truthy (c : option bool) : bool :=
  match c with
  | Some b => b
  | None => true
  end.

End Pandas.

(* ===================================================================== *)
(** ** Indicators (the INDICATORS block of the script) *)
(* ===================================================================== *)

Section Indicators.

Variable p : params.

Definition closes (bars : list bar) : list float :=
  map (fun b => Fin (Close b)) bars.
Definition highs (bars : list bar) : list float :=
  map (fun b => Fin (High b)) bars.
Definition lows (bars : list bar) : list float :=
  map (fun b => Fin (Low b)) bars.

Definition sma_s (price : list bar) : list float :=
  Pandas.rolling_mean (short_ma p) (closes price).

Definition sma_l (price : list bar) : list float :=
  Pandas.rolling_mean (long_ma p) (closes price).

Definition delta (price : list bar) : list float :=
  Pandas.diff (closes price).

Definition gain (price : list bar) : list float :=
  map (Float.clip_lower (Fin 0)) (delta price).

Definition loss (price : list bar) : list float :=
  map Float.neg (map (Float.clip_upper (Fin 0)) (delta price)).

Definition avg_gain (price : list bar) : list float :=
  Pandas.rolling_mean (rsi_period p) (gain price).

Definition avg_loss (price : list bar) : list float :=
  Pandas.rolling_mean (rsi_period p) (loss price).

Definition rs (price : list bar) : list float :=
  Pandas.zip_with Float.div (avg_gain price) (avg_loss price).

Definition rsi (price : list bar) : list float :=
  map (fun x =>
         Float.sub (Fin 100) (Float.div (Fin 100) (Float.add (Fin 1) x)))
      (rs price).

Definition hl (price : list bar) : list float :=
  Pandas.zip_with Float.sub (highs price) (lows price).

Definition hc (price : list bar) : list float :=
  map Float.abs
      (Pandas.zip_with Float.sub (highs price) (Pandas.shift (closes price))).

Definition lc (price : list bar) : list float :=
  map Float.abs
      (Pandas.zip_with Float.sub (lows price) (Pandas.shift (closes price))).

(** [pd.concat([hl, hc, lc], axis=1).max(axis=1)] *)
Definition tr (price : list bar) : list float :=
  Pandas.zip_with Float.max_skipna
    (Pandas.zip_with Float.max_skipna (hl price) (hc price)) (lc price).

Definition atr (price : list bar) : list float :=
  Pandas.rolling_mean (atr_period p) (tr price).

Definition atr_pct (price : list bar) : list float :=
  map (fun x => Float.mul x (Fin 100)) (Pandas.rank_pct (atr price)).

Definition sma_200 (qqq : list bar) : list float :=
  Pandas.rolling_mean 200 (closes qqq).

(** [qqq["Close"] > qqq["SMA_200"]], a boolean Series on the benchmark's
    dates. *)
Definition trend (qqq : list bar) : list (Z * bool) :=
  combine (map Date qqq)
          (Pandas.zip_with Float.gtb (closes qqq) (sma_200 qqq)).

(** The Series of line 146 reindexed on the dates of [price]. *)
Definition trend_ok (price qqq : list bar) : list (option bool) :=
  map (fun b => Pandas.reindex (trend qqq) (Date b)) price.

(** [price["Trend_OK"] = ...] on a frame that has rows.  When the two
    indexes are equal the values are taken as they are; otherwise the
    Series is reindexed, which raises ValueError (cannot reindex on an
    axis with duplicate labels) if a benchmark date is repeated. *)
Definition assign_trend (price qqq : list bar)
  : exn + list (option bool) :=
  if Pandas.index_equals (map Date qqq) (map Date price) then
    inr (map (fun dv => Some (snd dv)) (trend qqq))
  else if Pandas.is_unique (map Date qqq) then
    inr (trend_ok price qqq)
  else inl ValueError.

(** [price.iloc[i]] for the [i]-th downloaded bar [b], once all indicator
    columns are in place; [cells] is the [Trend_OK] column. *)
Definition row_at (price : list bar) (cells : list (option bool))
  (i : nat) (b : bar) : row :=
  {| r_date := Date b;
     r_high := Fin (High b);
     r_low := Fin (Low b);
     r_close := Fin (Close b);
     SMA_S := nth i (sma_s price) NaN;
     SMA_L := nth i (sma_l price) NaN;
     RSI := nth i (rsi price) NaN;
     ATR := nth i (atr price) NaN;
     ATR_pct := nth i (atr_pct price) NaN;
     Trend_OK := nth i cells None |}.

Definition priced_rows (price : list bar) (cells : list (option bool))
  : list row :=
  map (fun ib => row_at price cells (fst ib) (snd ib))
      (combine (seq 0 (length price)) price).

(** A row of a frame that had no rows when the [Trend_OK] Series was
    assigned: the frame takes over the Series' index, every column it
    already had is filled with NaN, and the new column holds the Series'
    value. *)
Definition blank_row (dv : Z * bool) : row :=
  {| r_date := fst dv;
     r_high := NaN; r_low := NaN; r_close := NaN;
     SMA_S := NaN; SMA_L := NaN; RSI := NaN; ATR := NaN; ATR_pct := NaN;
     Trend_OK := Some (snd dv) |}.

(** The frame after lines 124-146, or the exception line 146 raises. *)
Definition indicators (price qqq : list bar) : exn + list row :=
  match price with
  | [] => inr (map blank_row (trend qqq))
  | _ :: _ =>
      match assign_trend price qqq with
      | inl e => inl e
      | inr cells => inr (priced_rows price cells)
      end
  end.

End Indicators.

(* ===================================================================== *)
(** ** Signal engine (the SIGNAL ENGINE block) *)
(* ===================================================================== *)

Section Engine.

Variable p : params.

(** Values of the columns before the loop. *)
Definition default_rec : out_rec :=
  {| Signal := CASH; Stop := NaN; Target := NaN; Trail := NaN |}.

(** [in_pos = False; entry = stop = target = trail = 0] *)
Definition init_state : pos_state :=
  {| in_pos := false; entry := Fin 0; stop := Fin 0;
     target := Fin 0; trail := Fin 0 |}.

Definition entry_cond (r : row) : bool :=
  Float.gtb (SMA_S r) (SMA_L r)
  && Float.ltb (RSI r) (Float.of_Z (rsi_buy p))
  && Pandas.truthy (Trend_OK r)
  && Float.ltb (ATR_pct r) (Float.of_Z (volatility_filter p)).

Definition reversal_cond (r : row) : bool :=
  Float.ltb (SMA_S r) (SMA_L r)
  || Float.gtb (RSI r) (Float.of_Z (rsi_sell p)).

(** [new_trail] and the ratchet of lines 182-183. *)
Definition new_trail (r : row) : float :=
  Float.sub (r_close r) (Float.mul (Fin (trail_atr p)) (ATR r)).

Definition update_trail (st : pos_state) (r : row) : float :=
  Float.pymax (trail st) (new_trail r).

Definition with_label (l : label) : out_rec :=
  {| Signal := l; Stop := NaN; Target := NaN; Trail := NaN |}.

Definition leave (st : pos_state) (tr' : float) : pos_state :=
  {| in_pos := false; entry := entry st; stop := stop st;
     target := target st; trail := tr' |}.

Definition hold (st : pos_state) (tr' : float) : pos_state :=
  {| in_pos := in_pos st; entry := entry st; stop := stop st;
     target := target st; trail := tr' |}.

(** One pass of the loop body on row [r]: the new loop variables and the
    cells written on that row. *)
Definition step (st : pos_state) (r : row) : pos_state * out_rec :=
  if negb (in_pos st) then
    if entry_cond r then
      let entry' := r_close r in
      let stop' := Float.sub entry' (Float.mul (Fin (stop_atr p)) (ATR r)) in
      let target' :=
        Float.add entry' (Float.mul (Fin (target_atr p)) (ATR r)) in
      let trail' := stop' in
      ({| in_pos := true; entry := entry'; stop := stop';
          target := target'; trail := trail' |},
       {| Signal := BUY; Stop := stop'; Target := target';
          Trail := trail' |})
    else (st, with_label NO_TRADE)
  else
    let trail' := update_trail st r in
    if Float.leb (r_low r) trail' then
      (leave st trail', with_label TRAIL_STOP)
    else if Float.geb (r_high r) (target st) then
      (leave st trail', with_label TAKE_PROFIT)
    else if reversal_cond r then
      (leave st trail', with_label SELL)
    else (hold st trail', default_rec).

(** [for i in range(k, len(price))] from loop variables [st]. *)
Fixpoint scan (st : pos_state) (rows : list row) : list out_rec :=
  match rows with
  | [] => []
  | r :: rows' =>
      let (st', o) := step st r in o :: scan st' rows'
  end.

(** The loop starts at [i = 1]: row 0 keeps the default cells. *)
Definition signal_engine (rows : list row) : list out_rec :=
  match rows with
  | [] => []
  | _ :: rows' => default_rec :: scan init_state rows'
  end.

(** Loop variables after the rows of [rows] have been processed. *)
Definition run_state (st : pos_state) (rows : list row) : pos_state :=
  fold_left (fun s r => fst (step s r)) rows st.

(** Loop variables at the top of iteration [i] (for [i >= 1]): rows
    [1 .. i-1] have been processed. *)
Definition state_before (rows : list row) (i : nat) : pos_state :=
  run_state init_state (firstn (i - 1) (tl rows)).

(** Loop variables at the bottom of iteration [i]. *)
Definition state_after (rows : list row) (i : nat) : pos_state :=
  run_state init_state (firstn i (tl rows)).

Definition signals (rows : list row) : list label :=
  map Signal (signal_engine rows).

End Engine.

(* ===================================================================== *)
(** ** Position sizing and the script as a whole *)
(* ===================================================================== *)

(** [int(x)] on a float truncates toward zero; it raises on NaN and on
    the infinities. *)
Definition int_of_float (a : float) : exn + Z :=
  match a with
  | Float.NaN => inl ValueError
  | Float.PInf | Float.NInf => inl OverflowError
  | Float.Fin q => inr (if Qle_bool 0 q then Qfloor q else Qceiling q)
  end.

(** [price.iloc[-1]] *)
Definition iloc_last {A : Type} (rows : list A) : exn + A :=
  match rev rows with
  | [] => inl IndexError
  | r :: _ => inr r
  end.

(** [account_size * risk_per_trade]: the integer account size is
    converted to a float and the product is rounded. *)
Definition risk_dollars (p : params) : Q :=
  IEEE.round64 (IEEE.of_int (account_size p) * risk_per_trade p).

(** The divisor of line 201, [stop_atr * latest["ATR"]]. *)
Definition stop_distance (p : params) (latest_atr : float) : float :=
  IEEE.mul (Fin (stop_atr p)) latest_atr.

Definition shares (p : params) (latest_atr : float) : exn + Z :=
  if Float.gtb latest_atr (Fin 0) then
    int_of_float
      (IEEE.div (Fin (risk_dollars p)) (stop_distance p latest_atr))
  else inr 0%Z.

(** The blocks of the script, in the order they run. *)
Inductive phase : Type :=
| PhIndicators
| PhSignalEngine
| PhPositionSizing.

(** Script monad: the blocks entered so far, and either an uncaught
    exception or a value. *)
Definition M (A : Type) : Type := list phase -> list phase * (exn + A).

Definition ret {A : Type} (a : A) : M A := fun log => (log, inr a).

Definition bind {A B : Type} (m : M A) (k : A -> M B) : M B :=
  fun log =>
    match m log with
    | (log', inl e) => (log', inl e)
    | (log', inr a) => k a log'
    end.

Definition enter (ph : phase) : M unit :=
  fun log => (log ++ [ph], inr tt).

Definition lift {A : Type} (r : exn + A) : M A := fun log => (log, r).

Notation "x <- m ;; k" := (bind m (fun x => k))
  (at level 61, m at next level, right associativity).
Notation "m ;;; k" := (bind m (fun _ => k))
  (at level 61, right associativity).

(** What the display and alert blocks read. *)
Record report : Type := {
  rep_rows : list row;
  rep_out : list out_rec;
  rep_latest : row;
  rep_risk_dollars : Q;
  rep_shares : Z
}.

Definition script (p : params) (price qqq : list bar) : M report :=
  enter PhIndicators ;;;
  rows <- lift (indicators p price qqq) ;;
  enter PhSignalEngine ;;;
  out <- ret (signal_engine p rows) ;;
  enter PhPositionSizing ;;;
  latest <- lift (iloc_last rows) ;;
  n <- lift (shares p (ATR latest)) ;;
  ret {| rep_rows := rows; rep_out := out; rep_latest := latest;
         rep_risk_dollars := risk_dollars p; rep_shares := n |}.

Definition run_script (p : params) (price qqq : list bar)
  : list phase * (exn + report) :=
  script p price qqq [].

(* ===================================================================== *)
(** ** A worked series *)
(* ===================================================================== *)

(** Seventy-six bars: a steady climb, a three-day dip that triggers an
    entry on a day missing from the benchmark, a rally into the target, a
    second dip with a second entry, and a reversal exit.  All parameters
    lie inside the sidebar ranges. *)
Module Demo.

(** [1.0 / 100], the slider's default risk: the double nearest to one
    hundredth. *)
Definition one_percent : Q :=
  Eval vm_compute in Qred (IEEE.round64 (1 # 100)).

Definition demo_params : params :=
  {| account_size := 50000; risk_per_trade := one_percent;
     short_ma := 5; long_ma := 50; rsi_period := 5; rsi_buy := 39;
     rsi_sell := 70; atr_period := 5; stop_atr := 2; target_atr := 4;
     trail_atr := 2; volatility_filter := 80 |}.

Definition demo_close (i : nat) : Z :=
  if (i <? 55)%nat then 100 + Z.of_nat i
  else if (i <? 58)%nat then 154 - 2 * (Z.of_nat i - 54)
  else if (i <? 67)%nat then 148 + 3 * (Z.of_nat i - 57)
  else if (i <? 70)%nat then 175 - 3 * (Z.of_nat i - 66)
  else 166 + 2 * (Z.of_nat i - 69).

Definition demo_bar (i : nat) : bar :=
  let c := demo_close i in
  let w := if (i <? 20)%nat then 4%Z else 1%Z in
  {| Date := Z.of_nat i; High := inject_Z (c + w);
     Low := inject_Z (c - w); Close := inject_Z c |}.

Definition demo_price : list bar := map demo_bar (seq 0 76).

(** The benchmark lacks days 56, 57 and 70. *)
Definition demo_qqq : list bar :=
  map demo_bar (seq 0 56 ++ seq 58 12 ++ seq 71 5).

Definition rows_of (r : exn + list row) : list row :=
  match r with
  | inr rows => rows
  | inl _ => []
  end.

Definition demo_rows : list row :=
  Eval vm_compute in rows_of (indicators demo_params demo_price demo_qqq).

(** A benchmark with 300 rising days that covers every day of the price
    series: from its 200th day on the trend cell is True. *)
Definition benchmark_bar (d : Z) : bar :=
  {| Date := d; High := inject_Z (1001 + d); Low := inject_Z (999 + d);
     Close := inject_Z (1000 + d) |}.

Definition demo_benchmark : list bar :=
  map (fun i => benchmark_bar (Z.of_nat i - 224)) (seq 0 300).

Definition trending_rows : list row :=
  Eval vm_compute in
    rows_of (indicators demo_params demo_price demo_benchmark).

(** The values the sidebar starts with. *)
Definition default_params : params :=
  {| account_size := 50000;
     risk_per_trade := one_percent;
     short_ma := 20; long_ma := 100; rsi_period := 14; rsi_buy := 30;
     rsi_sell := 70; atr_period := 14; stop_atr := 2; target_atr := 4;
     trail_atr := 2; volatility_filter := 80 |}.

(** The same with an account size below zero, which the input widget
    accepts. *)
Definition overdrawn_params : params :=
  {| account_size := -1000;
     risk_per_trade := one_percent;
     short_ma := 20; long_ma := 100; rsi_period := 14; rsi_buy := 30;
     rsi_sell := 70; atr_period := 14; stop_atr := 2; target_atr := 4;
     trail_atr := 2; volatility_filter := 80 |}.

(** [0.05]: the double nearest to one twentieth. *)
Definition five_cents : Q :=
  Eval vm_compute in Qred (IEEE.round64 (1 # 20)).

End Demo.

(* ===================================================================== *)
(** ** Label sequences of a one-position machine *)
(* ===================================================================== *)

(** Label sequences a machine holding at most one position can write,
    read from state [long]: when flat a bar is NO TRADE, the seed CASH or
    a BUY that opens; when long a bar is the untouched seed CASH or one
    of the three exits, which closes. *)
Fixpoint alternates (long : bool) (ls : list label) : bool :=
  match ls with
  | [] => true
  | l :: ls' =>
      if long then
        match l with
        | CASH => alternates true ls'
        | SELL | TRAIL_STOP | TAKE_PROFIT => alternates false ls'
        | _ => false
        end
      else
        match l with
        | BUY => alternates true ls'
        | NO_TRADE | CASH => alternates false ls'
        | _ => false
        end
  end.

(** Number of exit labels in a stretch of bars. *)
Definition exits (ls : list label) : nat := length (filter is_exit ls).

(** A row whose ATR percentile is defined carries a finite ATR and a
    finite close. *)
Definition atr_consistent (r : row) : Prop :=
  Float.is_nan (ATR_pct r) = false ->
  Float.finite (ATR r) /\ Float.finite (r_close r).

(** While a position is open the trail is a number. *)
Definition trail_defined (st : pos_state) : Prop :=
  in_pos st = true -> Float.is_nan (trail st) = false.

(** The three counts a rank is made of: cells below [x], cells tied with
    [x], and cells holding a number. *)
Definition below (x : float) (xs : list float) : nat :=
  length (filter (fun y => Float.ltb y x) xs).
Definition tied (x : float) (xs : list float) : nat :=
  length (filter (fun y => Float.eqb y x) xs).
Definition defined (xs : list float) : nat :=
  length (filter (fun y => negb (Float.is_nan y)) xs).

(** A cell that is NaN or a finite value with property [P], and a cell
    that is a finite value with property [P]. *)
Definition nan_or (P : Q -> Prop) (a : float) : Prop :=
  match a with
  | Float.NaN => True
  | Float.Fin q => P q
  | _ => False
  end.

Definition fin_with (P : Q -> Prop) (a : float) : Prop :=
  match a with
  | Float.Fin q => P q
  | _ => False
  end.

Definition nonneg (q : Q) : Prop := 0 <= q.

(** A well-formed bar has its low at or below its high. *)
Definition bar_ok (b : bar) : Prop := Low b <= High b.

Definition bar_okb (b : bar) : bool := Qle_bool (Low b) (High b).

(** The RSI cell computed from one cell of [avg_gain] and one of
    [avg_loss] (lines 133-134). *)
Definition rsi_of (g l : float) : float :=
  Float.sub (Fin 100) (Float.div (Fin 100) (Float.add (Fin 1) (Float.div g l))).

Definition percent (v : Q) : Prop := 0 <= v /\ v <= 100.

Definition zero (q : Q) : Prop := q == 0.

(** The label column of a run in which no position is ever opened: the
    seed label on the first bar, NO TRADE on every later one. *)
Definition idle_labels (n : nat) : list label :=
  match n with
  | O => []
  | S k => CASH :: repeat NO_TRADE k
  end.

(** While a position is open the initial stop and the trail are numbers
    and the trail is not below the stop. *)
Definition position_ok (st : pos_state) : Prop :=
  in_pos st = true ->
  exists s t, stop st = Fin s /\ trail st = Fin t /\ s <= t.

(** The text the alert prints after "Trend Filter:" (line 225):
    ['ON' if latest['Trend_OK'] else 'OFF']. *)
Inductive trend_flag : Type :=
| ON
| OFF.

Definition trend_filter_flag (latest : row) : trend_flag :=
  if Pandas.truthy (Trend_OK latest) then ON else OFF.

(** Number of BUY labels in a stretch of bars, and a loop flag read as
    0 or 1. *)
Definition buys (ls : list label) : nat :=
  length (filter (fun l => label_eqb l BUY) ls).

Definition flag (b : bool) : nat := if b then 1%nat else 0%nat.

(* ===================================================================== *)
(** ** Basic facts about the scan *)
(* ===================================================================== *)

Section EngineFacts.

Variable p : params.

Lemma scan_length (rows : list row) :
  forall st, length (scan p st rows) = length rows.
Proof.
  induction rows as [|r rows IH]; intros st; simpl; [reflexivity|].
  destruct (step p st r) as [st' o]. simpl. now rewrite IH.
Qed.

Lemma signal_engine_length (rows : list row) :
  length (signal_engine p rows) = length rows.
Proof.
  destruct rows as [|r rows]; simpl; [reflexivity|].
  now rewrite scan_length.
Qed.

Lemma run_state_snoc (rows : list row) (r : row) :
  forall st, run_state p st (rows ++ [r])
             = fst (step p (run_state p st rows) r).
Proof.
  intros st. unfold run_state. now rewrite fold_left_app.
Qed.

Lemma firstn_succ_nth (A : Type) (l : list A) :
  forall k x, nth_error l k = Some x ->
              firstn (S k) l = firstn k l ++ [x].
Proof.
  induction l as [|a l IH]; intros [|k] x H; simpl in *; try discriminate.
  - now inversion H.
  - f_equal. now apply IH.
Qed.

(** The record written on the [k]-th row of a scan is the one [step]
    produces from the loop variables reached after the first [k] rows. *)
Lemma scan_nth (rows : list row) :
  forall st k r,
    nth_error rows k = Some r ->
    nth_error (scan p st rows) k
    = Some (snd (step p (run_state p st (firstn k rows)) r)).
Proof.
  induction rows as [|a rows IH]; intros st [|k] r H; simpl in *;
    try discriminate.
  - inversion H; subst. destruct (step p st r); reflexivity.
  - unfold run_state. simpl. fold (run_state p).
    destruct (step p st a) as [st' o] eqn:E. simpl.
    now rewrite (IH st' k r H).
Qed.

Lemma engine_nth (rows : list row) (i : nat) (r : row) :
  (1 <= i)%nat ->
  nth_error rows i = Some r ->
  nth_error (signal_engine p rows) i
  = Some (snd (step p (state_before p rows i) r)).
Proof.
  intros Hi H. destruct i as [|k]; [lia|].
  destruct rows as [|a rows]; [discriminate|]. simpl in H.
  unfold state_before. simpl. rewrite Nat.sub_0_r.
  now apply scan_nth.
Qed.

Lemma state_after_step (rows : list row) (i : nat) (r : row) :
  (1 <= i)%nat ->
  nth_error rows i = Some r ->
  state_after p rows i = fst (step p (state_before p rows i) r).
Proof.
  intros Hi H. destruct i as [|k]; [lia|].
  destruct rows as [|a rows]; [discriminate|]. simpl in H.
  unfold state_after, state_before. cbn [tl].
  replace (S k - 1)%nat with k by lia.
  rewrite (firstn_succ_nth _ _ H). apply run_state_snoc.
Qed.

Lemma state_before_succ (rows : list row) (i : nat) :
  state_before p rows (S i) = state_after p rows i.
Proof.
  unfold state_before, state_after. simpl. now rewrite Nat.sub_0_r.
Qed.

Lemma state_before_0 (rows : list row) :
  state_before p rows 0 = init_state.
Proof. reflexivity. Qed.

Lemma in_pos_after_first (rows : list row) (i : nat) :
  in_pos (state_before p rows i) = true -> (1 <= i)%nat.
Proof.
  destruct i; [rewrite state_before_0; discriminate | lia].
Qed.

End EngineFacts.

(* ===================================================================== *)
(** ** The per-bar branch *)
(* ===================================================================== *)

(** C1.  On every bar processed while a position is open the exits are
    tried in the order trail stop, profit target, signal reversal, against
    the trail level already ratcheted on that bar.  The label written is
    TRAIL STOP when [Low <= trail]; otherwise TAKE PROFIT when
    [High >= target]; otherwise SELL when [SMA_S < SMA_L or RSI > rsi_sell];
    each of these leaves the position.  When the trail and the target
    condition hold together the label is TRAIL STOP. *)
Theorem exit_priority (p : params) (rows : list row) (i : nat) (r : row) :
  nth_error rows i = Some r ->
  in_pos (state_before p rows i) = true ->
  let st := state_before p rows i in
  let t :=
    Float.pymax (trail st)
      (Float.sub (r_close r) (Float.mul (Fin (trail_atr p)) (ATR r))) in
  let hit_trail := Float.leb (r_low r) t in
  let hit_target := Float.geb (r_high r) (target st) in
  let reversal :=
    Float.ltb (SMA_S r) (SMA_L r)
    || Float.gtb (RSI r) (Float.of_Z (rsi_sell p)) in
  exists o,
    nth_error (signal_engine p rows) i = Some o /\
    Signal o = (if hit_trail then TRAIL_STOP
                else if hit_target then TAKE_PROFIT
                else if reversal then SELL
                else CASH) /\
    in_pos (state_after p rows i)
    = negb (hit_trail || hit_target || reversal) /\
    (hit_trail = true -> hit_target = true -> Signal o = TRAIL_STOP).
Proof.
  intros Hr Hin st t hit_trail hit_target reversal.
  pose proof (in_pos_after_first p rows i Hin) as Hi.
  exists (snd (step p st r)).
  split; [now apply engine_nth|].
  rewrite (state_after_step p rows Hi Hr). fold st.
  unfold step. fold st in Hin. rewrite Hin. cbn [negb].
  unfold update_trail, new_trail, reversal_cond.
  fold t. fold hit_trail. fold hit_target. fold reversal.
  destruct hit_trail, hit_target, reversal; cbn; rewrite ?Hin;
    repeat split; auto; discriminate.
Qed.

Lemma exit_priority_witness :
  exists o,
    nth_error (signal_engine Demo.demo_params Demo.demo_rows) 61 = Some o /\
    Signal o = TAKE_PROFIT.
Proof.
  destruct (nth_error Demo.demo_rows 61) as [r|] eqn:E;
    [|vm_compute in E; discriminate].
  destruct (@exit_priority Demo.demo_params Demo.demo_rows 61 r E)
    as (o & Ho & Hs & _).
  - vm_compute. reflexivity.
  - exists o. split; [exact Ho|]. rewrite Hs.
    vm_compute in E. injection E as <-. vm_compute. reflexivity.
Defined.

Lemma truthy_spec (c : option bool) :
  Pandas.truthy c = true <-> c = Some true \/ c = None.
Proof.
  destruct c as [[|]|]; cbn; split; intros H; auto; try discriminate;
    destruct H; discriminate.
Qed.

(** C3.  On every bar after the first at which the machine is flat, BUY
    is written exactly when [SMA_S > SMA_L], [RSI < rsi_buy], the
    [Trend_OK] cell passes the condition, that is, it holds True or is
    undefined, and [ATR_pct < volatility_filter] all hold; the loop
    variables then become [entry = Close], [stop = entry - stop_atr * ATR],
    [target = entry + target_atr * ATR], [trail = stop], and the same
    levels are written on the row.  Otherwise, in particular whenever the
    [Trend_OK] cell holds False, the label is NO TRADE and the loop
    variables are left alone. *)
Theorem entry_rule (p : params) (rows : list row) (i : nat) (r : row) :
  (1 <= i)%nat ->
  nth_error rows i = Some r ->
  in_pos (state_before p rows i) = false ->
  let all_four :=
    Float.gtb (SMA_S r) (SMA_L r) = true /\
    Float.ltb (RSI r) (Float.of_Z (rsi_buy p)) = true /\
    (Trend_OK r = Some true \/ Trend_OK r = None) /\
    Float.ltb (ATR_pct r) (Float.of_Z (volatility_filter p)) = true in
  let st' := state_after p rows i in
  exists o,
    nth_error (signal_engine p rows) i = Some o /\
    (Signal o = BUY <-> all_four) /\
    (Signal o = BUY ->
       in_pos st' = true /\
       entry st' = r_close r /\
       stop st' = Float.sub (entry st') (Float.mul (Fin (stop_atr p)) (ATR r)) /\
       target st'
       = Float.add (entry st') (Float.mul (Fin (target_atr p)) (ATR r)) /\
       trail st' = stop st' /\
       Stop o = stop st' /\ Target o = target st' /\ Trail o = trail st') /\
    (~ all_four ->
       Signal o = NO_TRADE /\ st' = state_before p rows i) /\
    (Trend_OK r = Some false -> Signal o = NO_TRADE).
Proof.
  intros Hi Hr Hin all_four st'.
  exists (snd (step p (state_before p rows i) r)).
  split; [now apply engine_nth|].
  unfold st'. rewrite (state_after_step p rows Hi Hr).
  unfold step. rewrite Hin. cbn [negb].
  assert (Hc : entry_cond p r = true <-> all_four).
  { unfold entry_cond, all_four. rewrite !andb_true_iff, truthy_spec.
    tauto. }
  destruct (entry_cond p r) eqn:E; cbn.
  - assert (Ha : all_four) by now apply Hc.
    split; [tauto|]. split; [intros _; repeat split|].
    split; [intros Hn; contradiction|].
    intros Hf. destruct Ha as (_ & _ & [Ht|Ht] & _); congruence.
  - assert (Ha : ~ all_four).
    { intros H. apply Hc in H. discriminate. }
    split; [split; [discriminate | contradiction]|].
    split; [discriminate|]. split; [intros _; split; reflexivity|].
    reflexivity.
Qed.

Lemma entry_rule_witness :
  exists r o,
    nth_error Demo.trending_rows 57 = Some r /\
    Trend_OK r = Some true /\
    nth_error (signal_engine Demo.demo_params Demo.trending_rows) 57
    = Some o /\
    Signal o = BUY /\
    Float.eqb (Stop o) (Fin (714 # 5)) = true /\
    trail (state_after Demo.demo_params Demo.trending_rows 57) = Stop o.
Proof.
  destruct (nth_error Demo.trending_rows 57) as [r|] eqn:E;
    [|vm_compute in E; discriminate].
  destruct (@entry_rule Demo.demo_params Demo.trending_rows 57 r)
    as (o & Ho & Hb & Hlev & _).
  - lia.
  - exact E.
  - vm_compute. reflexivity.
  - vm_compute in E. injection E as <-.
    assert (Hs : Signal o = BUY).
    { apply Hb. vm_compute. auto. }
    destruct (Hlev Hs) as (_ & _ & Hst & _ & Htr & HS & _).
    eexists. exists o. split; [reflexivity|].
    split; [reflexivity|]. split; [exact Ho|]. split; [exact Hs|]. split.
    + rewrite HS, Hst. vm_compute. reflexivity.
    + now rewrite HS, Htr.
Defined.

(* ===================================================================== *)
(** ** One position at a time *)
(* ===================================================================== *)

Section OnePosition.

Variable p : params.

Lemma step_label_flat (st : pos_state) (r : row) :
  in_pos st = false ->
  (Signal (snd (step p st r)) = BUY /\ in_pos (fst (step p st r)) = true)
  \/ (Signal (snd (step p st r)) = NO_TRADE
      /\ in_pos (fst (step p st r)) = false).
Proof.
  intros H. unfold step. rewrite H. cbn [negb].
  destruct (entry_cond p r); cbn; auto.
Qed.

Lemma step_label_long (st : pos_state) (r : row) :
  in_pos st = true ->
  (is_exit (Signal (snd (step p st r))) = true
   /\ in_pos (fst (step p st r)) = false)
  \/ (Signal (snd (step p st r)) = CASH
      /\ in_pos (fst (step p st r)) = true).
Proof.
  intros H. unfold step. rewrite H. cbn [negb].
  destruct (Float.leb _ _); [cbn; auto|].
  destruct (Float.geb _ _); [cbn; auto|].
  destruct (reversal_cond p r); cbn; auto.
Qed.

Lemma scan_alternates (rows : list row) :
  forall st, alternates (in_pos st) (map Signal (scan p st rows)) = true.
Proof.
  induction rows as [|r rows IH]; intros st; [reflexivity|].
  cbn [scan]. specialize (IH (fst (step p st r))).
  destruct (step p st r) as [st' o] eqn:E. cbn [map alternates].
  cbn [fst] in IH.
  destruct (in_pos st) eqn:Hin.
  - destruct (step_label_long st r Hin) as [[He Hp]|[Hc Hp]];
      rewrite E in *; cbn [fst snd] in *.
    + rewrite Hp in IH. destruct (Signal o); try discriminate; exact IH.
    + rewrite Hp in IH. now rewrite Hc.
  - destruct (step_label_flat st r Hin) as [[Hb Hp]|[Hn Hp]];
      rewrite E in *; cbn [fst snd] in *.
    + rewrite Hp in IH. now rewrite Hb.
    + rewrite Hp in IH. now rewrite Hn.
Qed.

Lemma signals_alternate (rows : list row) :
  alternates false (signals p rows) = true.
Proof.
  unfold signals, signal_engine. destruct rows as [|r rows]; [reflexivity|].
  cbn [map alternates default_rec Signal].
  exact (scan_alternates rows init_state).
Qed.

End OnePosition.

(** From a flat state no exit can precede the next BUY; from a long state
    exactly one does. *)
Lemma alternates_until_buy (mid post : list label) :
  ~ In BUY mid ->
  forall long,
    alternates long (mid ++ BUY :: post) = true ->
    exits mid = (if long then 1 else 0)%nat.
Proof.
  unfold exits.
  induction mid as [|l mid IH]; intros Hn long H.
  - destruct long; [discriminate | reflexivity].
  - assert (Hl : l <> BUY) by (intros ->; apply Hn; now left).
    assert (Hm : ~ In BUY mid) by (intros Hi; apply Hn; now right).
    cbn [app alternates] in H. cbn [filter].
    destruct long, l; try discriminate; try congruence; cbn [is_exit length];
      try (rewrite (IH Hm _ H); reflexivity).
Qed.

Lemma alternates_buy_is_flat (pre rest : list label) :
  forall long,
    alternates long (pre ++ BUY :: rest) = true ->
    alternates true rest = true.
Proof.
  induction pre as [|l pre IH]; intros long H; cbn [app alternates] in H.
  - destruct long; [discriminate | exact H].
  - destruct long, l; try discriminate; eapply IH; exact H.
Qed.

(** C4.  At most one position is open at any time.  In the label column,
    between two consecutive BUY labels there is exactly one exit label
    (SELL, TRAIL STOP or TAKE PROFIT).  A bar that starts with a position
    open is never labelled BUY, and a bar labelled with an exit started
    long and ends flat, so re-entry can happen on a later bar only. *)
Theorem one_position_at_a_time (p : params) (rows : list row) :
  (forall pre mid post,
      signals p rows = pre ++ BUY :: mid ++ BUY :: post ->
      ~ In BUY mid ->
      exits mid = 1%nat) /\
  (forall i o,
      nth_error (signal_engine p rows) i = Some o ->
      in_pos (state_before p rows i) = true ->
      Signal o <> BUY) /\
  (forall i o,
      nth_error (signal_engine p rows) i = Some o ->
      is_exit (Signal o) = true ->
      in_pos (state_before p rows i) = true /\
      in_pos (state_after p rows i) = false).
Proof.
  split; [|split].
  - intros pre mid post E Hn.
    pose proof (signals_alternate p rows) as H. rewrite E in H.
    apply alternates_buy_is_flat in H.
    exact (alternates_until_buy mid post Hn true H).
  - intros i o Ho Hin.
    pose proof (in_pos_after_first p rows i Hin) as Hi.
    destruct (nth_error rows i) as [r|] eqn:Hr.
    + rewrite (engine_nth p rows Hi Hr) in Ho. inversion Ho; subst.
      destruct (step_label_long p _ r Hin) as [[He _]|[Hc _]].
      * intros Hb. rewrite Hb in He. discriminate.
      * rewrite Hc. discriminate.
    + apply nth_error_None in Hr.
      assert (nth_error (signal_engine p rows) i = None) as Hnone.
      { apply nth_error_None. now rewrite signal_engine_length. }
      congruence.
  - intros i o Ho He.
    destruct (nth_error rows i) as [r|] eqn:Hr.
    + destruct i as [|k].
      * destruct rows; [discriminate|]. cbn in Ho. inversion Ho; subst.
        discriminate.
      * assert (Hi : (1 <= S k)%nat) by lia.
        rewrite (engine_nth p rows Hi Hr) in Ho. inversion Ho; subst.
        rewrite (state_after_step p rows Hi Hr).
        destruct (in_pos (state_before p rows (S k))) eqn:Hin.
        -- destruct (step_label_long p _ r Hin) as [[_ Hp]|[Hc _]];
             [auto|]. rewrite Hc in He. discriminate.
        -- destruct (step_label_flat p _ r Hin) as [[Hb _]|[Hn _]].
           ++ rewrite Hb in He. discriminate.
           ++ rewrite Hn in He. discriminate.
    + apply nth_error_None in Hr.
      assert (nth_error (signal_engine p rows) i = None) as Hnone.
      { apply nth_error_None. now rewrite signal_engine_length. }
      congruence.
Qed.

Lemma one_position_at_a_time_witness :
  exits (firstn 12 (skipn 58 (signals Demo.demo_params Demo.demo_rows)))
  = 1%nat /\
  (exists o,
      nth_error (signal_engine Demo.demo_params Demo.demo_rows) 59 = Some o /\
      Signal o <> BUY) /\
  in_pos (state_after Demo.demo_params Demo.demo_rows 61) = false.
Proof.
  destruct (one_position_at_a_time Demo.demo_params Demo.demo_rows)
    as (H1 & H2 & H3).
  split; [|split].
  - apply (H1 (firstn 57 (signals Demo.demo_params Demo.demo_rows))
              (firstn 12 (skipn 58 (signals Demo.demo_params Demo.demo_rows)))
              (skipn 71 (signals Demo.demo_params Demo.demo_rows))).
    + vm_compute. reflexivity.
    + vm_compute. intuition discriminate.
  - destruct (nth_error (signal_engine Demo.demo_params Demo.demo_rows) 59)
      as [o|] eqn:E; [|vm_compute in E; discriminate].
    exists o. split; [reflexivity|].
    apply (H2 59%nat o E). vm_compute. reflexivity.
  - destruct (nth_error (signal_engine Demo.demo_params Demo.demo_rows) 61)
      as [o|] eqn:E; [|vm_compute in E; discriminate].
    apply (H3 61%nat o E).
    vm_compute in E. injection E as <-. reflexivity.
Defined.

(* ===================================================================== *)
(** ** Position sizing *)
(* ===================================================================== *)

Lemma Qltb_true (x y : Q) : Float.Qltb x y = true <-> x < y.
Proof.
  unfold Float.Qltb. rewrite negb_true_iff. split.
  - intros H. apply Qnot_le_lt. intros Hle.
    apply Qle_bool_iff in Hle. congruence.
  - intros H. destruct (Qle_bool y x) eqn:E; [|reflexivity].
    apply Qle_bool_iff in E. lra.
Qed.

Lemma Qltb_false (x y : Q) : Float.Qltb x y = false <-> y <= x.
Proof.
  unfold Float.Qltb. rewrite negb_false_iff. apply Qle_bool_iff.
Qed.

Lemma Qfloor_nonneg (q : Q) : 0 <= q -> (0 <= Qfloor q)%Z.
Proof.
  intros H. change 0%Z with (Qfloor 0). now apply Qfloor_resp_le.
Qed.

Lemma Qfloor_zero_iff (q : Q) : Qfloor q = 0%Z <-> 0 <= q /\ q < 1.
Proof.
  split.
  - intros H. pose proof (Qfloor_le q) as Hl. pose proof (Qlt_floor q) as Hu.
    rewrite H in Hl, Hu. cbn in Hl, Hu. split; assumption.
  - intros [H0 H1]. pose proof (Qfloor_nonneg H0) as Hn.
    pose proof (Qfloor_le q) as Hl.
    assert (Hlt : inject_Z (Qfloor q) < inject_Z 1).
    { change (inject_Z 1) with 1. lra. }
    rewrite <- Zlt_Qlt in Hlt. lia.
Qed.

(* ===================================================================== *)
(** ** Binary64 rounding *)
(* ===================================================================== *)

Lemma pow2_pos (k : Z) : 0 < IEEE.pow2 k.
Proof. unfold IEEE.pow2. now apply Qpower_0_lt. Qed.

Lemma pow2_nonneg_exp (k : Z) :
  (0 <= k)%Z -> IEEE.pow2 k == inject_Z (2 ^ k).
Proof.
  intros H. unfold IEEE.pow2. now rewrite Zpower_Qpower.
Qed.

Lemma pow2_le (j k : Z) : (j <= k)%Z -> IEEE.pow2 j <= IEEE.pow2 k.
Proof.
  intros H. unfold IEEE.pow2. apply Qpower_le_compat_l; [exact H|].
  discriminate.
Qed.

Lemma Qnum_pos (x : Q) : 0 < x -> (0 < Qnum x)%Z.
Proof. unfold Qlt. cbn. lia. Qed.

(** [ilog2] does not overshoot. *)
Lemma ilog2_lower (x : Q) : 0 < x -> IEEE.pow2 (IEEE.ilog2 x) <= x.
Proof.
  intros Hx. pose proof (Qnum_pos Hx) as Hn.
  destruct x as [n d]. unfold IEEE.ilog2. cbn [Qnum Qden] in *.
  set (a := Z.log2 n). set (b := Z.log2 (Z.pos d)).
  destruct (Qle_bool (IEEE.pow2 (a - b)) (n # d)) eqn:E.
  - now apply Qle_bool_iff.
  - pose proof (Z.log2_spec n Hn) as [Ha _].
    assert (Hd : (0 < Z.pos d)%Z) by lia.
    pose proof (Z.log2_spec (Z.pos d) Hd) as [_ Hb].
    fold a in Ha. fold b in Hb.
    assert (Ha0 : (0 <= a)%Z) by apply Z.log2_nonneg.
    assert (Hb0 : (0 <= b)%Z) by apply Z.log2_nonneg.
    replace (a - b - 1)%Z with (a - Z.succ b)%Z by lia.
    unfold IEEE.pow2. rewrite Qpower_minus by discriminate.
    fold (IEEE.pow2 a) (IEEE.pow2 (Z.succ b)).
    rewrite (pow2_nonneg_exp Ha0), (@pow2_nonneg_exp (Z.succ b)) by lia.
    rewrite (Qmake_Qdiv n d).
    assert (H1 : inject_Z (2 ^ a) <= inject_Z n) by now rewrite <- Zle_Qle.
    assert (H2 : inject_Z (Z.pos d) < inject_Z (2 ^ Z.succ b))
      by now rewrite <- Zlt_Qlt.
    assert (H3 : 0 < inject_Z (Z.pos d)).
    { change 0 with (inject_Z 0). now rewrite <- Zlt_Qlt. }
    assert (H4 : 0 < inject_Z (2 ^ a)).
    { change 0 with (inject_Z 0). rewrite <- Zlt_Qlt.
      apply Z.pow_pos_nonneg; lia. }
    set (A := inject_Z (2 ^ a)) in *. set (B := inject_Z (2 ^ Z.succ b)) in *.
    set (n' := inject_Z n) in *. set (d' := inject_Z (Z.pos d)) in *.
    clearbody A B n' d'.
    apply Qle_shift_div_r; [lra|].
    assert (E1 : n' / d' * B == n' * (B / d')) by (field; lra).
    rewrite E1.
    assert (H5 : 1 <= B / d') by (apply Qle_shift_div_l; lra).
    nra.
Qed.

Lemma rint_ge_floor (y : Q) : (Qfloor y <= IEEE.rint y)%Z.
Proof.
  unfold IEEE.rint. destruct (Qcompare _ _); [|lia|lia].
  destruct (Z.even (Qfloor y)); lia.
Qed.

Lemma round_pos_positive (x : Q) : 0 < x -> 0 < IEEE.round_pos x.
Proof.
  intros Hx. unfold IEEE.round_pos.
  set (e := (IEEE.ilog2 x - 52)%Z).
  pose proof (pow2_pos e) as He.
  assert (Hle : IEEE.pow2 e <= x).
  { apply Qle_trans with (IEEE.pow2 (IEEE.ilog2 x));
      [apply pow2_le; unfold e; lia | now apply ilog2_lower]. }
  assert (Hy : 1 <= x / IEEE.pow2 e) by (apply Qle_shift_div_l; lra).
  assert (Hf : (1 <= Qfloor (x / IEEE.pow2 e))%Z).
  { change 1%Z with (Qfloor 1). now apply Qfloor_resp_le. }
  pose proof (rint_ge_floor (x / IEEE.pow2 e)) as Hr.
  assert (Hq : 1 <= inject_Z (IEEE.rint (x / IEEE.pow2 e))).
  { change 1 with (inject_Z 1). rewrite <- Zle_Qle. lia. }
  nra.
Qed.

Lemma round64_pos (x : Q) : 0 < x -> 0 < IEEE.round64 x.
Proof.
  intros Hx. unfold IEEE.round64.
  assert (E : (x ?= 0) = Gt) by now apply Qgt_alt.
  rewrite E. now apply round_pos_positive.
Qed.

Lemma round64_neg (x : Q) : x < 0 -> IEEE.round64 x < 0.
Proof.
  intros Hx. unfold IEEE.round64.
  assert (E : (x ?= 0) = Lt) by now apply Qlt_alt.
  rewrite E.
  assert (H : 0 < IEEE.round_pos (- x)) by (apply round_pos_positive; lra).
  lra.
Qed.

Lemma round64_zero (x : Q) : x == 0 -> IEEE.round64 x = 0.
Proof.
  intros Hx. unfold IEEE.round64.
  assert (E : (x ?= 0) = Eq) by now apply Qeq_alt.
  now rewrite E.
Qed.

Lemma round64_nonneg (x : Q) : 0 <= x -> 0 <= IEEE.round64 x.
Proof.
  intros Hx. destruct (Qlt_le_dec 0 x) as [H|H].
  - apply Qlt_le_weak. now apply round64_pos.
  - rewrite round64_zero by lra. lra.
Qed.

Lemma round64_nonzero (x : Q) : ~ x == 0 -> ~ IEEE.round64 x == 0.
Proof.
  intros Hx H. destruct (Q_dec x 0) as [[Hlt|Hgt]|Heq]; [| |contradiction].
  - pose proof (round64_neg Hlt). lra.
  - pose proof (round64_pos Hgt). lra.
Qed.

(* ===================================================================== *)
(** ** Rounding is monotone *)
(* ===================================================================== *)

Lemma pow2_lt_inv (j k : Z) : IEEE.pow2 j < IEEE.pow2 k -> (j < k)%Z.
Proof.
  unfold IEEE.pow2. intros H. apply Qpower_lt_compat_l_inv with (q := 2);
    [exact H | reflexivity].
Qed.

Lemma pow2_add (j k : Z) : IEEE.pow2 (j + k) == IEEE.pow2 j * IEEE.pow2 k.
Proof. unfold IEEE.pow2. apply Qpower_plus. discriminate. Qed.

Lemma pow2_succ (k : Z) : IEEE.pow2 (k + 1) == 2 * IEEE.pow2 k.
Proof. rewrite pow2_add. unfold IEEE.pow2 at 2. rewrite Qpower_1_r. ring. Qed.

Lemma ilog2_upper (x : Q) : 0 < x -> x < IEEE.pow2 (IEEE.ilog2 x + 1).
Proof.
  intros Hx. pose proof (Qnum_pos Hx) as Hn.
  destruct x as [n d]. unfold IEEE.ilog2. cbn [Qnum Qden] in *.
  set (a := Z.log2 n). set (b := Z.log2 (Z.pos d)).
  destruct (Qle_bool (IEEE.pow2 (a - b)) (n # d)) eqn:E.
  - pose proof (Z.log2_spec n Hn) as [_ Ha].
    assert (Hd : (0 < Z.pos d)%Z) by lia.
    pose proof (Z.log2_spec (Z.pos d) Hd) as [Hb _].
    fold a in Ha. fold b in Hb.
    assert (Ha0 : (0 <= a)%Z) by apply Z.log2_nonneg.
    assert (Hb0 : (0 <= b)%Z) by apply Z.log2_nonneg.
    replace (a - b + 1)%Z with (Z.succ a - b)%Z by lia.
    unfold IEEE.pow2. rewrite Qpower_minus by discriminate.
    fold (IEEE.pow2 (Z.succ a)) (IEEE.pow2 b).
    rewrite (@pow2_nonneg_exp (Z.succ a)), (pow2_nonneg_exp Hb0) by lia.
    rewrite (Qmake_Qdiv n d).
    assert (H1 : inject_Z n < inject_Z (2 ^ Z.succ a)) by now rewrite <- Zlt_Qlt.
    assert (H2 : inject_Z (2 ^ b) <= inject_Z (Z.pos d))
      by now rewrite <- Zle_Qle.
    assert (H3 : 0 < inject_Z (2 ^ b)).
    { change 0 with (inject_Z 0). rewrite <- Zlt_Qlt.
      apply Z.pow_pos_nonneg; lia. }
    assert (H4 : 0 < inject_Z n).
    { change 0 with (inject_Z 0). now rewrite <- Zlt_Qlt. }
    set (A := inject_Z (2 ^ Z.succ a)) in *. set (B := inject_Z (2 ^ b)) in *.
    set (n' := inject_Z n) in *. set (d' := inject_Z (Z.pos d)) in *.
    clearbody A B n' d'.
    apply Qlt_shift_div_r; [lra|].
    assert (E1 : A / B * d' == A * (d' / B)) by (field; lra).
    rewrite E1.
    assert (H5 : 1 <= d' / B) by (apply Qle_shift_div_l; lra).
    nra.
  - replace (a - b - 1 + 1)%Z with (a - b)%Z by lia.
    apply Qnot_le_lt. intros H. apply Qle_bool_iff in H. congruence.
Qed.

Lemma ilog2_unique (x : Q) (k : Z) :
  0 < x -> IEEE.pow2 k <= x -> x < IEEE.pow2 (k + 1) -> IEEE.ilog2 x = k.
Proof.
  intros Hx Hl Hu.
  pose proof (ilog2_lower Hx) as Hl'. pose proof (ilog2_upper Hx) as Hu'.
  assert (H1 : (IEEE.ilog2 x < k + 1)%Z).
  { apply pow2_lt_inv. lra. }
  assert (H2 : (k < IEEE.ilog2 x + 1)%Z).
  { apply pow2_lt_inv. lra. }
  lia.
Qed.

Lemma ilog2_mono (x y : Q) :
  0 < x -> x <= y -> (IEEE.ilog2 x <= IEEE.ilog2 y)%Z.
Proof.
  intros Hx Hxy. assert (Hy : 0 < y) by lra.
  pose proof (ilog2_lower Hx). pose proof (ilog2_upper Hy).
  assert (H1 : (IEEE.ilog2 x < IEEE.ilog2 y + 1)%Z).
  { apply pow2_lt_inv. lra. }
  lia.
Qed.

Ltac cmp_prop H :=
  first [apply Qeq_alt in H | apply Qlt_alt in H | apply Qgt_alt in H].

Lemma rint_le_succ_floor (y : Q) : (IEEE.rint y <= Qfloor y + 1)%Z.
Proof.
  unfold IEEE.rint. destruct (Qcompare _ _); [|lia|lia].
  destruct (Z.even (Qfloor y)); lia.
Qed.

Lemma rint_mono (y1 y2 : Q) : y1 <= y2 -> (IEEE.rint y1 <= IEEE.rint y2)%Z.
Proof.
  intros H. pose proof (Qfloor_resp_le _ _ H) as Hf.
  destruct (Z.eq_dec (Qfloor y1) (Qfloor y2)) as [E|E].
  - unfold IEEE.rint. cbv zeta. rewrite E.
    destruct (Qcompare (y1 - inject_Z (Qfloor y2)) (1 # 2)) eqn:C1;
      destruct (Qcompare (y2 - inject_Z (Qfloor y2)) (1 # 2)) eqn:C2;
      try (destruct (Z.even (Qfloor y2)); lia); try lia;
      cmp_prop C1; cmp_prop C2; exfalso; lra.
  - pose proof (rint_le_succ_floor y1). pose proof (rint_ge_floor y2). lia.
Qed.

Lemma rint_Z (n : Z) : IEEE.rint (inject_Z n) = n.
Proof.
  unfold IEEE.rint. cbv zeta. rewrite Qfloor_Z.
  assert (E : (inject_Z n - inject_Z n ?= 1 # 2) = Lt).
  { rewrite <- Qlt_alt. lra. }
  now rewrite E.
Qed.

Lemma rint_below (y : Q) (n : Z) :
  y < inject_Z n + (1 # 2) -> (IEEE.rint y <= n)%Z.
Proof.
  intros H. pose proof (Qfloor_le y) as Hl.
  assert (Hf : (Qfloor y <= n)%Z).
  { assert (Hq : inject_Z (Qfloor y) < inject_Z (n + 1)).
    { rewrite inject_Z_plus. change (inject_Z 1) with 1. lra. }
    rewrite <- Zlt_Qlt in Hq. lia. }
  destruct (Z.eq_dec (Qfloor y) n) as [E|E].
  - unfold IEEE.rint. cbv zeta. rewrite E.
    assert (C : (y - inject_Z n ?= 1 # 2) = Lt).
    { rewrite <- Qlt_alt. lra. }
    rewrite C. lia.
  - pose proof (rint_le_succ_floor y). lia.
Qed.

(** The significand before rounding lies in [2^52, 2^53). *)
Lemma pow2_scale (k : Z) :
  IEEE.pow2 k == inject_Z (2 ^ 52) * IEEE.pow2 (k - 52).
Proof.
  replace k with (52 + (k - 52))%Z at 1 by lia.
  rewrite pow2_add. now rewrite (@pow2_nonneg_exp 52) by lia.
Qed.

Lemma significand_bounds (x : Q) :
  0 < x ->
  inject_Z (2 ^ 52) <= x / IEEE.pow2 (IEEE.ilog2 x - 52) /\
  x / IEEE.pow2 (IEEE.ilog2 x - 52) < inject_Z (2 ^ 53).
Proof.
  intros Hx. pose proof (ilog2_lower Hx) as Hl.
  pose proof (ilog2_upper Hx) as Hu.
  rewrite pow2_succ in Hu. rewrite pow2_scale in Hl, Hu.
  pose proof (pow2_pos (IEEE.ilog2 x - 52)) as He.
  set (e := IEEE.pow2 (IEEE.ilog2 x - 52)) in *. clearbody e.
  change (inject_Z (2 ^ 52)) with 4503599627370496 in *.
  change (inject_Z (2 ^ 53)) with 9007199254740992.
  split.
  - apply Qle_shift_div_l; lra.
  - apply Qlt_shift_div_r; lra.
Qed.

Lemma rint_significand (x : Q) :
  0 < x ->
  (2 ^ 52 <= IEEE.rint (x / IEEE.pow2 (IEEE.ilog2 x - 52)) <= 2 ^ 53)%Z.
Proof.
  intros Hx. destruct (significand_bounds Hx) as [Hl Hu]. split.
  - rewrite <- (rint_Z (2 ^ 52)). now apply rint_mono.
  - rewrite <- (rint_Z (2 ^ 53)). apply rint_mono. lra.
Qed.

Lemma round_pos_bounds (x : Q) :
  0 < x ->
  IEEE.pow2 (IEEE.ilog2 x) <= IEEE.round_pos x /\
  IEEE.round_pos x <= IEEE.pow2 (IEEE.ilog2 x + 1).
Proof.
  intros Hx. destruct (rint_significand Hx) as [Hl Hu].
  unfold IEEE.round_pos. cbv zeta.
  rewrite pow2_succ, pow2_scale.
  pose proof (pow2_pos (IEEE.ilog2 x - 52)) as He.
  rewrite Zle_Qle in Hl, Hu.
  set (r := inject_Z (IEEE.rint _)) in *.
  set (e := IEEE.pow2 (IEEE.ilog2 x - 52)) in *. clearbody r e.
  change (inject_Z (2 ^ 52)) with 4503599627370496 in *.
  change (inject_Z (2 ^ 53)) with 9007199254740992 in *.
  split; nra.
Qed.

Lemma round_pos_mono (x y : Q) :
  0 < x -> x <= y -> IEEE.round_pos x <= IEEE.round_pos y.
Proof.
  intros Hx Hxy. assert (Hy : 0 < y) by lra.
  pose proof (ilog2_mono Hx Hxy) as Hk.
  destruct (Z.eq_dec (IEEE.ilog2 x) (IEEE.ilog2 y)) as [E|E].
  - unfold IEEE.round_pos. cbv zeta. rewrite E.
    pose proof (pow2_pos (IEEE.ilog2 y - 52)) as He.
    assert (Hq : x / IEEE.pow2 (IEEE.ilog2 y - 52)
                 <= y / IEEE.pow2 (IEEE.ilog2 y - 52)).
    { apply Qmult_le_compat_r; [exact Hxy|].
      apply Qlt_le_weak, Qinv_lt_0_compat, He. }
    apply rint_mono in Hq. rewrite Zle_Qle in Hq.
    set (e := IEEE.pow2 (IEEE.ilog2 y - 52)) in *.
    set (r1 := inject_Z (IEEE.rint (x / e))) in *.
    set (r2 := inject_Z (IEEE.rint (y / e))) in *.
    clearbody e r1 r2. nra.
  - destruct (round_pos_bounds Hx) as [_ Hu].
    destruct (round_pos_bounds Hy) as [Hl _].
    assert (Hp : IEEE.pow2 (IEEE.ilog2 x + 1) <= IEEE.pow2 (IEEE.ilog2 y)).
    { apply pow2_le. lia. }
    lra.
Qed.

Lemma round64_positive (x : Q) : 0 < x -> IEEE.round64 x = IEEE.round_pos x.
Proof.
  intros Hx. unfold IEEE.round64.
  assert (E : (x ?= 0) = Gt) by now apply Qgt_alt.
  now rewrite E.
Qed.

Lemma round64_negative (x : Q) :
  x < 0 -> IEEE.round64 x = - IEEE.round_pos (- x).
Proof.
  intros Hx. unfold IEEE.round64.
  assert (E : (x ?= 0) = Lt) by now apply Qlt_alt.
  now rewrite E.
Qed.

(** Rounding is monotone. *)
Lemma round64_mono (x y : Q) : x <= y -> IEEE.round64 x <= IEEE.round64 y.
Proof.
  intros Hxy.
  destruct (Qlt_le_dec 0 x) as [Hx|Hx].
  - rewrite (round64_positive Hx), round64_positive by lra.
    now apply round_pos_mono.
  - destruct (Qlt_le_dec 0 y) as [Hy|Hy].
    + pose proof (round64_pos Hy).
      destruct (Qlt_le_dec x 0) as [Hn|Hz].
      * pose proof (round64_neg Hn). lra.
      * rewrite (@round64_zero x) by lra. lra.
    + destruct (Qlt_le_dec y 0) as [Hn|Hz].
      * rewrite (round64_negative Hn), round64_negative by lra.
        assert (H : IEEE.round_pos (- y) <= IEEE.round_pos (- x))
          by (apply round_pos_mono; lra).
        lra.
      * rewrite (@round64_zero y) by lra.
        destruct (Qlt_le_dec x 0) as [Hxn|Hxz].
        -- pose proof (round64_neg Hxn). lra.
        -- rewrite (@round64_zero x) by lra. lra.
Qed.

Lemma round64_positive_inv (x : Q) : 0 < IEEE.round64 x -> 0 < x.
Proof.
  intros H. destruct (Qlt_le_dec 0 x) as [Hx|Hx]; [exact Hx|].
  assert (Hm : IEEE.round64 x <= IEEE.round64 0) by now apply round64_mono.
  change (IEEE.round64 0) with 0 in Hm. lra.
Qed.

(** Every positive double is a 53-bit integer times a power of two. *)
Lemma round_pos_repr (x : Q) :
  0 < x ->
  exists M E,
    IEEE.round_pos x == inject_Z M * IEEE.pow2 E /\
    (2 ^ 52 <= M < 2 ^ 53)%Z.
Proof.
  intros Hx. destruct (rint_significand Hx) as [Hl Hu].
  set (R := IEEE.rint (x / IEEE.pow2 (IEEE.ilog2 x - 52))) in *.
  destruct (Z.eq_dec R (2 ^ 53)) as [E|E].
  - exists (2 ^ 52)%Z, (IEEE.ilog2 x - 52 + 1)%Z. split; [|lia].
    unfold IEEE.round_pos. cbv zeta. fold R. rewrite E, pow2_succ.
    change (inject_Z (2 ^ 52)) with 4503599627370496.
    change (inject_Z (2 ^ 53)) with 9007199254740992. ring.
  - exists R, (IEEE.ilog2 x - 52)%Z. split; [reflexivity | lia].
Qed.

Lemma inject_Z_succ_le (a b : Z) : (a < b)%Z -> inject_Z a + 1 <= inject_Z b.
Proof.
  intros H. assert (H' : (a + 1 <= b)%Z) by lia.
  rewrite Zle_Qle, inject_Z_plus in H'. exact H'.
Qed.

Lemma inject_Z_lt_inv (a b : Z) : inject_Z a < inject_Z b -> (a < b)%Z.
Proof. intros H. now rewrite Zlt_Qlt. Qed.

(** Two doubles [x < y] with [y <= 2 x]: their quotient stays at least
    half a unit in the last place below one. *)
Lemma quotient_gap (m M F E : Z) (x y : Q) :
  x == inject_Z m * IEEE.pow2 F ->
  y == inject_Z M * IEEE.pow2 E ->
  (2 ^ 52 <= m < 2 ^ 53)%Z ->
  (2 ^ 52 <= M < 2 ^ 53)%Z ->
  x < y -> 1 # 2 <= x / y ->
  x / y * 9007199254740992 < 9007199254740992 - (1 # 2).
Proof.
  intros Hx0 Hy0 [Hm1 Hm2] [HM1 HM2] Hxy Hhalf.
  pose proof (pow2_pos F) as HF. pose proof (pow2_pos E) as HE.
  rewrite Zle_Qle in Hm1, HM1. rewrite Zlt_Qlt in Hm2, HM2.
  change (inject_Z (2 ^ 52)) with 4503599627370496 in *.
  change (inject_Z (2 ^ 53)) with 9007199254740992 in *.
  assert (Hy : 0 < y) by (rewrite Hy0; nra).
  assert (Hx : 0 < x) by (rewrite Hx0; nra).
  assert (Hq : x / y * y == x) by (field; lra).
  assert (Hq0 : 0 < x / y) by (apply Qlt_shift_div_l; lra).
  assert (Hq1 : x / y < 1) by (apply Qlt_shift_div_r; lra).
  assert (HFE : (F <= E)%Z).
  { destruct (Z_le_gt_dec F E) as [H|H]; [exact H|]. exfalso.
    assert (Hp : IEEE.pow2 (E + 1) <= IEEE.pow2 F) by (apply pow2_le; lia).
    rewrite pow2_succ in Hp.
    set (tf := IEEE.pow2 F) in *. set (te := IEEE.pow2 E) in *.
    set (mq := inject_Z m) in *. set (Mq := inject_Z M) in *.
    clearbody tf te mq Mq. rewrite Hx0, Hy0 in Hxy. nra. }
  assert (HEF : (E - 1 <= F)%Z).
  { destruct (Z_le_gt_dec (E - 1) F) as [H|H]; [exact H|]. exfalso.
    assert (Hp : IEEE.pow2 F <= IEEE.pow2 (E - 2)) by (apply pow2_le; lia).
    assert (Hp2 : IEEE.pow2 E == 4 * IEEE.pow2 (E - 2)).
    { replace E with (E - 2 + 1 + 1)%Z at 1 by lia.
      rewrite !pow2_succ. ring. }
    pose proof (pow2_pos (E - 2)) as H2.
    set (q := x / y) in *.
    set (tf := IEEE.pow2 F) in *. set (te := IEEE.pow2 E) in *.
    set (t2 := IEEE.pow2 (E - 2)) in *.
    set (mq := inject_Z m) in *. set (Mq := inject_Z M) in *.
    clearbody q tf te t2 mq Mq.
    assert (Hxh : y * (1 # 2) <= x) by (rewrite <- Hq; nra).
    rewrite Hx0, Hy0, Hp2 in Hxh. nra. }
  set (q := x / y) in *.
  destruct (Z.eq_dec F E) as [->|Hne].
  - assert (Hlt : inject_Z m < inject_Z M).
    { rewrite Hx0, Hy0 in Hxy.
      set (te := IEEE.pow2 E) in *. clearbody te. nra. }
    apply inject_Z_lt_inv, inject_Z_succ_le in Hlt.
    assert (Hqm : q * inject_Z M == inject_Z m).
    { unfold q. rewrite Hx0, Hy0. field. split; lra. }
    set (mq := inject_Z m) in *. set (Mq := inject_Z M) in *.
    clearbody q mq Mq. nra.
  - assert (EF : F = (E - 1)%Z) by lia. subst F.
    assert (Hp : IEEE.pow2 E == 2 * IEEE.pow2 (E - 1)).
    { replace E with (E - 1 + 1)%Z at 1 by lia. apply pow2_succ. }
    assert (Hlt : inject_Z m < inject_Z (2 * M)).
    { rewrite inject_Z_mult. change (inject_Z 2) with 2.
      rewrite Hx0, Hy0, Hp in Hxy.
      set (t := IEEE.pow2 (E - 1)) in *. clearbody t. nra. }
    apply inject_Z_lt_inv, inject_Z_succ_le in Hlt.
    rewrite inject_Z_mult in Hlt. change (inject_Z 2) with 2 in Hlt.
    assert (Hqm : q * (2 * inject_Z M) == inject_Z m).
    { unfold q. rewrite Hx0, Hy0, Hp. field. split; lra. }
    set (mq := inject_Z m) in *. set (Mq := inject_Z M) in *.
    clearbody q mq Mq. nra.
Qed.

(** The quotient of a positive double by a larger double rounds to a
    number below one. *)
Lemma round64_quotient_below_one (u v : Q) :
  0 < IEEE.round64 u ->
  IEEE.round64 u < IEEE.round64 v ->
  IEEE.round64 (IEEE.round64 u / IEEE.round64 v) < 1.
Proof.
  intros Hx Hxy.
  assert (Hu : 0 < u) by now apply round64_positive_inv.
  assert (Hv : 0 < v) by (apply round64_positive_inv; lra).
  rewrite (round64_positive Hu) in *. rewrite (round64_positive Hv) in *.
  set (X := IEEE.round_pos u) in *. set (Y := IEEE.round_pos v) in *.
  assert (Hq0 : 0 < X / Y) by (apply Qlt_shift_div_l; lra).
  assert (Hq1 : X / Y < 1) by (apply Qlt_shift_div_r; lra).
  destruct (Qlt_le_dec (X / Y) (1 # 2)) as [Hhalf|Hhalf].
  - assert (Hm : IEEE.round64 (X / Y) <= IEEE.round64 (1 # 2))
      by (apply round64_mono; lra).
    assert (E : IEEE.round64 (1 # 2) == 1 # 2) by (vm_compute; reflexivity).
    lra.
  - assert (Hk : IEEE.ilog2 (X / Y) = (-1)%Z).
    { apply ilog2_unique; [exact Hq0 | |].
      - assert (E : IEEE.pow2 (-1) == 1 # 2) by reflexivity. lra.
      - assert (E : IEEE.pow2 (-1 + 1) == 1) by reflexivity. lra. }
    rewrite (round64_positive Hq0). unfold IEEE.round_pos. cbv zeta.
    rewrite Hk.
    assert (Hp : IEEE.pow2 (-1 - 52) == 1 # 9007199254740992)
      by reflexivity.
    destruct (round_pos_repr Hu) as (m & F & HX & Hm).
    destruct (round_pos_repr Hv) as (M & E & HY & HM).
    fold X in HX. fold Y in HY.
    pose proof (@quotient_gap _ _ _ _ _ _ HX HY Hm HM Hxy Hhalf) as Hgap.
    assert (Hr : (IEEE.rint (X / Y / IEEE.pow2 (-1 - 52)) <= 2 ^ 53 - 1)%Z).
    { apply rint_below. rewrite Hp.
      change (inject_Z (2 ^ 53 - 1)) with 9007199254740991.
      assert (Ed : X / Y / (1 # 9007199254740992)
                   == X / Y * 9007199254740992) by (field; lra).
      rewrite Ed. lra. }
    rewrite Zle_Qle in Hr.
    change (inject_Z (2 ^ 53 - 1)) with 9007199254740991 in Hr.
    set (r := inject_Z (IEEE.rint _)) in *. clearbody r.
    rewrite Hp. lra.
Qed.

(** A quotient of at least one rounds to at least one. *)
Lemma round64_quotient_at_least_one (q : Q) :
  1 <= q -> 1 <= IEEE.round64 q.
Proof.
  intros H. assert (Hm : IEEE.round64 1 <= IEEE.round64 q)
    by now apply round64_mono.
  assert (E : IEEE.round64 1 == 1) by (vm_compute; reflexivity).
  lra.
Qed.

(* ===================================================================== *)
(** ** The position sizer *)
(* ===================================================================== *)

Lemma shares_positive_divisor (p : params) (a : Q) :
  0 < a -> 0 < IEEE.round64 (stop_atr p * a) ->
  shares p (Fin a)
  = int_of_float
      (Fin (IEEE.round64
              (risk_dollars p / IEEE.round64 (stop_atr p * a)))).
Proof.
  intros Ha Hd. unfold shares, stop_distance, IEEE.mul, IEEE.div.
  cbn [Float.gtb Float.ltb Float.mul IEEE.rnd].
  assert (E : Float.Qltb 0 a = true) by now apply Qltb_true.
  rewrite E. cbn [Float.div].
  destruct (Qeq_bool (IEEE.round64 (stop_atr p * a)) 0) eqn:Ez.
  { apply Qeq_bool_iff in Ez. lra. }
  reflexivity.
Qed.

Lemma shares_not_positive_atr (p : params) (x : float) :
  Float.gtb x (Fin 0) = false -> shares p x = inr 0%Z.
Proof. intros H. unfold shares. now rewrite H. Qed.

Section SizerFacts.

Variable p : params.
Hypothesis Hacct : (0 <= account_size p)%Z.
Hypothesis Hrisk : 0 <= risk_per_trade p.
Hypothesis Hstop : 0 < stop_atr p.

Lemma risk_dollars_nonneg : 0 <= risk_dollars p.
Proof.
  unfold risk_dollars, IEEE.of_int. apply round64_nonneg.
  assert (H : 0 <= IEEE.round64 (inject_Z (account_size p))).
  { apply round64_nonneg. change 0 with (inject_Z 0).
    now rewrite <- Zle_Qle. }
  nra.
Qed.

Lemma stop_distance_pos (a : Q) :
  0 < a -> 0 < IEEE.round64 (stop_atr p * a).
Proof. intros Ha. apply round64_pos. nra. Qed.

Lemma quotient_nonneg (a : Q) :
  0 < a ->
  0 <= IEEE.round64 (risk_dollars p / IEEE.round64 (stop_atr p * a)).
Proof.
  intros Ha. apply round64_nonneg.
  pose proof (stop_distance_pos Ha) as Hd.
  apply Qle_shift_div_l; [exact Hd|].
  pose proof risk_dollars_nonneg. lra.
Qed.

Lemma shares_positive_atr (a : Q) :
  0 < a ->
  shares p (Fin a)
  = inr (Qfloor (IEEE.round64
                   (risk_dollars p / IEEE.round64 (stop_atr p * a)))).
Proof.
  intros Ha.
  rewrite shares_positive_divisor by (auto using stop_distance_pos).
  cbn [int_of_float]. pose proof (quotient_nonneg Ha) as Hq.
  apply Qle_bool_iff in Hq. now rewrite Hq.
Qed.

Lemma shares_total (x : float) :
  exists n, shares p x = inr n /\ (0 <= n)%Z.
Proof.
  destruct x as [| | |a].
  - exists 0%Z. split; [reflexivity | lia].
  - exists 0%Z. split; [|lia].
    unfold shares, stop_distance, IEEE.mul, IEEE.div.
    cbn [Float.gtb Float.ltb Float.mul]. unfold Float.sgn.
    assert (E : (stop_atr p ?= 0) = Gt) by now apply Qgt_alt.
    rewrite E. reflexivity.
  - exists 0%Z. split; [reflexivity | lia].
  - destruct (Qlt_le_dec 0 a) as [Ha|Ha].
    + eexists. split; [now apply shares_positive_atr|].
      apply Qfloor_nonneg. now apply quotient_nonneg.
    + exists 0%Z. split; [|lia]. apply shares_not_positive_atr.
      cbn. now apply Qltb_false.
Qed.

Lemma stop_distance_nonzero (x : float) :
  Float.gtb x (Fin 0) = true ->
  Float.eqb (stop_distance p x) (Fin 0) = false.
Proof.
  intros H. destruct x as [| | |a]; cbn in H; try discriminate.
  - unfold stop_distance, IEEE.mul. cbn [Float.mul]. unfold Float.sgn.
    assert (E : (stop_atr p ?= 0) = Gt) by now apply Qgt_alt.
    rewrite E. reflexivity.
  - apply Qltb_true in H. unfold stop_distance, IEEE.mul.
    cbn [Float.mul IEEE.rnd Float.eqb].
    pose proof (stop_distance_pos H) as Hd.
    destruct (Qeq_bool (IEEE.round64 (stop_atr p * a)) 0) eqn:Ez;
      [|reflexivity].
    apply Qeq_bool_iff in Ez. lra.
Qed.

End SizerFacts.

(** C6, as the code has it.  The three lines are float arithmetic.  With
    a non-negative account size and risk fraction and a positive stop
    multiplier, [risk_dollars] is the double nearest to [account_size *
    risk_per_trade] and is not negative; when the latest ATR is positive
    [shares] is the floor of the rounded quotient of [risk_dollars] by the
    rounded product [stop_atr * ATR], and 0 otherwise; it is a
    non-negative integer; and whenever the division is reached its
    divisor is not zero.  With account 50000, risk 1%, stop multiplier 2
    and ATR 5 the risk is 500 dollars and the size 50 shares. *)
Theorem position_sizer_contract :
  (forall p : params,
      (0 <= account_size p)%Z ->
      0 <= risk_per_trade p ->
      0 < stop_atr p ->
      risk_dollars p
      = IEEE.round64 (IEEE.of_int (account_size p) * risk_per_trade p) /\
      0 <= risk_dollars p /\
      (forall a, 0 < a ->
                 shares p (Fin a)
                 = inr (Qfloor (IEEE.round64
                                  (risk_dollars p
                                   / IEEE.round64 (stop_atr p * a))))) /\
      (forall x, Float.gtb x (Fin 0) = false -> shares p x = inr 0%Z) /\
      (forall x, exists n, shares p x = inr n /\ (0 <= n)%Z) /\
      (forall x, Float.gtb x (Fin 0) = true ->
                 Float.eqb (stop_distance p x) (Fin 0) = false)) /\
  (account_size Demo.default_params = 50000%Z /\
   risk_per_trade Demo.default_params == IEEE.round64 (1 # 100) /\
   stop_atr Demo.default_params == 2 /\
   risk_dollars Demo.default_params == 500 /\
   shares Demo.default_params (Fin 5) = inr 50%Z).
Proof.
  split.
  - intros p Hacct Hrisk Hstop. split; [reflexivity|].
    split; [now apply risk_dollars_nonneg|].
    split; [intros a; now apply shares_positive_atr|].
    split; [intros x; now apply shares_not_positive_atr|].
    split; [intros x; now apply shares_total|].
    intros x; now apply stop_distance_nonzero.
  - repeat split; vm_compute; reflexivity.
Qed.

Lemma position_sizer_contract_witness :
  shares Demo.default_params (Fin 3) = inr 83%Z.
Proof.
  destruct position_sizer_contract as [H _].
  destruct (H Demo.default_params) as (_ & _ & Hs & _).
  - vm_compute. discriminate.
  - vm_compute. discriminate.
  - reflexivity.
  - rewrite Hs by reflexivity. vm_compute. reflexivity.
Defined.

(** C6, what fails without the bounds on the inputs and in exact
    arithmetic.  The account-size input accepts negative numbers: with
    account -1000, risk 1%, stop multiplier 2 and ATR 2 the sizer returns
    -2 shares, a negative number, and not the floor of the quotient -2.5,
    which is -3.  And the floor of the exact quotient is not what the
    float arithmetic gives: with account 50000, risk 1%, stop multiplier
    2 and ATR 0.05 the code returns 5000 shares where the exact quotient
    of the same inputs has floor 4999. *)
Lemma sizer_negative_and_off_by_one :
  (shares Demo.overdrawn_params (Fin 2) = inr (-2)%Z /\
   Qfloor (risk_dollars Demo.overdrawn_params
           / (stop_atr Demo.overdrawn_params * 2)) = (-3)%Z) /\
  (shares Demo.default_params (Fin Demo.five_cents) = inr 5000%Z /\
   Qfloor (inject_Z (account_size Demo.default_params)
           * risk_per_trade Demo.default_params
           / (stop_atr Demo.default_params * Demo.five_cents)) = 4999%Z).
Proof. repeat split; vm_compute; reflexivity. Qed.

(** C5, as the code has it.  With positive account size, risk fraction
    and stop multiplier: a zero or undefined latest ATR gives zero shares,
    and for a finite ATR the share count is zero exactly when the ATR is
    not positive or the risk budget is below one share's stop distance,
    [risk_dollars < stop_atr * ATR], both sides being the floats the
    script computes. *)
Theorem shares_zero_iff (p : params) :
  (0 < account_size p)%Z ->
  0 < risk_per_trade p ->
  0 < stop_atr p ->
  shares p NaN = inr 0%Z /\
  forall a : Q,
  exists n,
    shares p (Fin a) = inr n /\
    (a == 0 -> n = 0%Z) /\
    (n = 0%Z <->
     a <= 0 \/ risk_dollars p < IEEE.round64 (stop_atr p * a)).
Proof.
  intros Hacct Hrisk Hstop. split; [reflexivity|]. intros a.
  assert (Hacct' : (0 <= account_size p)%Z) by lia.
  assert (Hrisk' : 0 <= risk_per_trade p) by lra.
  destruct (Qlt_le_dec 0 a) as [Ha|Ha].
  - eexists. split; [now apply shares_positive_atr|].
    split; [intros Hz; lra|].
    pose proof (stop_distance_pos p Hstop Ha) as Hd.
    assert (Hrd : 0 < risk_dollars p).
    { unfold risk_dollars, IEEE.of_int. apply round64_pos.
      assert (H : 0 < IEEE.round64 (inject_Z (account_size p))).
      { apply round64_pos. change 0 with (inject_Z 0).
        now rewrite <- Zlt_Qlt. }
      nra. }
    rewrite Qfloor_zero_iff. split.
    + intros [_ H1]. right.
      destruct (Qlt_le_dec (risk_dollars p)
                           (IEEE.round64 (stop_atr p * a))) as [H|H];
        [exact H|].
      exfalso.
      assert (Hq : 1 <= risk_dollars p / IEEE.round64 (stop_atr p * a))
        by (apply Qle_shift_div_l; lra).
      apply round64_quotient_at_least_one in Hq. lra.
    + intros [H|H]; [lra|]. split.
      * now apply quotient_nonneg.
      * unfold risk_dollars in *.
        now apply round64_quotient_below_one.
  - exists 0%Z. split.
    + apply shares_not_positive_atr. cbn. now apply Qltb_false.
    + split; [reflexivity | tauto].
Qed.

Lemma shares_zero_iff_witness :
  exists n,
    shares Demo.default_params (Fin 300) = inr n /\
    (n = 0%Z <->
     300 <= 0
     \/ risk_dollars Demo.default_params
        < IEEE.round64 (stop_atr Demo.default_params * 300)).
Proof.
  destruct (@shares_zero_iff Demo.default_params) as [_ H].
  - reflexivity.
  - reflexivity.
  - reflexivity.
  - destruct (H 300) as (n & Hn & _ & Hiff).
    exists n. split; assumption.
Defined.

(** C5, as stated, fails: with account 50000, risk 1% and stop multiplier
    2, a latest ATR of 300 gives zero shares although the ATR is not
    zero. *)
Lemma shares_zero_with_positive_atr :
  (0 < account_size Demo.default_params)%Z /\
  0 < risk_per_trade Demo.default_params /\
  ~ (shares Demo.default_params (Fin 300) = inr 0%Z <-> 300 == 0).
Proof.
  split; [reflexivity|]. split; [reflexivity|].
  intros [H _]. assert (E : 300 == 0) by (apply H; reflexivity).
  vm_compute in E. discriminate.
Qed.
(* ===================================================================== *)
(** ** Columns by position *)
(* ===================================================================== *)

Lemma nth_map_seq (A : Type) (f : nat -> A) (d : A) (n i : nat) :
  (i < n)%nat -> nth i (map f (seq 0 n)) d = f i.
Proof.
  intros H. rewrite (nth_indep _ d (f 0%nat)) by now rewrite length_map, length_seq.
  rewrite map_nth. now rewrite seq_nth.
Qed.

Lemma nth_error_combine (A B : Type) (l : list A) :
  forall (l' : list B) i a b,
    nth_error l i = Some a -> nth_error l' i = Some b ->
    nth_error (combine l l') i = Some (a, b).
Proof.
  induction l as [|x l IH]; intros [|y l'] [|i] a b Ha Hb;
    cbn in *; try discriminate.
  - congruence.
  - now apply IH.
Qed.

Lemma nth_error_seq0 (n i : nat) :
  (i < n)%nat -> nth_error (seq 0 n) i = Some i.
Proof.
  intros H. rewrite (nth_error_nth' _ 0%nat) by now rewrite length_seq.
  now rewrite seq_nth.
Qed.

Lemma length_zip_with (A B C : Type) (f : A -> B -> C) xs ys :
  length (Pandas.zip_with f xs ys) = Nat.min (length xs) (length ys).
Proof. unfold Pandas.zip_with. now rewrite length_map, length_combine. Qed.

Lemma length_rolling_mean (n : nat) (xs : list float) :
  length (Pandas.rolling_mean n xs) = length xs.
Proof. unfold Pandas.rolling_mean. now rewrite length_map, length_seq. Qed.

Lemma length_shift (xs : list float) : length (Pandas.shift xs) = length xs.
Proof. unfold Pandas.shift. rewrite length_firstn. cbn. lia. Qed.

Lemma nth_zip_with (A B C : Type) (f : A -> B -> C) xs ys dx dy i :
  length xs = length ys ->
  nth i (Pandas.zip_with f xs ys) (f dx dy)
  = f (nth i xs dx) (nth i ys dy).
Proof.
  intros H. unfold Pandas.zip_with.
  change (f dx dy) with ((fun xy => f (fst xy) (snd xy)) (dx, dy)).
  rewrite map_nth. now rewrite combine_nth.
Qed.

(** A cell of a rolling mean. *)
Lemma rolling_mean_nth (n : nat) (xs : list float) (i : nat) :
  (i < length xs)%nat ->
  nth i (Pandas.rolling_mean n xs) NaN
  = if (S i <? n)%nat then NaN
    else Pandas.mean (firstn n (skipn (S i - n) xs)).
Proof. intros H. unfold Pandas.rolling_mean. now rewrite nth_map_seq. Qed.

Lemma rolling_mean_warmup (n : nat) (xs : list float) (i : nat) :
  (S i < n)%nat -> nth i (Pandas.rolling_mean n xs) NaN = NaN.
Proof.
  intros H. destruct (Nat.lt_ge_cases i (length xs)) as [Hl|Hl].
  - rewrite rolling_mean_nth by exact Hl.
    apply Nat.ltb_lt in H. now rewrite H.
  - apply nth_overflow. now rewrite length_rolling_mean.
Qed.

(** A column that starts with NaN has one more undefined cell. *)
Lemma rolling_mean_nan_head (n : nat) (xs : list float) (i : nat) :
  (i < n)%nat -> nth i (Pandas.rolling_mean n (NaN :: xs)) NaN = NaN.
Proof.
  intros H. destruct (Nat.lt_ge_cases i (length (NaN :: xs))) as [Hl|Hl].
  - rewrite rolling_mean_nth by exact Hl.
    destruct (S i <? n)%nat eqn:E; [reflexivity|].
    apply Nat.ltb_ge in E. assert (n = S i) by lia. subst n.
    rewrite Nat.sub_diag. reflexivity.
  - apply nth_overflow. now rewrite length_rolling_mean.
Qed.

Lemma length_trend (qqq : list bar) : length (trend qqq) = length qqq.
Proof.
  unfold trend, sma_200, closes.
  rewrite length_combine, length_zip_with, length_rolling_mean, !length_map.
  lia.
Qed.

Lemma priced_rows_nth (p : params) (price : list bar)
  (cells : list (option bool)) (i : nat) (r : row) :
  nth_error (priced_rows p price cells) i = Some r ->
  exists b, nth_error price i = Some b /\ r = row_at p price cells i b.
Proof.
  intros H. unfold priced_rows in H. rewrite nth_error_map in H.
  destruct (nth_error price i) as [b|] eqn:Hb.
  - assert (Hi : (i < length price)%nat).
    { apply nth_error_Some. congruence. }
    rewrite (@nth_error_combine _ _ _ _ _ _ _ (nth_error_seq0 Hi) Hb) in H.
    cbn in H. inversion H. now exists b.
  - apply nth_error_None in Hb.
    assert (E : nth_error (combine (seq 0 (length price)) price) i = None).
    { apply nth_error_None. rewrite length_combine, length_seq. lia. }
    rewrite E in H. discriminate.
Qed.

Lemma priced_rows_length (p : params) (price : list bar)
  (cells : list (option bool)) :
  length (priced_rows p price cells) = length price.
Proof.
  unfold priced_rows. rewrite length_map, length_combine, length_seq. lia.
Qed.

(** The two shapes of the frame: the rows of the price series, or, when
    the price series is empty, one blank row per benchmark day. *)
Lemma indicators_cases (p : params) (price qqq : list bar) (rows : list row) :
  indicators p price qqq = inr rows ->
  (price <> [] /\
   exists cells, assign_trend price qqq = inr cells /\
                 rows = priced_rows p price cells) \/
  (price = [] /\ rows = map blank_row (trend qqq)).
Proof.
  unfold indicators. destruct price as [|b bs].
  - intros H. right. split; [reflexivity | congruence].
  - destruct (assign_trend (b :: bs) qqq) as [e|cells]; [discriminate|].
    intros H. left. split; [discriminate|]. exists cells.
    split; [reflexivity | congruence].
Qed.

Lemma indicators_nth (p : params) (price qqq : list bar) (rows : list row)
  (i : nat) (r : row) :
  indicators p price qqq = inr rows ->
  nth_error rows i = Some r ->
  (exists cells b,
      assign_trend price qqq = inr cells /\
      nth_error price i = Some b /\ r = row_at p price cells i b) \/
  (price = [] /\
   exists dv, nth_error (trend qqq) i = Some dv /\ r = blank_row dv).
Proof.
  intros H Hr.
  destruct (indicators_cases _ _ _ H) as [(_ & cells & Hc & ->)|[Hp ->]].
  - left. destruct (priced_rows_nth _ _ _ _ Hr) as (b & Hb & ->).
    now exists cells, b.
  - right. split; [exact Hp|]. rewrite nth_error_map in Hr.
    destruct (nth_error (trend qqq) i) as [dv|]; [|discriminate].
    exists dv. split; [reflexivity|]. cbn in Hr. congruence.
Qed.

Lemma indicators_length (p : params) (price qqq : list bar)
  (rows : list row) :
  indicators p price qqq = inr rows ->
  length rows = match price with
                | [] => length qqq
                | _ :: _ => length price
                end.
Proof.
  intros H.
  destruct (indicators_cases _ _ _ H) as [(Hp & cells & _ & ->)|[-> ->]].
  - rewrite priced_rows_length. destruct price; [contradiction|reflexivity].
  - now rewrite length_map, length_trend.
Qed.

(* ===================================================================== *)
(** ** Undefined indicators *)
(* ===================================================================== *)

Lemma ltb_nan_l (b : float) : Float.ltb NaN b = false.
Proof. reflexivity. Qed.

Lemma ltb_nan_r (a : float) : Float.ltb a NaN = false.
Proof. now destruct a. Qed.

Lemma div_nan_l (b : float) : Float.div NaN b = NaN.
Proof. reflexivity. Qed.

Lemma closes_cons (b : bar) (price : list bar) :
  closes (b :: price) = Fin (Close b) :: closes price.
Proof. reflexivity. Qed.

(** The first difference of a column is undefined. *)
Lemma diff_head (x : float) (xs : list float) :
  exists ys, Pandas.diff (x :: xs) = NaN :: ys.
Proof.
  unfold Pandas.diff, Pandas.shift, Pandas.zip_with. cbn.
  eexists. f_equal. now destruct x.
Qed.

Section Warmup.

Variable p : params.
Variables price qqq : list bar.

Lemma gain_head :
  price = [] \/ exists ys, gain price = NaN :: ys.
Proof.
  destruct price as [|b bs]; [now left | right].
  unfold gain, delta. rewrite closes_cons.
  destruct (diff_head (Fin (Close b)) (closes bs)) as [ys ->].
  now eexists.
Qed.

Lemma avg_gain_warmup (i : nat) :
  (i < rsi_period p)%nat -> nth i (avg_gain p price) NaN = NaN.
Proof.
  intros H. unfold avg_gain.
  destruct gain_head as [E|[ys E]].
  - unfold gain, delta. rewrite E. now destruct i.
  - rewrite E. now apply rolling_mean_nan_head.
Qed.

Lemma length_delta : length (delta price) = length price.
Proof.
  unfold delta, Pandas.diff. rewrite length_zip_with, length_shift.
  unfold closes. rewrite length_map. lia.
Qed.

Lemma rsi_warmup (i : nat) :
  (i < rsi_period p)%nat -> nth i (rsi p price) NaN = NaN.
Proof.
  intros H. unfold rsi.
  change NaN with
    ((fun x => Float.sub (Fin 100) (Float.div (Fin 100) (Float.add (Fin 1) x)))
       NaN) at 1.
  rewrite map_nth. unfold rs.
  change NaN with (Float.div NaN NaN) at 1.
  rewrite nth_zip_with.
  - now rewrite (avg_gain_warmup H).
  - unfold avg_gain, avg_loss, gain, loss.
    now rewrite !length_rolling_mean, !length_map.
Qed.

Lemma atr_pct_of_atr (i : nat) :
  nth i (atr p price) NaN = NaN -> nth i (atr_pct p price) NaN = NaN.
Proof.
  intros H. unfold atr_pct.
  change NaN with ((fun x => Float.mul x (Fin 100)) NaN) at 1.
  rewrite map_nth. unfold Pandas.rank_pct.
  set (g := fun x : float => if Float.is_nan x then NaN else _).
  change NaN with (g NaN) at 1.
  rewrite map_nth. now rewrite H.
Qed.

End Warmup.

Lemma entry_cond_undefined (p : params) (r : row) :
  SMA_S r = NaN \/ SMA_L r = NaN \/ RSI r = NaN \/ ATR_pct r = NaN ->
  entry_cond p r = false.
Proof.
  unfold entry_cond, Float.gtb.
  intros [H|[H|[H|H]]]; rewrite H.
  - now rewrite ltb_nan_r.
  - reflexivity.
  - now rewrite andb_false_r.
  - now rewrite andb_false_r.
Qed.

Lemma step_no_buy (p : params) (st : pos_state) (r : row) :
  entry_cond p r = false -> Signal (snd (step p st r)) <> BUY.
Proof.
  intros H. destruct (in_pos st) eqn:Hin.
  - destruct (step_label_long p st r Hin) as [[He _]|[Hc _]].
    + intros E. rewrite E in He. discriminate.
    + rewrite Hc. discriminate.
  - unfold step. rewrite Hin, H. cbn. discriminate.
Qed.

Lemma engine_no_buy (p : params) (rows : list row) (i : nat) (r : row) :
  nth_error rows i = Some r ->
  entry_cond p r = false ->
  exists o, nth_error (signal_engine p rows) i = Some o /\ Signal o <> BUY.
Proof.
  intros Hr Hc. destruct i as [|k].
  - destruct rows as [|a rows]; [discriminate|].
    exists default_rec. split; [reflexivity | discriminate].
  - assert (Hi : (1 <= S k)%nat) by lia.
    exists (snd (step p (state_before p rows (S k)) r)).
    split; [now apply engine_nth | now apply step_no_buy].
Qed.

(** C7.  In a run over any two series, the short and long moving average,
    the RSI and the ATR (with its percentile) of a bar are undefined as
    long as their window is not full, and a bar on which any of them is
    undefined gets a label that is not BUY: the scan still writes a label
    for it, and the entry conditions count as not met. *)
Theorem no_entry_before_warmup
  (p : params) (price qqq : list bar) (rows : list row) (i : nat) (r : row) :
  indicators p price qqq = inr rows ->
  nth_error rows i = Some r ->
  ((S i < short_ma p)%nat -> SMA_S r = NaN) /\
  ((S i < long_ma p)%nat -> SMA_L r = NaN) /\
  ((i < rsi_period p)%nat -> RSI r = NaN) /\
  ((S i < atr_period p)%nat -> ATR r = NaN /\ ATR_pct r = NaN) /\
  exists o,
    nth_error (signal_engine p rows) i = Some o /\
    (SMA_S r = NaN \/ SMA_L r = NaN \/ RSI r = NaN \/ ATR r = NaN ->
     Signal o <> BUY) /\
    ((S i < short_ma p)%nat \/ (S i < long_ma p)%nat \/
     (i < rsi_period p)%nat \/ (S i < atr_period p)%nat ->
     Signal o <> BUY).
Proof.
  intros Hrows Hr.
  assert (Hs : (S i < short_ma p)%nat -> SMA_S r = NaN).
  { destruct (indicators_nth _ _ _ _ Hrows Hr)
      as [(cells & b & _ & _ & ->)|(_ & dv & _ & ->)]; [|reflexivity].
    intros H. cbn. now apply rolling_mean_warmup. }
  assert (Hl : (S i < long_ma p)%nat -> SMA_L r = NaN).
  { destruct (indicators_nth _ _ _ _ Hrows Hr)
      as [(cells & b & _ & _ & ->)|(_ & dv & _ & ->)]; [|reflexivity].
    intros H. cbn. now apply rolling_mean_warmup. }
  assert (Hrsi : (i < rsi_period p)%nat -> RSI r = NaN).
  { destruct (indicators_nth _ _ _ _ Hrows Hr)
      as [(cells & b & _ & _ & ->)|(_ & dv & _ & ->)]; [|reflexivity].
    intros H. cbn. now apply rsi_warmup. }
  assert (Hpct : ATR r = NaN -> ATR_pct r = NaN).
  { destruct (indicators_nth _ _ _ _ Hrows Hr)
      as [(cells & b & _ & _ & ->)|(_ & dv & _ & ->)]; [|reflexivity].
    cbn. apply atr_pct_of_atr. }
  assert (Ha : (S i < atr_period p)%nat -> ATR r = NaN).
  { destruct (indicators_nth _ _ _ _ Hrows Hr)
      as [(cells & b & _ & _ & ->)|(_ & dv & _ & ->)]; [|reflexivity].
    intros H. cbn. now apply rolling_mean_warmup. }
  assert (Hundef :
            SMA_S r = NaN \/ SMA_L r = NaN \/ RSI r = NaN \/ ATR r = NaN ->
            entry_cond p r = false).
  { intros H. apply entry_cond_undefined. intuition. }
  repeat (split; [assumption || auto|]).
  destruct (nth_error (signal_engine p rows) i) as [o|] eqn:Ho.
  - exists o. split; [reflexivity|].
    assert (Hno : entry_cond p r = false -> Signal o <> BUY).
    { intros Hc. destruct (engine_no_buy p _ _ Hr Hc) as (o' & Ho' & Hn).
      congruence. }
    split; intros H; apply Hno, Hundef; intuition.
  - apply nth_error_None in Ho. rewrite signal_engine_length in Ho.
    assert (i < length rows)%nat.
    { apply nth_error_Some. congruence. }
    lia.
Qed.

Lemma no_entry_before_warmup_witness :
  exists r o,
    nth_error Demo.demo_rows 3 = Some r /\
    SMA_S r = NaN /\ RSI r = NaN /\
    nth_error (signal_engine Demo.demo_params Demo.demo_rows) 3 = Some o /\
    Signal o <> BUY.
Proof.
  assert (Hrows : indicators Demo.demo_params Demo.demo_price Demo.demo_qqq
                  = inr Demo.demo_rows) by (vm_compute; reflexivity).
  destruct (nth_error Demo.demo_rows 3) as [r|] eqn:E;
    [|vm_compute in E; discriminate].
  destruct (@no_entry_before_warmup Demo.demo_params Demo.demo_price
              Demo.demo_qqq Demo.demo_rows 3 r Hrows E)
    as (Hs & _ & Hr & _ & o & Ho & _ & Hn).
  exists r, o. split; [reflexivity|].
  split; [apply Hs; vm_compute; lia|].
  split; [apply Hr; vm_compute; lia|].
  split; [exact Ho|].
  apply Hn. left. vm_compute. lia.
Defined.

(* ===================================================================== *)
(** ** Finite columns *)
(* ===================================================================== *)

Lemma Forall_firstn_keep (A : Type) (P : A -> Prop) (l : list A) :
  forall n, Forall P l -> Forall P (firstn n l).
Proof.
  induction l as [|a l IH]; intros [|n] H; cbn; auto.
  inversion H; subst. constructor; auto.
Qed.

Lemma Forall_skipn_keep (A : Type) (P : A -> Prop) (l : list A) :
  forall n, Forall P l -> Forall P (skipn n l).
Proof.
  induction l as [|a l IH]; intros [|n] H; cbn; auto.
  inversion H; subst. auto.
Qed.

Lemma Forall_zip_with (A B C : Type) (f : A -> B -> C)
  (PA : A -> Prop) (PB : B -> Prop) (PC : C -> Prop) :
  (forall a b, PA a -> PB b -> PC (f a b)) ->
  forall xs ys, Forall PA xs -> Forall PB ys ->
                Forall PC (Pandas.zip_with f xs ys).
Proof.
  intros Hf. induction xs as [|x xs IH]; intros [|y ys] Hx Hy; cbn;
    try constructor.
  - inversion Hx; inversion Hy; subst. now apply Hf.
  - inversion Hx; inversion Hy; subst. now apply IH.
Qed.

Lemma Forall_nth_default (P : float -> Prop) (l : list float) (i : nat) :
  Forall P l -> P NaN -> P (nth i l NaN).
Proof.
  intros Hl Hd. destruct (Nat.lt_ge_cases i (length l)) as [H|H].
  - rewrite Forall_forall in Hl. apply Hl. now apply nth_In.
  - now rewrite nth_overflow.
Qed.

Lemma finite_fin (q : Q) : Float.finite (Fin q).
Proof. now exists q. Qed.

Lemma finite_or_nan_nan : Float.finite_or_nan NaN.
Proof. now left. Qed.

Lemma finite_weaken (a : float) : Float.finite a -> Float.finite_or_nan a.
Proof. now right. Qed.

Create HintDb fin.

#[local] Hint Resolve finite_fin finite_or_nan_nan finite_weaken : fin.

Lemma sub_finite_or_nan (a b : float) :
  Float.finite a -> Float.finite_or_nan b ->
  Float.finite_or_nan (Float.sub a b).
Proof.
  intros [x ->] [->|[y ->]]; cbn; auto with fin.
Qed.

Lemma abs_finite_or_nan (a : float) :
  Float.finite_or_nan a -> Float.finite_or_nan (Float.abs a).
Proof. intros [->|[x ->]]; cbn; auto with fin. Qed.

Lemma max_skipna_finite (a b : float) :
  Float.finite a -> Float.finite_or_nan b ->
  Float.finite (Float.max_skipna a b).
Proof.
  intros [x ->] [->|[y ->]]; cbn; auto with fin.
  destruct (Float.Qltb x y); auto with fin.
Qed.

Lemma fsum_finite (w : list float) :
  Forall Float.finite w -> Float.finite (Pandas.fsum w).
Proof.
  induction 1 as [|a w [x ->] _ [s IH]]; cbn; auto with fin.
  unfold Pandas.fsum in IH. rewrite IH. cbn. auto with fin.
Qed.

Lemma mean_finite_or_nan (w : list float) :
  Forall Float.finite w -> Float.finite_or_nan (Pandas.mean w).
Proof.
  intros H. destruct (fsum_finite H) as [s Hs].
  unfold Pandas.mean, Float.of_Z. rewrite Hs.
  destruct w as [|a w].
  - cbn in Hs. inversion Hs; subst. now left.
  - cbn [Float.div].
    destruct (Qeq_bool (inject_Z (Z.of_nat (length (a :: w)))) 0) eqn:E;
      [|auto with fin].
    apply Qeq_bool_iff in E. unfold Qeq in E. cbn in E. discriminate.
Qed.

Lemma rolling_mean_finite_or_nan (n : nat) (xs : list float) (i : nat) :
  Forall Float.finite xs ->
  Float.finite_or_nan (nth i (Pandas.rolling_mean n xs) NaN).
Proof.
  intros H. destruct (Nat.lt_ge_cases i (length xs)) as [Hl|Hl].
  - rewrite rolling_mean_nth by exact Hl.
    destruct (S i <? n)%nat; [now left|].
    apply mean_finite_or_nan.
    now apply Forall_firstn_keep, Forall_skipn_keep.
  - rewrite nth_overflow; [now left|]. now rewrite length_rolling_mean.
Qed.

Section FiniteColumns.

Variable p : params.
Variable price : list bar.

Lemma closes_finite : Forall Float.finite (closes price).
Proof. unfold closes. apply Forall_map, Forall_forall. auto with fin. Qed.

Lemma highs_finite : Forall Float.finite (highs price).
Proof. unfold highs. apply Forall_map, Forall_forall. auto with fin. Qed.

Lemma lows_finite : Forall Float.finite (lows price).
Proof. unfold lows. apply Forall_map, Forall_forall. auto with fin. Qed.

Lemma shift_finite_or_nan (xs : list float) :
  Forall Float.finite xs -> Forall Float.finite_or_nan (Pandas.shift xs).
Proof.
  intros H. unfold Pandas.shift. apply Forall_firstn_keep.
  constructor; [now left|].
  eapply Forall_impl; [|exact H]. auto with fin.
Qed.

Lemma hl_finite : Forall Float.finite (hl price).
Proof.
  unfold hl.
  apply (@Forall_zip_with _ _ _ Float.sub Float.finite Float.finite);
    [|apply highs_finite | apply lows_finite].
  intros a b [x ->] [y ->]. cbn. auto with fin.
Qed.

Lemma hc_finite_or_nan : Forall Float.finite_or_nan (hc price).
Proof.
  unfold hc. apply Forall_map.
  apply (@Forall_zip_with _ _ _ Float.sub Float.finite Float.finite_or_nan);
    [|apply highs_finite | apply shift_finite_or_nan, closes_finite].
  intros a b Ha Hb. now apply abs_finite_or_nan, sub_finite_or_nan.
Qed.

Lemma lc_finite_or_nan : Forall Float.finite_or_nan (lc price).
Proof.
  unfold lc. apply Forall_map.
  apply (@Forall_zip_with _ _ _ Float.sub Float.finite Float.finite_or_nan);
    [|apply lows_finite | apply shift_finite_or_nan, closes_finite].
  intros a b Ha Hb. now apply abs_finite_or_nan, sub_finite_or_nan.
Qed.

(** Every true range is a finite number, the first one included. *)
Lemma tr_finite : Forall Float.finite (tr price).
Proof.
  unfold tr.
  apply (@Forall_zip_with _ _ _ Float.max_skipna
           Float.finite Float.finite_or_nan);
    [apply max_skipna_finite | | apply lc_finite_or_nan].
  apply (@Forall_zip_with _ _ _ Float.max_skipna
           Float.finite Float.finite_or_nan);
    [apply max_skipna_finite | apply hl_finite | apply hc_finite_or_nan].
Qed.

Lemma atr_finite_or_nan (i : nat) :
  Float.finite_or_nan (nth i (atr p price) NaN).
Proof. unfold atr. apply rolling_mean_finite_or_nan, tr_finite. Qed.

Lemma row_at_atr_consistent (cells : list (option bool)) (i : nat) (b : bar) :
  atr_consistent (row_at p price cells i b).
Proof.
  unfold atr_consistent. cbn. intros H. split; [|auto with fin].
  destruct (atr_finite_or_nan i) as [E|E]; [|exact E].
  rewrite (atr_pct_of_atr p price i E) in H. discriminate.
Qed.

Lemma blank_row_atr_consistent (dv : Z * bool) :
  atr_consistent (blank_row dv).
Proof. unfold atr_consistent. cbn. discriminate. Qed.

Lemma indicators_atr_consistent (qqq : list bar) (rows : list row) :
  indicators p price qqq = inr rows -> Forall atr_consistent rows.
Proof.
  intros H. apply Forall_forall. intros r Hr.
  apply In_nth_error in Hr. destruct Hr as [i Hr].
  destruct (indicators_nth _ _ _ _ H Hr)
    as [(cells & b & _ & _ & ->)|(_ & dv & _ & ->)].
  - apply row_at_atr_consistent.
  - apply blank_row_atr_consistent.
Qed.

End FiniteColumns.

(* ===================================================================== *)
(** ** The trailing stop *)
(* ===================================================================== *)

Lemma ltb_not_nan_l (a b : float) :
  Float.ltb a b = true -> Float.is_nan a = false.
Proof. destruct a; cbn; congruence. Qed.

Lemma ltb_not_nan_r (a b : float) :
  Float.ltb a b = true -> Float.is_nan b = false.
Proof. destruct a, b; cbn; congruence. Qed.

Lemma ltb_leb (a b : float) : Float.ltb a b = true -> Float.leb a b = true.
Proof.
  destruct a as [| | |x], b as [| | |y]; cbn; try congruence.
  intros H. apply Qltb_true in H. apply Qle_bool_iff. lra.
Qed.

Lemma leb_refl (a : float) : Float.is_nan a = false -> Float.leb a a = true.
Proof.
  destruct a as [| | |x]; cbn; try congruence.
  intros _. apply Qle_bool_iff. lra.
Qed.

(** Python's [max] never returns less than its first argument, and never
    turns a number into NaN. *)
Lemma pymax_ge (a b : float) :
  Float.is_nan a = false -> Float.geb (Float.pymax a b) a = true.
Proof.
  intros H. unfold Float.geb, Float.pymax, Float.gtb.
  destruct (Float.ltb a b) eqn:E; [now apply ltb_leb | now apply leb_refl].
Qed.

Lemma pymax_not_nan (a b : float) :
  Float.is_nan a = false -> Float.is_nan (Float.pymax a b) = false.
Proof.
  intros H. unfold Float.pymax, Float.gtb.
  destruct (Float.ltb a b) eqn:E; [now apply ltb_not_nan_r in E | exact H].
Qed.

Section TrailInvariant.

Variable p : params.

Lemma trail_defined_init : trail_defined init_state.
Proof. intros H. discriminate. Qed.

Lemma step_trail (st : pos_state) (r : row) :
  in_pos st = true ->
  trail (fst (step p st r)) = update_trail p st r.
Proof.
  intros H. unfold step. rewrite H. cbn [negb].
  destruct (Float.leb _ _); [reflexivity|].
  destruct (Float.geb _ _); [reflexivity|].
  destruct (reversal_cond p r); reflexivity.
Qed.

Lemma step_trail_defined (st : pos_state) (r : row) :
  atr_consistent r -> trail_defined st ->
  trail_defined (fst (step p st r)).
Proof.
  intros Hr Hst. destruct (in_pos st) eqn:Hin.
  - intros _. rewrite step_trail by exact Hin. apply pymax_not_nan. now apply Hst.
  - unfold step. rewrite Hin. cbn [negb].
    destruct (entry_cond p r) eqn:E; cbn [fst]; [|exact Hst].
    intros _. cbn [trail].
    unfold entry_cond in E. rewrite !andb_true_iff in E.
    destruct E as [_ E]. apply ltb_not_nan_l in E.
    destruct (Hr E) as [[a ->] [c ->]]. reflexivity.
Qed.

Lemma run_state_trail_defined (rows : list row) :
  Forall atr_consistent rows ->
  forall st, trail_defined st -> trail_defined (run_state p st rows).
Proof.
  induction 1 as [|r rows Hr _ IH]; intros st Hst; [exact Hst|].
  unfold run_state. cbn [fold_left]. apply IH.
  now apply step_trail_defined.
Qed.

Lemma state_before_trail_defined (rows : list row) (i : nat) :
  Forall atr_consistent rows -> trail_defined (state_before p rows i).
Proof.
  intros H. unfold state_before.
  apply run_state_trail_defined; [|apply trail_defined_init].
  apply Forall_firstn_keep. destruct rows; [constructor|].
  now inversion H.
Qed.

End TrailInvariant.

(** C2.  In every run, on each bar processed while a position is open the
    trail becomes [max(trail, Close - trail_atr * ATR)], computed before
    any exit test, and the new level is at least the level the previous
    bar left: the trailing stop never moves down during the life of a
    position, whatever the price does. *)
Theorem trail_never_decreases
  (p : params) (price qqq : list bar) (rows : list row) (i : nat) (r : row) :
  indicators p price qqq = inr rows ->
  nth_error rows i = Some r ->
  in_pos (state_before p rows i) = true ->
  trail (state_after p rows i)
  = Float.pymax (trail (state_before p rows i))
      (Float.sub (r_close r) (Float.mul (Fin (trail_atr p)) (ATR r))) /\
  Float.geb (trail (state_after p rows i))
            (trail (state_before p rows i)) = true.
Proof.
  intros Hrows Hr Hin.
  pose proof (in_pos_after_first p rows i Hin) as Hi.
  rewrite (state_after_step p rows Hi Hr).
  rewrite step_trail by exact Hin. split; [reflexivity|].
  apply pymax_ge.
  apply state_before_trail_defined; [|exact Hin].
  now apply (indicators_atr_consistent p price qqq).
Qed.

Lemma trail_never_decreases_witness :
  Float.geb
    (trail (state_after Demo.demo_params Demo.demo_rows 59))
    (trail (state_before Demo.demo_params Demo.demo_rows 59))
  = true.
Proof.
  destruct (nth_error Demo.demo_rows 59) as [r|] eqn:E;
    [|vm_compute in E; discriminate].
  apply (@trail_never_decreases Demo.demo_params Demo.demo_price
           Demo.demo_qqq Demo.demo_rows 59 r).
  - vm_compute. reflexivity.
  - exact E.
  - vm_compute. reflexivity.
Defined.

(* ===================================================================== *)
(** ** The trend gate on days missing from the benchmark *)
(* ===================================================================== *)

Lemma reindex_missing (s : list (Z * bool)) (d : Z) :
  ~ In d (map fst s) -> Pandas.reindex s d = None.
Proof.
  induction s as [|[d' v] s IH]; intros H; [reflexivity|].
  cbn. destruct (Z.eqb d d') eqn:E.
  - apply Z.eqb_eq in E. subst. exfalso. apply H. now left.
  - apply IH. intros Hin. apply H. now right.
Qed.

Lemma trend_dates (qqq : list bar) (d : Z) :
  In d (map fst (trend qqq)) -> In d (map Date qqq).
Proof.
  unfold trend. intros H. apply in_map_iff in H.
  destruct H as ([d' v] & <- & H). now apply in_combine_l in H.
Qed.

Lemma trend_ok_nth (price qqq : list bar) (i : nat) (b : bar) :
  nth_error price i = Some b ->
  nth i (trend_ok price qqq) None = Pandas.reindex (trend qqq) (Date b).
Proof.
  intros H. unfold trend_ok.
  assert (Hi : (i < length price)%nat) by (apply nth_error_Some; congruence).
  rewrite (nth_indep _ None (Pandas.reindex (trend qqq) (Date b)))
    by now rewrite length_map.
  rewrite (map_nth (fun b0 => Pandas.reindex (trend qqq) (Date b0)) price b).
  f_equal. f_equal. apply nth_error_nth with (d := b) in H. exact H.
Qed.

Lemma entry_cond_trend_false (p : params) (r : row) :
  Trend_OK r = Some false -> entry_cond p r = false.
Proof.
  intros H. unfold entry_cond. rewrite H. cbn.
  now rewrite andb_false_r.
Qed.

Lemma index_equals_eq (a b : list Z) :
  Pandas.index_equals a b = true <-> a = b.
Proof.
  revert b. induction a as [|x a IH]; intros [|y b]; cbn;
    try (split; [discriminate | discriminate]); [tauto|].
  rewrite andb_true_iff, Z.eqb_eq, IH. split.
  - intros [-> ->]. reflexivity.
  - intros H. inversion H. auto.
Qed.

Lemma is_unique_NoDup (l : list Z) :
  Pandas.is_unique l = true <-> NoDup l.
Proof.
  induction l as [|x l IH]; cbn.
  - split; [constructor | reflexivity].
  - rewrite andb_true_iff, negb_true_iff, IH. split.
    + intros [Hx Hl]. constructor; [|exact Hl].
      intros Hin. assert (E : existsb (Z.eqb x) l = true).
      { apply existsb_exists. exists x. split; [exact Hin|].
        apply Z.eqb_refl. }
      congruence.
    + intros H. inversion H as [|? ? Hx Hl]; subst. split; [|exact Hl].
      destruct (existsb (Z.eqb x) l) eqn:E; [|reflexivity].
      apply existsb_exists in E. destruct E as (y & Hy & Exy).
      apply Z.eqb_eq in Exy. subst. contradiction.
Qed.

(** The two ways line 146 fills the column: by position when the indexes
    are equal, by date otherwise, and then the benchmark dates are
    distinct. *)
Lemma assign_trend_cases (price qqq : list bar) (cells : list (option bool)) :
  assign_trend price qqq = inr cells ->
  (map Date qqq = map Date price /\
   cells = map (fun dv => Some (snd dv)) (trend qqq)) \/
  (map Date qqq <> map Date price /\ NoDup (map Date qqq) /\
   cells = trend_ok price qqq).
Proof.
  unfold assign_trend.
  destruct (Pandas.index_equals (map Date qqq) (map Date price)) eqn:E.
  - intros H. left. apply index_equals_eq in E. split; congruence.
  - destruct (Pandas.is_unique (map Date qqq)) eqn:U; [|discriminate].
    intros H. right. split.
    + intros Heq. apply index_equals_eq in Heq. congruence.
    + apply is_unique_NoDup in U. split; congruence.
Qed.

Lemma assign_trend_missing (price qqq : list bar)
  (cells : list (option bool)) (i : nat) (b : bar) :
  assign_trend price qqq = inr cells ->
  nth_error price i = Some b ->
  ~ In (Date b) (map Date qqq) ->
  nth i cells None = None.
Proof.
  intros Hc Hb Habs.
  destruct (assign_trend_cases _ _ Hc) as [[E _]|(_ & _ & ->)].
  - exfalso. apply Habs. rewrite E. apply in_map.
    now apply nth_error_In with i.
  - rewrite (trend_ok_nth _ _ _ Hb). apply reindex_missing.
    intros H. apply Habs. now apply trend_dates.
Qed.

(** C10.  A bar of the traded instrument whose date is absent from the
    benchmark gets an undefined trend cell, not a false one.  In the entry
    condition that cell counts as true: when the machine is flat and the
    other three conditions hold on such a bar, BUY is written.  A bar
    whose trend cell is false is never a BUY. *)
Theorem missing_benchmark_day_is_permissive
  (p : params) (price qqq : list bar) (rows : list row) (i : nat) (r : row) :
  indicators p price qqq = inr rows ->
  nth_error rows i = Some r ->
  ~ In (r_date r) (map Date qqq) ->
  Trend_OK r = None /\
  ((1 <= i)%nat ->
   in_pos (state_before p rows i) = false ->
   Float.gtb (SMA_S r) (SMA_L r) = true ->
   Float.ltb (RSI r) (Float.of_Z (rsi_buy p)) = true ->
   Float.ltb (ATR_pct r) (Float.of_Z (volatility_filter p)) = true ->
   exists o, nth_error (signal_engine p rows) i = Some o /\ Signal o = BUY) /\
  (forall j r',
      nth_error rows j = Some r' ->
      Trend_OK r' = Some false ->
      exists o, nth_error (signal_engine p rows) j = Some o /\
                Signal o <> BUY).
Proof.
  intros Hrows Hr Habs.
  assert (Ht : Trend_OK r = None).
  { destruct (indicators_nth _ _ _ _ Hrows Hr)
      as [(cells & b & Hc & Hb & ->)|(_ & dv & Hdv & ->)].
    - cbn in *. now apply (assign_trend_missing _ _ _ Hc Hb).
    - exfalso. apply Habs. cbn. apply trend_dates. apply in_map.
      now apply nth_error_In with i. }
  split; [exact Ht|]. split.
  - intros Hi Hin H1 H2 H3.
    exists (snd (step p (state_before p rows i) r)).
    split; [now apply engine_nth|].
    unfold step. rewrite Hin. cbn [negb].
    unfold entry_cond. rewrite H1, H2, H3, Ht. reflexivity.
  - intros j r' Hr' Hf. apply (engine_no_buy p rows j Hr').
    now apply entry_cond_trend_false.
Qed.

Lemma missing_benchmark_day_is_permissive_witness :
  exists r o,
    nth_error Demo.demo_rows 57 = Some r /\
    Trend_OK r = None /\
    nth_error (signal_engine Demo.demo_params Demo.demo_rows) 57 = Some o /\
    Signal o = BUY.
Proof.
  destruct (nth_error Demo.demo_rows 57) as [r|] eqn:E;
    [|vm_compute in E; discriminate].
  destruct (@missing_benchmark_day_is_permissive Demo.demo_params
              Demo.demo_price Demo.demo_qqq Demo.demo_rows 57 r)
    as (Ht & Hb & _).
  - vm_compute. reflexivity.
  - exact E.
  - vm_compute in E. injection E as <-. vm_compute.
    intuition discriminate.
  - destruct Hb as (o & Ho & Hs).
    + lia.
    + vm_compute. reflexivity.
    + vm_compute in E. injection E as <-. vm_compute. reflexivity.
    + vm_compute in E. injection E as <-. vm_compute. reflexivity.
    + vm_compute in E. injection E as <-. vm_compute. reflexivity.
    + exists r, o. auto.
Defined.

(* ===================================================================== *)
(** ** The ATR percentile *)
(* ===================================================================== *)

Lemma eqb_refl (a : float) : Float.is_nan a = false -> Float.eqb a a = true.
Proof.
  destruct a as [| | |x]; cbn; try congruence.
  intros _. apply Qeq_bool_iff. reflexivity.
Qed.

Lemma eqb_not_nan_l (a b : float) :
  Float.eqb a b = true -> Float.is_nan a = false.
Proof. destruct a, b; cbn; congruence. Qed.

Lemma ltb_eqb_exclusive (a b : float) :
  Float.ltb a b = true -> Float.eqb a b = false.
Proof.
  destruct a as [| | |x], b as [| | |y]; cbn; try congruence.
  intros H. apply Qltb_true in H.
  destruct (Qeq_bool x y) eqn:E; [|reflexivity].
  apply Qeq_bool_iff in E. lra.
Qed.

Section RankCounts.

Variable x : float.

Lemma below_tied_defined (xs : list float) :
  (below x xs + tied x xs <= defined xs)%nat.
Proof.
  unfold below, tied, defined.
  induction xs as [|y xs IH]; cbn [filter length]; [lia|].
  destruct (Float.ltb y x) eqn:El.
  - rewrite (ltb_eqb_exclusive _ _ El), (ltb_not_nan_l _ _ El).
    cbn [negb length]. lia.
  - destruct (Float.eqb y x) eqn:Ee.
    + rewrite (eqb_not_nan_l _ _ Ee). cbn [negb length]. lia.
    + destruct (negb (Float.is_nan y)); cbn [length]; lia.
Qed.

Lemma tied_positive (xs : list float) :
  Float.is_nan x = false -> In x xs -> (1 <= tied x xs)%nat.
Proof.
  intros Hx. unfold tied.
  induction xs as [|y xs IH]; intros Hin; [contradiction|].
  cbn [filter]. destruct Hin as [->|Hin].
  - rewrite (eqb_refl _ Hx). cbn [length]. lia.
  - specialize (IH Hin). destruct (Float.eqb y x); cbn [length]; lia.
Qed.

End RankCounts.

Lemma atr_pct_nth (p : params) (price : list bar) (i : nat) :
  let xs := atr p price in
  let x := nth i xs NaN in
  nth i (atr_pct p price) NaN
  = Float.mul
      (if Float.is_nan x then NaN
       else Fin ((Pandas.count (fun y => Float.ltb y x) xs
                  + (Pandas.count (fun y => Float.eqb y x) xs + 1) / 2)
                 / Pandas.count (fun y => negb (Float.is_nan y)) xs))
      (Fin 100).
Proof.
  intros xs x. unfold atr_pct.
  change NaN with ((fun x => Float.mul x (Fin 100)) NaN) at 1.
  rewrite map_nth. f_equal. unfold Pandas.rank_pct. fold xs.
  set (g := fun x : float => if Float.is_nan x then NaN else _).
  change NaN with (g NaN) at 1.
  rewrite map_nth. reflexivity.
Qed.

Lemma length_atr (p : params) (price : list bar) :
  length (atr p price) = length price.
Proof.
  unfold atr, tr, hl, hc, lc, highs, lows, closes.
  rewrite length_rolling_mean.
  rewrite !length_zip_with, !length_map, !length_zip_with, !length_map,
    length_shift, !length_map.
  lia.
Qed.

Lemma inject_nat_le (a b : nat) :
  (a <= b)%nat -> inject_Z (Z.of_nat a) <= inject_Z (Z.of_nat b).
Proof. intros H. rewrite <- Zle_Qle. lia. Qed.

Lemma rank_bounds (x : float) (xs : list float) :
  Float.is_nan x = false -> In x xs ->
  let q := (Pandas.count (fun y => Float.ltb y x) xs
            + (Pandas.count (fun y => Float.eqb y x) xs + 1) / 2)
           / Pandas.count (fun y => negb (Float.is_nan y)) xs in
  0 < q /\ q <= 1.
Proof.
  intros Hx Hin. unfold Pandas.count.
  fold (below x xs) (tied x xs) (defined xs).
  pose proof (below_tied_defined x xs) as Hsum.
  assert (Hpos : (1 <= tied x xs)%nat) by now apply tied_positive.
  pose proof (inject_nat_le Hsum) as H1.
  pose proof (inject_nat_le Hpos) as H2.
  pose proof (inject_nat_le (Nat.le_0_l (below x xs))) as H3.
  rewrite Nat2Z.inj_add, inject_Z_plus in H1.
  change (inject_Z (Z.of_nat 1)) with 1 in H2.
  change (inject_Z (Z.of_nat 0)) with 0 in H3.
  set (l := inject_Z (Z.of_nat (below x xs))) in *.
  set (s := inject_Z (Z.of_nat (tied x xs))) in *.
  set (n := inject_Z (Z.of_nat (defined xs))) in *.
  clearbody l s n.
  assert (Hn : 0 < n) by lra.
  assert (E : (s + 1) / 2 == (s + 1) * (1 # 2)) by field.
  cbv zeta. rewrite E. split.
  - apply Qlt_shift_div_l; [exact Hn | lra].
  - apply Qle_shift_div_r; [exact Hn | lra].
Qed.

(** C9.  The ATR percentile of a bar is the rank of that bar's ATR among
    the ATR values of the whole series: the number of cells below it plus
    the mean position among its ties, over the number of defined cells,
    times 100, a value in (0, 100] whenever defined.  Later bars take
    part in it: there is a series on which appending one bar leaves the
    ATR of an earlier bar as it was and changes its percentile. *)
Theorem atr_pct_full_sample :
  (forall (p : params) (price : list bar) (i : nat),
      (i < length price)%nat ->
      let xs := atr p price in
      let x := nth i xs NaN in
      nth i (atr_pct p price) NaN
      = Float.mul
          (if Float.is_nan x then NaN
           else Fin ((Pandas.count (fun y => Float.ltb y x) xs
                      + (Pandas.count (fun y => Float.eqb y x) xs + 1) / 2)
                     / Pandas.count (fun y => negb (Float.is_nan y)) xs))
          (Fin 100) /\
      (forall v, nth i (atr_pct p price) NaN = Fin v -> 0 < v /\ v <= 100)) /\
  (exists (p : params) (price : list bar) (b : bar) (t : nat),
      (t < length price)%nat /\
      nth t (atr p (price ++ [b])) NaN = nth t (atr p price) NaN /\
      Float.is_nan (nth t (atr_pct p price) NaN) = false /\
      Float.eqb (nth t (atr_pct p (price ++ [b])) NaN)
                (nth t (atr_pct p price) NaN) = false).
Proof.
  split.
  - intros p price i Hi xs x. split; [apply atr_pct_nth|].
    intros v Hv. rewrite atr_pct_nth in Hv. fold xs x in Hv.
    destruct (Float.is_nan x) eqn:Hx; [discriminate|].
    cbn in Hv. injection Hv as <-.
    assert (Hin : In x xs).
    { apply nth_In. unfold xs. now rewrite length_atr. }
    pose proof (rank_bounds x xs Hx Hin) as Hb. cbv zeta in Hb.
    set (q := _ / _) in *. lra.
  - exists Demo.demo_params, (firstn 10 Demo.demo_price),
      (Demo.demo_bar 10), 4%nat.
    vm_compute. repeat split; try reflexivity. lia.
Qed.

Lemma atr_pct_full_sample_witness :
  exists v,
    nth 57 (atr_pct Demo.demo_params Demo.demo_price) NaN = Fin v /\
    0 < v /\ v <= 100.
Proof.
  destruct atr_pct_full_sample as [H _].
  destruct (H Demo.demo_params Demo.demo_price 57%nat) as [_ Hb].
  - vm_compute. lia.
  - destruct (nth 57 (atr_pct Demo.demo_params Demo.demo_price) NaN)
      as [| | |v] eqn:E; try (vm_compute in E; discriminate).
    exists v. split; [reflexivity | now apply Hb].
Defined.

(* ===================================================================== *)
(** ** The script from end to end *)
(* ===================================================================== *)

Lemma run_script_unfold (p : params) (price qqq : list bar) :
  run_script p price qqq
  = match indicators p price qqq with
    | inl e => ([PhIndicators], inl e)
    | inr rows =>
        ([PhIndicators; PhSignalEngine; PhPositionSizing],
         match iloc_last rows with
         | inl e => inl e
         | inr latest =>
             match shares p (ATR latest) with
             | inl e => inl e
             | inr n =>
                 inr {| rep_rows := rows;
                        rep_out := signal_engine p rows;
                        rep_latest := latest;
                        rep_risk_dollars := risk_dollars p;
                        rep_shares := n |}
             end
         end)
    end.
Proof.
  unfold run_script, script, bind, enter, ret, lift. cbn.
  destruct (indicators p price qqq) as [e|rows]; [reflexivity|].
  destruct (iloc_last rows) as [e|latest]; [reflexivity|].
  destruct (shares p (ATR latest)); reflexivity.
Qed.

Lemma iloc_last_In (A : Type) (l : list A) (x : A) :
  iloc_last l = inr x -> In x l.
Proof.
  unfold iloc_last. destruct (rev l) as [|y ys] eqn:E; [discriminate|].
  intros H. inversion H; subst. apply in_rev. rewrite E. now left.
Qed.

Lemma iloc_last_nonempty (A : Type) (l : list A) :
  l <> [] -> exists x, iloc_last l = inr x.
Proof.
  intros H. unfold iloc_last. destruct (rev l) as [|y ys] eqn:E.
  - exfalso. apply H. rewrite <- (rev_involutive l), E. reflexivity.
  - now exists y.
Qed.

Lemma shares_no_exception (p : params) (x : float) :
  ~ stop_atr p == 0 -> Float.finite_or_nan x ->
  exists n, shares p x = inr n.
Proof.
  intros Hs [->|[a ->]]; [now exists 0%Z|].
  unfold shares, stop_distance, IEEE.mul, IEEE.div.
  cbn [Float.gtb Float.ltb Float.mul IEEE.rnd].
  destruct (Float.Qltb 0 a) eqn:E; [|now exists 0%Z].
  apply Qltb_true in E. cbn [Float.div].
  destruct (Qeq_bool (IEEE.round64 (stop_atr p * a)) 0) eqn:Ez.
  - apply Qeq_bool_iff in Ez. exfalso. revert Ez. apply round64_nonzero.
    intros Ez. apply Qmult_integral in Ez.
    destruct Ez; [contradiction | lra].
  - cbn [IEEE.rnd int_of_float]. eexists. reflexivity.
Qed.

Lemma indicators_atr_finite_or_nan (p : params) (price qqq : list bar)
  (rows : list row) :
  indicators p price qqq = inr rows ->
  Forall (fun r => Float.finite_or_nan (ATR r)) rows.
Proof.
  intros H. apply Forall_forall. intros r Hr.
  apply In_nth_error in Hr. destruct Hr as [i Hr].
  destruct (indicators_nth _ _ _ _ H Hr)
    as [(cells & b & _ & _ & ->)|(_ & dv & _ & ->)].
  - cbn. apply atr_finite_or_nan.
  - now left.
Qed.
(* ===================================================================== *)
(** ** Causality of the rolling indicators *)
(* ===================================================================== *)

Lemma zip_with_app (A B C : Type) (f : A -> B -> C)
  (xs xs' : list A) (ys ys' : list B) :
  length xs = length ys ->
  Pandas.zip_with f (xs ++ xs') (ys ++ ys')
  = Pandas.zip_with f xs ys ++ Pandas.zip_with f xs' ys'.
Proof.
  intros H. unfold Pandas.zip_with.
  rewrite <- map_app. f_equal.
  revert ys H. induction xs as [|x xs IH]; intros [|y ys] H; cbn in *;
    try discriminate; [reflexivity|].
  f_equal. apply IH. now inversion H.
Qed.

Lemma shift_app (xs ys : list float) :
  exists rest, Pandas.shift (xs ++ ys) = Pandas.shift xs ++ rest.
Proof.
  unfold Pandas.shift. destruct xs as [|x xs].
  - cbn [app length firstn]. now eexists.
  - cbn [app length firstn].
    exists (firstn (length ys) (skipn (length xs) ((x :: xs) ++ ys))).
    cbn [app]. f_equal.
    rewrite length_app.
    rewrite <- (firstn_skipn (length xs) (firstn (length xs + length ys)
                                            (x :: xs ++ ys))).
    f_equal.
    + rewrite firstn_firstn. replace (Nat.min _ _) with (length xs) by lia.
      change (x :: xs ++ ys) with ((x :: xs) ++ ys).
      rewrite firstn_app. replace (length xs - length (x :: xs))%nat
        with 0%nat by (cbn; lia).
      cbn [firstn]. now rewrite app_nil_r.
    + rewrite skipn_firstn_comm. f_equal. lia.
Qed.

Lemma rolling_mean_app (n : nat) (xs ys : list float) :
  exists rest,
    Pandas.rolling_mean n (xs ++ ys) = Pandas.rolling_mean n xs ++ rest.
Proof.
  unfold Pandas.rolling_mean. rewrite length_app, seq_app, map_app.
  eexists. f_equal.
  apply map_ext_in. intros i Hi. apply in_seq in Hi.
  destruct (S i <? n)%nat eqn:E; [reflexivity|].
  apply Nat.ltb_ge in E. f_equal.
  rewrite skipn_app, firstn_app.
  rewrite length_skipn.
  replace (n - (length xs - (S i - n)))%nat with 0%nat by lia.
  replace (S i - n - length xs)%nat with 0%nat by lia.
  cbn [firstn skipn]. now rewrite app_nil_r.
Qed.

Lemma length_closes (bars : list bar) : length (closes bars) = length bars.
Proof. unfold closes. apply length_map. Qed.

Lemma length_highs (bars : list bar) : length (highs bars) = length bars.
Proof. unfold highs. apply length_map. Qed.

Lemma length_lows (bars : list bar) : length (lows bars) = length bars.
Proof. unfold lows. apply length_map. Qed.

Lemma length_gain (bars : list bar) : length (gain bars) = length bars.
Proof. unfold gain. now rewrite length_map, length_delta. Qed.

Lemma length_loss (bars : list bar) : length (loss bars) = length bars.
Proof. unfold loss. now rewrite !length_map, length_delta. Qed.

Ltac col_length :=
  repeat rewrite ?length_map, ?length_zip_with, ?length_shift,
    ?length_rolling_mean, ?length_gain, ?length_loss, ?length_closes,
    ?length_highs, ?length_lows;
  lia.

Section Causality.

Variable p : params.
Variables price more : list bar.

Lemma closes_app : closes (price ++ more) = closes price ++ closes more.
Proof. unfold closes. apply map_app. Qed.

Lemma highs_app : highs (price ++ more) = highs price ++ highs more.
Proof. unfold highs. apply map_app. Qed.

Lemma lows_app : lows (price ++ more) = lows price ++ lows more.
Proof. unfold lows. apply map_app. Qed.

Lemma delta_app :
  exists rest, delta (price ++ more) = delta price ++ rest.
Proof.
  unfold delta, Pandas.diff. rewrite closes_app.
  destruct (shift_app (closes price) (closes more)) as [rest ->].
  rewrite zip_with_app by now rewrite length_shift.
  now eexists.
Qed.

Lemma gain_app : exists rest, gain (price ++ more) = gain price ++ rest.
Proof.
  unfold gain. destruct delta_app as [rest ->]. rewrite map_app.
  now eexists.
Qed.

Lemma loss_app : exists rest, loss (price ++ more) = loss price ++ rest.
Proof.
  unfold loss. destruct delta_app as [rest ->]. rewrite !map_app.
  now eexists.
Qed.

Lemma rsi_app :
  exists rest, rsi p (price ++ more) = rsi p price ++ rest.
Proof.
  unfold rsi, rs, avg_gain, avg_loss.
  destruct gain_app as [rg ->]. destruct loss_app as [rl ->].
  destruct (rolling_mean_app (rsi_period p) (gain price) rg) as [rg' ->].
  destruct (rolling_mean_app (rsi_period p) (loss price) rl) as [rl' ->].
  rewrite zip_with_app
    by now rewrite !length_rolling_mean, length_gain, length_loss.
  rewrite map_app. now eexists.
Qed.

Lemma sma_s_app :
  exists rest, sma_s p (price ++ more) = sma_s p price ++ rest.
Proof. unfold sma_s. rewrite closes_app. apply rolling_mean_app. Qed.

Lemma sma_l_app :
  exists rest, sma_l p (price ++ more) = sma_l p price ++ rest.
Proof. unfold sma_l. rewrite closes_app. apply rolling_mean_app. Qed.

Lemma tr_app : exists rest, tr (price ++ more) = tr price ++ rest.
Proof.
  unfold tr, hl, hc, lc. rewrite highs_app, lows_app, closes_app.
  destruct (shift_app (closes price) (closes more)) as [rest ->].
  rewrite !zip_with_app by col_length.
  rewrite !map_app.
  rewrite zip_with_app by col_length.
  rewrite zip_with_app by col_length.
  now eexists.
Qed.

Lemma atr_app :
  exists rest, atr p (price ++ more) = atr p price ++ rest.
Proof.
  unfold atr. destruct tr_app as [rest ->]. apply rolling_mean_app.
Qed.

End Causality.

Lemma nth_prefix (xs rest : list float) (i : nat) :
  (i < length xs)%nat -> nth i (xs ++ rest) NaN = nth i xs NaN.
Proof. intros H. now apply app_nth1. Qed.

Lemma reindex_found (s : list (Z * bool)) :
  NoDup (map fst s) ->
  forall j d v, nth_error s j = Some (d, v) -> Pandas.reindex s d = Some v.
Proof.
  induction s as [|[d' v'] s IH]; intros Hnd j d v Hj.
  - destruct j; discriminate.
  - cbn in Hnd. inversion Hnd as [|? ? Hnotin Hnd']; subst.
    cbn. destruct j as [|j]; cbn in Hj.
    + inversion Hj; subst. now rewrite Z.eqb_refl.
    + destruct (Z.eqb d d') eqn:E.
      * apply Z.eqb_eq in E. subst. exfalso. apply Hnotin.
        apply nth_error_In in Hj.
        change d' with (fst (d', v)). now apply in_map.
      * now apply (IH Hnd' j).
Qed.

Lemma map_fst_combine (A B : Type) (l : list A) :
  forall l' : list B, length l = length l' -> map fst (combine l l') = l.
Proof.
  induction l as [|a l IH]; intros [|b l'] H; cbn in *; try discriminate;
    [reflexivity|].
  f_equal. apply IH. now inversion H.
Qed.

Lemma length_trend_values (qqq : list bar) :
  length (Pandas.zip_with Float.gtb (closes qqq) (sma_200 qqq))
  = length qqq.
Proof. unfold sma_200. col_length. Qed.

Lemma trend_nth (qqq : list bar) (j : nat) (bq : bar) :
  nth_error qqq j = Some bq ->
  nth_error (trend qqq) j
  = Some (Date bq,
          Float.gtb (Fin (Close bq)) (nth j (sma_200 qqq) NaN)).
Proof.
  intros Hj.
  assert (Hlt : (j < length qqq)%nat) by (apply nth_error_Some; congruence).
  unfold trend. apply nth_error_combine.
  - rewrite nth_error_map, Hj. reflexivity.
  - unfold Pandas.zip_with. rewrite nth_error_map.
    erewrite nth_error_combine.
    + reflexivity.
    + unfold closes. rewrite nth_error_map, Hj. reflexivity.
    + apply nth_error_nth'. unfold sma_200. col_length.
Qed.

Lemma NoDup_trend (qqq : list bar) :
  NoDup (map Date qqq) -> NoDup (map fst (trend qqq)).
Proof.
  intros H. unfold trend. rewrite map_fst_combine; [exact H|].
  now rewrite length_map, length_trend_values.
Qed.

(** With distinct benchmark dates the cell of a price bar is the value the
    benchmark has on that date, however the column was filled. *)
Lemma assign_trend_nth (price qqq : list bar) (cells : list (option bool))
  (i : nat) (b : bar) :
  assign_trend price qqq = inr cells ->
  NoDup (map Date qqq) ->
  nth_error price i = Some b ->
  nth i cells None = Pandas.reindex (trend qqq) (Date b).
Proof.
  intros Hc Hnd Hb.
  destruct (assign_trend_cases _ _ Hc) as [[E ->]|(_ & _ & ->)];
    [|now apply trend_ok_nth].
  assert (Hq : nth_error (map Date qqq) i = Some (Date b)).
  { rewrite E, nth_error_map, Hb. reflexivity. }
  rewrite nth_error_map in Hq.
  destruct (nth_error qqq i) as [bq|] eqn:Hbq; [|discriminate].
  cbn in Hq. injection Hq as Hd.
  pose proof (trend_nth _ _ Hbq) as Ht.
  rewrite <- Hd.
  rewrite (@reindex_found _ (@NoDup_trend qqq Hnd) _ _ _ Ht).
  apply nth_error_nth.
  rewrite nth_error_map, Ht. reflexivity.
Qed.

Lemma priced_rows_nth_some (p : params) (price : list bar)
  (cells : list (option bool)) (i : nat) (b : bar) :
  nth_error price i = Some b ->
  nth_error (priced_rows p price cells) i = Some (row_at p price cells i b).
Proof.
  intros Hb. unfold priced_rows. rewrite nth_error_map.
  assert (Hi : (i < length price)%nat) by (apply nth_error_Some; congruence).
  now rewrite (@nth_error_combine _ _ _ _ _ _ _ (nth_error_seq0 Hi) Hb).
Qed.

(** X1.  The moving averages, the RSI, the ATR and the trend cell of a
    bar depend on that bar and earlier ones only: when a run over a
    non-empty price series and a run over the same series extended with
    later bars both get past the trend assignment, the bar's cells are the
    same in both frames. *)
Theorem rolling_indicators_are_causal
  (p : params) (price more qqq : list bar) (rows rows' : list row)
  (i : nat) (r : row) :
  price <> [] ->
  indicators p price qqq = inr rows ->
  indicators p (price ++ more) qqq = inr rows' ->
  nth_error rows i = Some r ->
  exists r',
    nth_error rows' i = Some r' /\
    r_date r' = r_date r /\
    r_high r' = r_high r /\
    r_low r' = r_low r /\
    r_close r' = r_close r /\
    SMA_S r' = SMA_S r /\
    SMA_L r' = SMA_L r /\
    RSI r' = RSI r /\
    ATR r' = ATR r /\
    Trend_OK r' = Trend_OK r.
Proof.
  intros Hne Hrows Hrows' Hr.
  destruct (indicators_cases _ _ _ Hrows)
    as [(_ & cells & Hc & ->)|[Hp _]]; [|contradiction].
  destruct (indicators_cases _ _ _ Hrows')
    as [(_ & cells' & Hc' & ->)|[Hp _]];
    [|apply app_eq_nil in Hp; destruct Hp; contradiction].
  destruct (priced_rows_nth _ _ _ _ Hr) as (b & Hb & ->).
  assert (Hi : (i < length price)%nat) by (apply nth_error_Some; congruence).
  assert (Hb' : nth_error (price ++ more) i = Some b).
  { rewrite nth_error_app1 by exact Hi. exact Hb. }
  exists (row_at p (price ++ more) cells' i b). split.
  { now apply priced_rows_nth_some. }
  cbn.
  destruct (sma_s_app p price more) as [r1 ->].
  destruct (sma_l_app p price more) as [r2 ->].
  destruct (rsi_app p price more) as [r3 ->].
  destruct (atr_app p price more) as [r4 ->].
  rewrite !nth_prefix.
  - repeat split.
    destruct (assign_trend_cases _ _ Hc) as [[E Ec]|(_ & Hnd & _)];
      [destruct (assign_trend_cases _ _ Hc') as [[E' Ec']|(_ & Hnd & _)]|].
    + congruence.
    + rewrite (assign_trend_nth _ _ _ Hc Hnd Hb).
      now rewrite (assign_trend_nth _ _ _ Hc' Hnd Hb').
    + rewrite (assign_trend_nth _ _ _ Hc Hnd Hb).
      now rewrite (assign_trend_nth _ _ _ Hc' Hnd Hb').
  - now rewrite length_atr.
  - unfold rsi, rs, avg_gain, avg_loss. col_length.
  - unfold sma_l. col_length.
  - unfold sma_s. col_length.
Qed.

Lemma rolling_indicators_are_causal_witness :
  exists r',
    nth_error Demo.demo_rows 57 = Some r' /\
    Float.eqb (ATR r') (Fin (13 # 5)) = true.
Proof.
  destruct (indicators Demo.demo_params (firstn 60 Demo.demo_price)
              Demo.demo_qqq) as [e|rows] eqn:Erows;
    [vm_compute in Erows; discriminate|].
  destruct (nth_error rows 57) as [r|] eqn:E;
    [|vm_compute in Erows; injection Erows as <-;
      vm_compute in E; discriminate].
  destruct (@rolling_indicators_are_causal Demo.demo_params
              (firstn 60 Demo.demo_price) (skipn 60 Demo.demo_price)
              Demo.demo_qqq rows Demo.demo_rows 57 r)
    as (r' & Hr' & _ & _ & _ & _ & _ & _ & _ & Ha & _).
  - vm_compute. discriminate.
  - exact Erows.
  - vm_compute. reflexivity.
  - exact E.
  - exists r'. split; [exact Hr'|]. rewrite Ha.
    vm_compute in Erows. injection Erows as <-.
    vm_compute in E. injection E as <-. vm_compute. reflexivity.
Defined.

(* ===================================================================== *)
(** ** What a rolling mean preserves *)
(* ===================================================================== *)

Lemma fin_with_nan_or (P : Q -> Prop) (a : float) :
  fin_with P a -> nan_or P a.
Proof. now destruct a. Qed.

Lemma fin_with_finite (P : Q -> Prop) (a : float) :
  fin_with P a -> Float.finite a.
Proof. destruct a; cbn; try contradiction. intros _. now eexists. Qed.

Lemma length_window (n i : nat) (xs : list float) :
  (n <= S i)%nat -> (i < length xs)%nat ->
  length (firstn n (skipn (S i - n) xs)) = n.
Proof. intros H1 H2. rewrite length_firstn, length_skipn. lia. Qed.

Section MeanPreserves.

Variable P : Q -> Prop.
Hypothesis P_zero : P 0.
Hypothesis P_add : forall x y, P x -> P y -> P (x + y).
Hypothesis P_div : forall x n, P x -> P (x / inject_Z (Z.pos n)).

Lemma fsum_nan_or (w : list float) :
  Forall (nan_or P) w -> nan_or P (Pandas.fsum w).
Proof.
  induction 1 as [|a w Ha _ IH]; cbn; [exact P_zero|].
  fold (Pandas.fsum w).
  destruct a as [| | |x]; cbn in Ha |- *; try contradiction; [exact I|].
  destruct (Pandas.fsum w) as [| | |s]; cbn in IH |- *;
    try contradiction; auto.
Qed.

Lemma fsum_fin_with (w : list float) :
  Forall (fin_with P) w -> fin_with P (Pandas.fsum w).
Proof.
  induction 1 as [|a w Ha _ IH]; cbn; [exact P_zero|].
  fold (Pandas.fsum w).
  destruct a as [| | |x]; cbn in Ha |- *; try contradiction.
  destruct (Pandas.fsum w) as [| | |s]; cbn in IH |- *;
    try contradiction; auto.
Qed.

Lemma div_count (s : Q) (k : nat) :
  P s ->
  fin_with P (Float.div (Fin s) (Float.of_Z (Z.of_nat (S k)))).
Proof.
  intros Hs. unfold Float.of_Z. cbn [Float.div].
  destruct (Qeq_bool (inject_Z (Z.of_nat (S k))) 0) eqn:E.
  - apply Qeq_bool_iff in E. unfold Qeq in E. cbn in E. discriminate.
  - cbn. apply P_div. exact Hs.
Qed.

Lemma mean_fin_with (w : list float) :
  Forall (fin_with P) w -> w <> [] -> fin_with P (Pandas.mean w).
Proof.
  intros H Hne. pose proof (fsum_fin_with H) as Hs.
  unfold Pandas.mean. destruct w as [|a w]; [congruence|].
  destruct (Pandas.fsum (a :: w)) as [| | |s]; cbn in Hs; try contradiction.
  cbn [length]. now apply div_count.
Qed.

Lemma mean_nan_or (w : list float) :
  Forall (nan_or P) w -> nan_or P (Pandas.mean w).
Proof.
  intros H. pose proof (fsum_nan_or H) as Hs.
  unfold Pandas.mean. destruct w as [|a w]; [exact I|].
  destruct (Pandas.fsum (a :: w)) as [| | |s]; cbn in Hs; try contradiction;
    [exact I|].
  cbn [length]. now apply fin_with_nan_or, div_count.
Qed.

Lemma rolling_mean_nan_or (n : nat) (xs : list float) (i : nat) :
  Forall (nan_or P) xs ->
  nan_or P (nth i (Pandas.rolling_mean n xs) NaN).
Proof.
  intros H. destruct (Nat.lt_ge_cases i (length xs)) as [Hl|Hl].
  - rewrite rolling_mean_nth by exact Hl.
    destruct (S i <? n)%nat; [exact I|].
    apply mean_nan_or. now apply Forall_firstn_keep, Forall_skipn_keep.
  - rewrite nth_overflow; [exact I|]. now rewrite length_rolling_mean.
Qed.

Lemma rolling_mean_fin_with (n : nat) (xs : list float) (i : nat) :
  Forall (fin_with P) xs ->
  (1 <= n)%nat -> (n <= S i)%nat -> (i < length xs)%nat ->
  fin_with P (nth i (Pandas.rolling_mean n xs) NaN).
Proof.
  intros H Hn Hi Hl. rewrite rolling_mean_nth by exact Hl.
  assert (E : (S i <? n)%nat = false) by (apply Nat.ltb_ge; lia).
  rewrite E. apply mean_fin_with.
  - now apply Forall_firstn_keep, Forall_skipn_keep.
  - intros Hnil. pose proof (length_window xs Hi Hl) as Hlen.
    rewrite Hnil in Hlen. cbn in Hlen. lia.
Qed.

End MeanPreserves.

Lemma inject_pos_positive (n : positive) : 0 < inject_Z (Z.pos n).
Proof. unfold Qlt. cbn. lia. Qed.

Lemma nonneg_div (x : Q) (n : positive) :
  0 <= x -> 0 <= x / inject_Z (Z.pos n).
Proof.
  intros H. apply Qle_shift_div_l; [apply inject_pos_positive | lra].
Qed.

Lemma zero_div (x : Q) (n : positive) :
  x == 0 -> x / inject_Z (Z.pos n) == 0.
Proof. intros H. unfold Qdiv. rewrite H. ring. Qed.

Lemma zero_add (x y : Q) : x == 0 -> y == 0 -> x + y == 0.
Proof. intros Hx Hy. rewrite Hx, Hy. ring. Qed.

Lemma nonneg_add (x y : Q) : 0 <= x -> 0 <= y -> 0 <= x + y.
Proof. intros. lra. Qed.

Lemma closes_any (price : list bar) :
  Forall (fin_with (fun _ => True)) (closes price).
Proof. unfold closes. apply Forall_map, Forall_forall. now intros. Qed.

Lemma tr_any (price : list bar) :
  Forall (fin_with (fun _ => True)) (tr price).
Proof.
  eapply Forall_impl; [|apply tr_finite].
  intros a [q ->]. exact I.
Qed.

Lemma rank_defined (xs : list float) (i : nat) :
  Float.is_nan (nth i xs NaN) = false ->
  Float.finite (nth i (Pandas.rank_pct xs) NaN).
Proof.
  intros H. unfold Pandas.rank_pct.
  set (g := fun x : float => if Float.is_nan x then NaN else _).
  change NaN with (g NaN) at 1. rewrite map_nth.
  unfold g. rewrite H. now eexists.
Qed.

Lemma atr_pct_defined (p : params) (price : list bar) (i : nat) :
  Float.is_nan (nth i (atr p price) NaN) = false ->
  Float.finite (nth i (atr_pct p price) NaN).
Proof.
  intros H. unfold atr_pct.
  change NaN with ((fun x => Float.mul x (Fin 100)) NaN) at 1.
  rewrite map_nth.
  destruct (rank_defined _ _ H) as [q ->]. cbn. now eexists.
Qed.

Lemma finite_not_nan (a : float) : Float.finite a -> a <> NaN.
Proof. intros [q ->]. discriminate. Qed.

(** X2.  The warm-up ends exactly when a window is full: in the frame of
    a non-empty price series, with a window of at least one bar, the short
    and the long moving average are numbers on bar [i] if and only if
    [i + 1] reaches the window, and so are the ATR and its percentile. *)
Theorem indicators_defined_once_window_full
  (p : params) (price qqq : list bar) (rows : list row) (i : nat) (r : row) :
  price <> [] ->
  indicators p price qqq = inr rows ->
  nth_error rows i = Some r ->
  ((1 <= short_ma p)%nat ->
   (Float.finite (SMA_S r) <-> (short_ma p <= S i)%nat)) /\
  ((1 <= long_ma p)%nat ->
   (Float.finite (SMA_L r) <-> (long_ma p <= S i)%nat)) /\
  ((1 <= atr_period p)%nat ->
   (Float.finite (ATR r) <-> (atr_period p <= S i)%nat) /\
   (Float.finite (ATR_pct r) <-> (atr_period p <= S i)%nat)).
Proof.
  intros Hne Hrows Hr.
  destruct (indicators_nth _ _ _ _ Hrows Hr)
    as [(cells & b & _ & Hb & ->)|[Hp _]]; [|contradiction].
  assert (Hi : (i < length price)%nat) by (apply nth_error_Some; congruence).
  assert (Hroll :
            forall n xs, Forall (fin_with (fun _ => True)) xs ->
                         length xs = length price -> (1 <= n)%nat ->
                         (Float.finite (nth i (Pandas.rolling_mean n xs) NaN)
                          <-> (n <= S i)%nat)).
  { intros n xs Hxs Hlen Hn. split.
    - intros Hf. destruct (Nat.le_gt_cases n (S i)) as [H|H]; [exact H|].
      rewrite rolling_mean_warmup in Hf by lia.
      now apply finite_not_nan in Hf.
    - intros H. eapply fin_with_finite.
      apply rolling_mean_fin_with with (P := fun _ => True); auto.
      now rewrite Hlen. }
  cbn. split; [|split].
  - intros Hn. apply Hroll; [apply closes_any | apply length_closes | exact Hn].
  - intros Hn. apply Hroll; [apply closes_any | apply length_closes | exact Hn].
  - intros Hn.
    assert (Ha : Float.finite (nth i (atr p price) NaN)
                 <-> (atr_period p <= S i)%nat).
    { apply Hroll; [apply tr_any | | exact Hn].
      rewrite <- (length_atr p price). unfold atr.
      now rewrite length_rolling_mean. }
    split; [exact Ha|]. split.
    + intros Hf. apply Ha.
      destruct (atr_finite_or_nan p price i) as [E|E]; [|exact E].
      rewrite (atr_pct_of_atr p price i E) in Hf.
      now apply finite_not_nan in Hf.
    + intros H. apply Ha in H. apply atr_pct_defined.
      destruct H as [q ->]. reflexivity.
Qed.

Lemma indicators_defined_once_window_full_witness :
  exists r,
    nth_error Demo.demo_rows 49 = Some r /\
    Float.finite (SMA_L r) /\ Float.finite (ATR_pct r).
Proof.
  destruct (nth_error Demo.demo_rows 49) as [r|] eqn:E;
    [|vm_compute in E; discriminate].
  destruct (@indicators_defined_once_window_full Demo.demo_params
              Demo.demo_price Demo.demo_qqq Demo.demo_rows 49 r)
    as (_ & Hl & Ha).
  - vm_compute. discriminate.
  - vm_compute. reflexivity.
  - exact E.
  - exists r. split; [reflexivity|]. split.
    + apply Hl; vm_compute; lia.
    + apply Ha; vm_compute; lia.
Defined.

(* ===================================================================== *)
(** ** Ranges of the indicators *)
(* ===================================================================== *)

Lemma max_skipna_nonneg (a b : float) :
  fin_with nonneg a -> Float.finite_or_nan b ->
  fin_with nonneg (Float.max_skipna a b).
Proof.
  destruct a as [| | |x]; cbn; try contradiction.
  intros Hx [->|[y ->]]; cbn; [exact Hx|].
  destruct (Float.Qltb x y) eqn:E; cbn; [|exact Hx].
  apply Qltb_true in E. unfold nonneg in *. lra.
Qed.

Lemma hl_nonneg (price : list bar) :
  Forall bar_ok price ->
  Forall (fin_with nonneg) (hl price).
Proof.
  unfold hl, highs, lows, Pandas.zip_with.
  induction 1 as [|b price Hb _ IH]; cbn; constructor; [|exact IH].
  cbn. unfold nonneg, bar_ok in *. lra.
Qed.

Lemma tr_nonneg (price : list bar) :
  Forall bar_ok price ->
  Forall (fin_with nonneg) (tr price).
Proof.
  intros H. unfold tr.
  apply (@Forall_zip_with _ _ _ Float.max_skipna
           (fin_with nonneg) Float.finite_or_nan);
    [apply max_skipna_nonneg | | apply lc_finite_or_nan].
  apply (@Forall_zip_with _ _ _ Float.max_skipna
           (fin_with nonneg) Float.finite_or_nan);
    [apply max_skipna_nonneg | now apply hl_nonneg | apply hc_finite_or_nan].
Qed.

(** X3.  When no bar has its low above its high, every true range is
    non-negative and so is every defined ATR. *)
Theorem atr_is_nonnegative
  (p : params) (price qqq : list bar) (rows : list row) (i : nat) (r : row)
  (a : Q) :
  Forall bar_ok price ->
  indicators p price qqq = inr rows ->
  nth_error rows i = Some r ->
  ATR r = Fin a ->
  0 <= a.
Proof.
  intros Hbars Hrows Hr Ha.
  destruct (indicators_nth _ _ _ _ Hrows Hr)
    as [(cells & b & _ & Hb & ->)|(_ & dv & _ & ->)]; [|discriminate].
  cbn in Ha.
  assert (H : nan_or nonneg (nth i (atr p price) NaN)).
  { unfold atr. apply rolling_mean_nan_or.
    - unfold nonneg. lra.
    - apply nonneg_add.
    - apply nonneg_div.
    - eapply Forall_impl; [apply fin_with_nan_or|]. now apply tr_nonneg. }
  rewrite Ha in H. exact H.
Qed.

Lemma bars_ok_of_check (price : list bar) :
  forallb bar_okb price = true -> Forall bar_ok price.
Proof.
  intros H. apply Forall_forall. intros b Hb.
  rewrite forallb_forall in H. apply Qle_bool_iff. now apply H.
Qed.

Lemma atr_is_nonnegative_witness :
  exists a,
    nth 57 (atr Demo.demo_params Demo.demo_price) NaN = Fin a /\ 0 <= a.
Proof.
  destruct (nth_error Demo.demo_rows 57) as [r|] eqn:E;
    [|vm_compute in E; discriminate].
  destruct (ATR r) as [| | |a] eqn:Ea;
    try (vm_compute in E; injection E as <-; discriminate).
  exists a. split.
  - vm_compute in E. injection E as <-. cbn in Ea. injection Ea as <-.
    vm_compute. reflexivity.
  - apply (@atr_is_nonnegative Demo.demo_params Demo.demo_price Demo.demo_qqq
             Demo.demo_rows 57 r a); [| |exact E | exact Ea].
    + apply bars_ok_of_check. vm_compute. reflexivity.
    + vm_compute. reflexivity.
Defined.

Lemma rsi_nth (p : params) (price : list bar) (i : nat) :
  nth i (rsi p price) NaN
  = rsi_of (nth i (avg_gain p price) NaN) (nth i (avg_loss p price) NaN).
Proof.
  unfold rsi, rsi_of.
  change NaN with
    ((fun x => Float.sub (Fin 100) (Float.div (Fin 100) (Float.add (Fin 1) x)))
       NaN) at 1.
  rewrite map_nth. unfold rs.
  change NaN with (Float.div NaN NaN) at 1.
  rewrite nth_zip_with; [reflexivity|].
  unfold avg_gain, avg_loss. col_length.
Qed.

Lemma delta_finite_or_nan (price : list bar) :
  Forall Float.finite_or_nan (delta price).
Proof.
  unfold delta, Pandas.diff.
  apply (@Forall_zip_with _ _ _ Float.sub Float.finite Float.finite_or_nan);
    [apply sub_finite_or_nan | apply closes_finite |].
  apply shift_finite_or_nan, closes_finite.
Qed.

Lemma gain_nonneg (price : list bar) :
  Forall (nan_or nonneg) (gain price).
Proof.
  unfold gain. apply Forall_map.
  eapply Forall_impl; [|apply delta_finite_or_nan].
  intros a [->|[x ->]]; [exact I|].
  unfold Float.clip_lower. cbn.
  destruct (Float.Qltb x 0) eqn:E; cbn; unfold nonneg; [lra|].
  now apply Qltb_false in E.
Qed.

Lemma loss_nonneg (price : list bar) :
  Forall (nan_or nonneg) (loss price).
Proof.
  unfold loss. apply Forall_map, Forall_map.
  eapply Forall_impl; [|apply delta_finite_or_nan].
  intros a [->|[x ->]]; [exact I|].
  unfold Float.clip_upper, Float.gtb. cbn.
  destruct (Float.Qltb 0 x) eqn:E; cbn; unfold nonneg; [lra|].
  apply Qltb_false in E. lra.
Qed.

Lemma avg_gain_nonneg (p : params) (price : list bar) (i : nat) :
  nan_or nonneg (nth i (avg_gain p price) NaN).
Proof.
  unfold avg_gain. apply rolling_mean_nan_or;
    [unfold nonneg; lra | apply nonneg_add | apply nonneg_div
    | apply gain_nonneg].
Qed.

Lemma avg_loss_nonneg (p : params) (price : list bar) (i : nat) :
  nan_or nonneg (nth i (avg_loss p price) NaN).
Proof.
  unfold avg_loss. apply rolling_mean_nan_or;
    [unfold nonneg; lra | apply nonneg_add | apply nonneg_div
    | apply loss_nonneg].
Qed.

(** The cell computed from a gain [x] and a positive loss [y]. *)
Lemma rsi_of_positive_loss (x y : Q) :
  0 <= x -> 0 < y ->
  exists v, rsi_of (Fin x) (Fin y) = Fin v /\ 0 <= v /\ v < 100.
Proof.
  intros Hx Hy. unfold rsi_of. cbn [Float.div].
  destruct (Qeq_bool y 0) eqn:Ey; [apply Qeq_bool_iff in Ey; lra|].
  assert (Hq : 0 <= x / y) by (apply Qle_shift_div_l; lra).
  cbn [Float.add Float.div].
  destruct (Qeq_bool (1 + x / y) 0) eqn:E1; [apply Qeq_bool_iff in E1; lra|].
  cbn. eexists. split; [reflexivity|].
  assert (H1 : 0 < 100 / (1 + x / y)) by (apply Qlt_shift_div_l; lra).
  assert (H2 : 100 / (1 + x / y) <= 100) by (apply Qle_shift_div_r; lra).
  lra.
Qed.

Lemma rsi_of_zero_loss (x y : Q) :
  y == 0 ->
  (0 < x -> Float.eqb (rsi_of (Fin x) (Fin y)) (Fin 100) = true) /\
  (x == 0 -> rsi_of (Fin x) (Fin y) = NaN).
Proof.
  intros Hy. unfold rsi_of. cbn [Float.div].
  apply Qeq_bool_iff in Hy. rewrite Hy. unfold Float.sgn. split.
  - intros Hx. assert (E : (x ?= 0) = Gt) by now apply Qgt_alt.
    rewrite E. reflexivity.
  - intros Hx. assert (E : (x ?= 0) = Eq) by now apply Qeq_alt.
    rewrite E. reflexivity.
Qed.

Lemma rsi_of_range (g l : float) :
  nan_or nonneg g -> nan_or nonneg l -> nan_or percent (rsi_of g l).
Proof.
  destruct g as [| | |x]; intros Hx; cbn in Hx; try contradiction;
    [intros _; exact I|].
  destruct l as [| | |y]; intros Hy; cbn in Hy; try contradiction;
    [exact I|].
  unfold nonneg in Hx, Hy.
  destruct (Qlt_le_dec 0 y) as [Hpos|Hz].
  - destruct (rsi_of_positive_loss Hx Hpos) as (v & -> & H0 & H1).
    cbn. unfold percent. lra.
  - assert (Hy0 : y == 0) by lra.
    destruct (rsi_of_zero_loss x Hy0) as [Hg Hn].
    destruct (Qlt_le_dec 0 x) as [Hxp|Hxz].
    + specialize (Hg Hxp).
      destruct (rsi_of (Fin x) (Fin y)) as [| | |v]; cbn in Hg;
        try discriminate.
      apply Qeq_bool_iff in Hg. cbn. unfold percent. lra.
    + rewrite Hn by lra. exact I.
Qed.

(** X4.  On every bar the RSI is either undefined or a number between 0
    and 100; it is never infinite, although the relative strength it is
    computed from can be. *)
Theorem rsi_in_percent_range
  (p : params) (price qqq : list bar) (rows : list row) (i : nat) (r : row) :
  indicators p price qqq = inr rows ->
  nth_error rows i = Some r ->
  RSI r = NaN \/ exists v, RSI r = Fin v /\ 0 <= v /\ v <= 100.
Proof.
  intros Hrows Hr.
  destruct (indicators_nth _ _ _ _ Hrows Hr)
    as [(cells & b & _ & Hb & ->)|(_ & dv & _ & ->)]; [|now left].
  cbn. rewrite rsi_nth.
  pose proof (@rsi_of_range _ _ (avg_gain_nonneg p price i)
                            (avg_loss_nonneg p price i)) as H.
  destruct (rsi_of _ _) as [| | |v]; cbn in H; try contradiction.
  - now left.
  - right. exists v. split; [reflexivity | exact H].
Qed.

Lemma rsi_in_percent_range_witness :
  exists v,
    nth 57 (rsi Demo.demo_params Demo.demo_price) NaN = Fin v /\
    0 <= v /\ v <= 100.
Proof.
  destruct (nth_error Demo.demo_rows 57) as [r|] eqn:E;
    [|vm_compute in E; discriminate].
  destruct (@rsi_in_percent_range Demo.demo_params Demo.demo_price
              Demo.demo_qqq Demo.demo_rows 57 r) as [H|(v & Hv & Hb)].
  - vm_compute. reflexivity.
  - exact E.
  - vm_compute in E. injection E as <-. discriminate.
  - exists v. split; [|exact Hb].
    vm_compute in E. injection E as <-. cbn in Hv. rewrite <- Hv.
    vm_compute. reflexivity.
Defined.

Lemma entry_cond_rsi_high (p : params) (r : row) :
  Float.ltb (RSI r) (Float.of_Z (rsi_buy p)) = false ->
  entry_cond p r = false.
Proof.
  intros H. unfold entry_cond. rewrite H.
  now rewrite andb_false_r.
Qed.

Lemma ltb_hundred (a : float) (z : Z) :
  Float.eqb a (Fin 100) = true -> (z <= 100)%Z ->
  Float.ltb a (Float.of_Z z) = false.
Proof.
  destruct a as [| | |v]; cbn; try discriminate.
  intros Hv Hz. apply Qeq_bool_iff in Hv. apply Qltb_false.
  rewrite Hv. change 100 with (inject_Z 100). now rewrite <- Zle_Qle.
Qed.

(** X5.  The code's division-by-zero outcome for the RSI: on a bar whose
    average loss is zero the RSI is 100 when the average gain is
    positive and undefined when it is zero too.  With a buy threshold of
    at most 100 such a bar is never a BUY. *)
Theorem no_loss_window_never_buys
  (p : params) (price qqq : list bar) (rows : list row) (i : nat) (r : row)
  (l : Q) :
  indicators p price qqq = inr rows ->
  nth_error rows i = Some r ->
  nth i (avg_loss p price) NaN = Fin l ->
  l == 0 ->
  (forall g, nth i (avg_gain p price) NaN = Fin g ->
             (0 < g -> Float.eqb (RSI r) (Fin 100) = true) /\
             (g == 0 -> RSI r = NaN)) /\
  (RSI r = NaN \/ Float.eqb (RSI r) (Fin 100) = true) /\
  ((rsi_buy p <= 100)%Z ->
   exists o,
     nth_error (signal_engine p rows) i = Some o /\
     Signal o <> BUY).
Proof.
  intros Hrows Hr Hl Hz.
  destruct (indicators_nth _ _ _ _ Hrows Hr)
    as [(cells & b & _ & Hb & E)|(Hp & _)];
    [|subst price; destruct i; discriminate].
  assert (Hrsi : RSI r = rsi_of (nth i (avg_gain p price) NaN) (Fin l)).
  { rewrite E. cbn. now rewrite rsi_nth, Hl. }
  assert (Hcases : RSI r = NaN \/ Float.eqb (RSI r) (Fin 100) = true).
  { rewrite Hrsi. pose proof (avg_gain_nonneg p price i) as Hg.
    destruct (nth i (avg_gain p price) NaN) as [| | |g]; cbn in Hg;
      try contradiction; [now left|].
    destruct (rsi_of_zero_loss g Hz) as [Hpos Hnil].
    unfold nonneg in Hg. destruct (Qlt_le_dec 0 g) as [H|H].
    - right. now apply Hpos.
    - left. apply Hnil. lra. }
  split; [|split; [exact Hcases|]].
  - intros g Hg. rewrite Hrsi, Hg. now apply rsi_of_zero_loss.
  - intros Hbuy. apply (engine_no_buy p _ _ Hr).
    destruct Hcases as [Hn|H100].
    + apply entry_cond_undefined. auto.
    + apply entry_cond_rsi_high. now apply ltb_hundred.
Qed.

Lemma no_loss_window_never_buys_witness :
  exists r o,
    nth_error Demo.demo_rows 30 = Some r /\
    Float.eqb (RSI r) (Fin 100) = true /\
    nth_error (signal_engine Demo.demo_params Demo.demo_rows) 30 = Some o /\
    Signal o <> BUY.
Proof.
  destruct (nth_error Demo.demo_rows 30) as [r|] eqn:E;
    [|vm_compute in E; discriminate].
  destruct (@no_loss_window_never_buys Demo.demo_params Demo.demo_price
              Demo.demo_qqq Demo.demo_rows 30 r (0 / inject_Z 5))
    as (_ & _ & Hb).
  - vm_compute. reflexivity.
  - exact E.
  - vm_compute. reflexivity.
  - reflexivity.
  - destruct Hb as (o & Ho & Hs); [vm_compute; discriminate|].
    exists r, o. split; [reflexivity|]. split; [|split; [exact Ho | exact Hs]].
    vm_compute in E. injection E as <-. reflexivity.
Defined.

(* ===================================================================== *)
(** ** Runs without a trade *)
(* ===================================================================== *)

Lemma scan_idle (p : params) (rows : list row) :
  Forall (fun r => entry_cond p r = false) rows ->
  forall st, in_pos st = false ->
             map Signal (scan p st rows) = repeat NO_TRADE (length rows).
Proof.
  induction 1 as [|r rows Hr _ IH]; intros st Hst; [reflexivity|].
  cbn [scan]. unfold step. rewrite Hst, Hr. cbn. f_equal.
  now apply IH.
Qed.

Lemma signals_idle (p : params) (rows : list row) :
  Forall (fun r => entry_cond p r = false) rows ->
  signals p rows = idle_labels (length rows).
Proof.
  intros H. unfold signals, signal_engine.
  destruct rows as [|r rows]; [reflexivity|].
  cbn. f_equal. apply scan_idle; [now inversion H | reflexivity].
Qed.

Lemma indicators_Forall (p : params) (price qqq : list bar)
  (rows : list row) (P : row -> Prop) :
  indicators p price qqq = inr rows ->
  (forall cells i b,
      nth_error price i = Some b -> P (row_at p price cells i b)) ->
  (forall dv, P (blank_row dv)) ->
  Forall P rows.
Proof.
  intros Hrows H Hblank. apply Forall_forall. intros r Hin.
  apply In_nth_error in Hin. destruct Hin as [i Hi].
  destruct (indicators_nth _ _ _ _ Hrows Hi)
    as [(cells & b & _ & Hb & ->)|(_ & dv & _ & ->)]; auto.
Qed.

Lemma entry_cond_blank (p : params) (dv : Z * bool) :
  entry_cond p (blank_row dv) = false.
Proof. reflexivity. Qed.

Lemma shift_nan_or (P : Q -> Prop) (xs : list float) :
  Forall (fin_with P) xs -> Forall (nan_or P) (Pandas.shift xs).
Proof.
  intros H. unfold Pandas.shift. apply Forall_firstn_keep.
  constructor; [exact I|].
  eapply Forall_impl; [apply fin_with_nan_or | exact H].
Qed.

Section FlatSeries.

Variable p : params.
Variable c : Q.
Variable price : list bar.
Hypothesis flat : Forall (fun b => Close b == c) price.

Lemma delta_flat : Forall (nan_or zero) (delta price).
Proof.
  unfold delta, Pandas.diff.
  apply (@Forall_zip_with _ _ _ Float.sub
           (fin_with (fun q => q == c)) (nan_or (fun q => q == c))).
  - intros [| | |x] [| | |y]; cbn; try contradiction; auto.
    intros Hx Hy. unfold zero. rewrite Hx, Hy. ring.
  - unfold closes. apply Forall_map. exact flat.
  - apply shift_nan_or. unfold closes. apply Forall_map. exact flat.
Qed.

Lemma gain_flat : Forall (nan_or zero) (gain price).
Proof.
  unfold gain. apply Forall_map.
  eapply Forall_impl; [|apply delta_flat].
  intros [| | |x]; cbn; try contradiction; auto.
  unfold Float.clip_lower. cbn.
  destruct (Float.Qltb x 0); cbn; unfold zero; auto. reflexivity.
Qed.

Lemma loss_flat : Forall (nan_or zero) (loss price).
Proof.
  unfold loss. apply Forall_map, Forall_map.
  eapply Forall_impl; [|apply delta_flat].
  intros [| | |x]; cbn; try contradiction; auto.
  unfold Float.clip_upper, Float.gtb. cbn.
  destruct (Float.Qltb 0 x); cbn; unfold zero; intros H;
    [reflexivity | rewrite H; reflexivity].
Qed.

Lemma rsi_flat (i : nat) : nth i (rsi p price) NaN = NaN.
Proof.
  rewrite rsi_nth.
  assert (Hg : nan_or zero (nth i (avg_gain p price) NaN)).
  { unfold avg_gain. apply rolling_mean_nan_or;
      [reflexivity | apply zero_add | apply zero_div | apply gain_flat]. }
  assert (Hl : nan_or zero (nth i (avg_loss p price) NaN)).
  { unfold avg_loss. apply rolling_mean_nan_or;
      [reflexivity | apply zero_add | apply zero_div | apply loss_flat]. }
  destruct (nth i (avg_gain p price) NaN) as [| | |g]; cbn in Hg;
    try contradiction; [reflexivity|].
  destruct (nth i (avg_loss p price) NaN) as [| | |l]; cbn in Hl;
    try contradiction; [reflexivity|].
  now apply rsi_of_zero_loss.
Qed.

End FlatSeries.

(** X6.  A series whose close never changes never trades: its RSI is
    undefined on every bar (zero gain over zero loss), so the label
    column is the seed CASH followed by NO TRADE on every later row.  The
    frame has one row per price bar, or, for an empty price series, one
    per benchmark day. *)
Theorem flat_series_never_trades
  (p : params) (price qqq : list bar) (rows : list row) (c : Q) :
  Forall (fun b => Close b == c) price ->
  indicators p price qqq = inr rows ->
  Forall (fun r => RSI r = NaN) rows /\
  signals p rows = idle_labels (length rows) /\
  length rows = match price with
                | [] => length qqq
                | _ :: _ => length price
                end.
Proof.
  intros Hflat Hrows.
  assert (H : Forall (fun r => RSI r = NaN) rows).
  { apply (@indicators_Forall _ _ _ _ _ Hrows); [|reflexivity].
    intros cells i b _. cbn. now apply rsi_flat with (c := c). }
  split; [exact H|]. split; [|now apply (indicators_length p)].
  apply signals_idle.
  eapply Forall_impl; [|exact H].
  intros r Hr. apply entry_cond_undefined. auto.
Qed.

Lemma flat_series_never_trades_witness :
  exists rows,
    indicators Demo.demo_params
      (map (fun d => {| Date := d; High := 11; Low := 9; Close := 10 |})
           [1; 2; 3; 4]%Z) []
    = inr rows /\
    signals Demo.demo_params rows = [CASH; NO_TRADE; NO_TRADE; NO_TRADE].
Proof.
  destruct (indicators Demo.demo_params
              (map (fun d => {| Date := d; High := 11; Low := 9;
                                Close := 10 |}) [1; 2; 3; 4]%Z) [])
    as [e|rows] eqn:E; [vm_compute in E; discriminate|].
  exists rows. split; [reflexivity|].
  destruct (@flat_series_never_trades Demo.demo_params
              (map (fun d => {| Date := d; High := 11; Low := 9;
                                Close := 10 |}) [1; 2; 3; 4]%Z)
              [] rows 10) as (_ & H & Hlen).
  - repeat constructor.
  - exact E.
  - rewrite H, Hlen. reflexivity.
Defined.

(** X7.  Insufficient history: a price series shorter than one of the
    indicator windows (for the RSI, not longer than its window) never
    opens a position, the label column of its frame being the seed CASH
    followed by NO TRADE; and when the series is shorter than the ATR
    window and the frame has a row, the run completes with zero
    shares. *)
Theorem short_history_stays_in_cash
  (p : params) (price qqq : list bar) (rows : list row) :
  indicators p price qqq = inr rows ->
  ((length price < short_ma p)%nat \/ (length price < long_ma p)%nat \/
   (length price <= rsi_period p)%nat \/ (length price < atr_period p)%nat ->
   signals p rows = idle_labels (length rows)) /\
  (rows <> [] -> (length price < atr_period p)%nat ->
   exists rep,
     snd (run_script p price qqq) = inr rep /\ rep_shares rep = 0%Z).
Proof.
  intros Hrows. split.
  - intros Hshort.
    apply signals_idle, (@indicators_Forall _ _ _ _ _ Hrows);
      [|apply entry_cond_blank].
    intros cells i b Hb.
    assert (Hi : (i < length price)%nat) by (apply nth_error_Some; congruence).
    apply entry_cond_undefined. cbn.
    destruct Hshort as [H|[H|[H|H]]].
    + left. apply rolling_mean_warmup. lia.
    + right; left. apply rolling_mean_warmup. lia.
    + right; right; left. apply rsi_warmup. lia.
    + right; right; right. apply atr_pct_of_atr, rolling_mean_warmup. lia.
  - intros Hne Hlen. rewrite run_script_unfold, Hrows. cbn [snd].
    destruct (iloc_last_nonempty Hne) as [latest Hl]. rewrite Hl.
    apply iloc_last_In, In_nth_error in Hl. destruct Hl as [i Hi].
    assert (Ha : ATR latest = NaN).
    { destruct (indicators_nth _ _ _ _ Hrows Hi)
        as [(cells & b & _ & Hb & ->)|(_ & dv & _ & ->)]; [|reflexivity].
      assert (Hlt : (i < length price)%nat)
        by (apply nth_error_Some; congruence).
      cbn. apply rolling_mean_warmup. lia. }
    rewrite Ha. cbn. eexists. split; reflexivity.
Qed.

Lemma short_history_stays_in_cash_witness :
  (exists rows,
      indicators Demo.demo_params (firstn 40 Demo.demo_price) Demo.demo_qqq
      = inr rows /\
      signals Demo.demo_params rows = idle_labels 40) /\
  exists rep,
    snd (run_script Demo.demo_params (firstn 3 Demo.demo_price)
           Demo.demo_qqq) = inr rep /\
    rep_shares rep = 0%Z.
Proof.
  split.
  - destruct (indicators Demo.demo_params (firstn 40 Demo.demo_price)
                Demo.demo_qqq) as [e|rows] eqn:E;
      [vm_compute in E; discriminate|].
    exists rows. split; [reflexivity|].
    destruct (@short_history_stays_in_cash Demo.demo_params
                (firstn 40 Demo.demo_price) Demo.demo_qqq rows E) as [H _].
    rewrite H by (right; left; vm_compute; lia).
    vm_compute in E. injection E as <-. reflexivity.
  - destruct (indicators Demo.demo_params (firstn 3 Demo.demo_price)
                Demo.demo_qqq) as [e|rows] eqn:E;
      [vm_compute in E; discriminate|].
    destruct (@short_history_stays_in_cash Demo.demo_params
                (firstn 3 Demo.demo_price) Demo.demo_qqq rows E) as [_ H].
    apply H; [|vm_compute; lia].
    vm_compute in E. injection E as <-. discriminate.
Defined.

(* ===================================================================== *)
(** ** The trend gate on days present in the benchmark *)
(* ===================================================================== *)

(** X8.  With unique benchmark dates, the trend cell of a row whose date
    is the benchmark's [j]-th date is the comparison of that day's
    benchmark close with its 200-day average.  During the benchmark's
    first 199 days the average is undefined, the cell is False, and the
    bar is never a BUY. *)
Theorem trend_gate_on_benchmark_day
  (p : params) (price qqq : list bar) (rows : list row) (i j : nat)
  (r : row) (bq : bar) :
  NoDup (map Date qqq) ->
  nth_error qqq j = Some bq ->
  indicators p price qqq = inr rows ->
  nth_error rows i = Some r ->
  r_date r = Date bq ->
  Trend_OK r
  = Some (Float.gtb (Fin (Close bq)) (nth j (sma_200 qqq) NaN)) /\
  ((S j < 200)%nat ->
   Trend_OK r = Some false /\
   exists o,
     nth_error (signal_engine p rows) i = Some o /\
     Signal o <> BUY).
Proof.
  intros Hnd Hj Hrows Hr Hdate.
  pose proof (@reindex_found _ (@NoDup_trend qqq Hnd) _ _ _
                (trend_nth _ _ Hj)) as Hfound.
  assert (Ht : Trend_OK r
               = Some (Float.gtb (Fin (Close bq))
                                 (nth j (sma_200 qqq) NaN))).
  { destruct (indicators_nth _ _ _ _ Hrows Hr)
      as [(cells & b & Hc & Hb & E)|(_ & [d v] & Hdv & E)];
      rewrite E in Hdate |- *; cbn in Hdate |- *.
    - rewrite (assign_trend_nth _ _ _ Hc Hnd Hb), Hdate. exact Hfound.
    - subst d. rewrite <- Hfound.
      symmetry. exact (@reindex_found _ (@NoDup_trend qqq Hnd) _ _ _ Hdv). }
  split; [exact Ht|]. intros Hwarm.
  assert (Hf : Trend_OK r = Some false).
  { rewrite Ht. unfold sma_200. rewrite rolling_mean_warmup by exact Hwarm.
    reflexivity. }
  split; [exact Hf|].
  apply (engine_no_buy p _ _ Hr). now apply entry_cond_trend_false.
Qed.

Lemma trend_gate_on_benchmark_day_witness :
  exists r o,
    nth_error Demo.demo_rows 71 = Some r /\
    Trend_OK r = Some false /\
    nth_error (signal_engine Demo.demo_params Demo.demo_rows) 71 = Some o /\
    Signal o <> BUY.
Proof.
  destruct (nth_error Demo.demo_rows 71) as [r|] eqn:E;
    [|vm_compute in E; discriminate].
  destruct (@trend_gate_on_benchmark_day Demo.demo_params Demo.demo_price
              Demo.demo_qqq Demo.demo_rows 71 68 r (Demo.demo_bar 71))
    as (_ & H).
  - apply is_unique_NoDup. vm_compute. reflexivity.
  - vm_compute. reflexivity.
  - vm_compute. reflexivity.
  - exact E.
  - vm_compute in E. injection E as <-. reflexivity.
  - destruct H as (Hf & o & Ho & Hs); [lia|].
    exists r, o. auto.
Defined.

(* ===================================================================== *)
(** ** The percentile follows the ATR *)
(* ===================================================================== *)

Lemma Qltb_compat_r (q x y : Q) : x == y -> Float.Qltb q x = Float.Qltb q y.
Proof.
  intros H. destruct (Float.Qltb q y) eqn:E.
  - apply Qltb_true in E. apply Qltb_true. lra.
  - apply Qltb_false in E. apply Qltb_false. lra.
Qed.

Lemma Qeq_bool_compat_r (q x y : Q) : x == y -> Qeq_bool q x = Qeq_bool q y.
Proof.
  intros H. destruct (Qeq_bool q y) eqn:E.
  - apply Qeq_bool_iff in E. apply Qeq_bool_iff. lra.
  - destruct (Qeq_bool q x) eqn:E'; [|reflexivity].
    apply Qeq_bool_iff in E'.
    assert (Hq : q == y) by lra. apply Qeq_bool_iff in Hq. congruence.
Qed.

Lemma counts_of_equal (x y : Q) (xs : list float) :
  x == y ->
  below (Fin x) xs = below (Fin y) xs /\ tied (Fin x) xs = tied (Fin y) xs.
Proof.
  intros H. unfold below, tied. split; f_equal; apply filter_ext;
    intros [| | |q]; cbn; auto using Qltb_compat_r, Qeq_bool_compat_r.
Qed.

Lemma counts_of_smaller (x y : Q) (xs : list float) :
  x < y ->
  (below (Fin x) xs + tied (Fin x) xs <= below (Fin y) xs)%nat.
Proof.
  intros H. unfold below, tied.
  induction xs as [|z xs IH]; cbn [filter length]; [lia|].
  destruct z as [| | |q]; cbn; try lia.
  destruct (Float.Qltb q x) eqn:E1, (Qeq_bool q x) eqn:E2,
    (Float.Qltb q y) eqn:E3; cbn [length]; try lia;
    try apply Qltb_true in E1; try apply Qltb_false in E1;
    try apply Qeq_bool_iff in E2; try apply Qltb_false in E3; lra.
Qed.

Lemma rank_strict (x y : Q) (xs : list float) :
  In (Fin x) xs -> In (Fin y) xs -> x < y ->
  (Pandas.count (fun z => Float.ltb z (Fin x)) xs
   + (Pandas.count (fun z => Float.eqb z (Fin x)) xs + 1) / 2)
  < Pandas.count (fun z => Float.ltb z (Fin y)) xs
    + (Pandas.count (fun z => Float.eqb z (Fin y)) xs + 1) / 2.
Proof.
  intros Hx Hy Hlt. unfold Pandas.count.
  fold (below (Fin x) xs) (tied (Fin x) xs)
       (below (Fin y) xs) (tied (Fin y) xs).
  pose proof (counts_of_smaller xs Hlt) as H1.
  assert (H2 : (1 <= tied (Fin x) xs)%nat) by now apply tied_positive.
  assert (H3 : (1 <= tied (Fin y) xs)%nat) by now apply tied_positive.
  apply inject_nat_le in H1, H2, H3.
  rewrite Nat2Z.inj_add, inject_Z_plus in H1.
  change (inject_Z (Z.of_nat 1)) with 1 in H2, H3.
  set (lx := inject_Z (Z.of_nat (below (Fin x) xs))) in *.
  set (sx := inject_Z (Z.of_nat (tied (Fin x) xs))) in *.
  set (ly := inject_Z (Z.of_nat (below (Fin y) xs))) in *.
  set (sy := inject_Z (Z.of_nat (tied (Fin y) xs))) in *.
  clearbody lx sx ly sy.
  assert (Ex : (sx + 1) / 2 == (sx + 1) * (1 # 2)) by field.
  assert (Ey : (sy + 1) / 2 == (sy + 1) * (1 # 2)) by field.
  rewrite Ex, Ey. lra.
Qed.

Lemma defined_positive (x : float) (xs : list float) :
  Float.is_nan x = false -> In x xs ->
  0 < Pandas.count (fun y => negb (Float.is_nan y)) xs.
Proof.
  intros Hx Hin. unfold Pandas.count. fold (defined xs).
  pose proof (below_tied_defined x xs) as H1.
  assert (H2 : (1 <= tied x xs)%nat) by now apply tied_positive.
  assert (H3 : (1 <= defined xs)%nat) by lia.
  apply inject_nat_le in H3. change (inject_Z (Z.of_nat 1)) with 1 in H3.
  lra.
Qed.

(** X9.  The percentile is monotone in the ATR: of two bars with a
    defined ATR, the one with the strictly smaller ATR has the strictly
    smaller percentile, and bars with equal ATR share their percentile. *)
Theorem atr_pct_follows_atr
  (p : params) (price : list bar) (i j : nat) (x y : Q) :
  (i < length price)%nat ->
  (j < length price)%nat ->
  nth i (atr p price) NaN = Fin x ->
  nth j (atr p price) NaN = Fin y ->
  exists u v,
    nth i (atr_pct p price) NaN = Fin u /\
    nth j (atr_pct p price) NaN = Fin v /\
    (x < y -> u < v) /\
    (x == y -> u == v).
Proof.
  intros Hi Hj Hx Hy.
  assert (Hinx : In (Fin x) (atr p price)).
  { rewrite <- Hx. apply nth_In. now rewrite length_atr. }
  assert (Hiny : In (Fin y) (atr p price)).
  { rewrite <- Hy. apply nth_In. now rewrite length_atr. }
  rewrite !atr_pct_nth, Hx, Hy. cbn.
  pose proof (defined_positive (Fin x) (atr p price) eq_refl Hinx) as Hn.
  set (n := Pandas.count (fun y0 => negb (Float.is_nan y0)) (atr p price))
    in *.
  eexists. eexists. split; [reflexivity|]. split; [reflexivity|]. split.
  - intros Hlt. pose proof (@rank_strict _ _ _ Hinx Hiny Hlt) as Hr.
    apply Qmult_lt_r; [lra|]. apply Qmult_lt_r; [now apply Qinv_lt_0_compat|].
    exact Hr.
  - intros Heq. destruct (@counts_of_equal _ _ (atr p price) Heq) as [Hb Ht].
    unfold Pandas.count. fold (below (Fin x) (atr p price))
      (tied (Fin x) (atr p price)) (below (Fin y) (atr p price))
      (tied (Fin y) (atr p price)).
    rewrite Hb, Ht. reflexivity.
Qed.

Lemma atr_pct_follows_atr_witness :
  exists u v,
    nth 55 (atr_pct Demo.demo_params Demo.demo_price) NaN = Fin u /\
    nth 57 (atr_pct Demo.demo_params Demo.demo_price) NaN = Fin v /\
    u < v.
Proof.
  destruct (@atr_pct_follows_atr Demo.demo_params Demo.demo_price 55 57
              (11 # 5) (13 # 5))
    as (u & v & Hu & Hv & Hlt & _).
  - vm_compute. lia.
  - vm_compute. lia.
  - vm_compute. reflexivity.
  - vm_compute. reflexivity.
  - exists u, v. split; [exact Hu|]. split; [exact Hv|].
    apply Hlt. reflexivity.
Defined.

(* ===================================================================== *)
(** ** Levels recorded at entry *)
(* ===================================================================== *)

Lemma step_levels_blank (p : params) (st : pos_state) (r : row) :
  Signal (snd (step p st r)) <> BUY ->
  Stop (snd (step p st r)) = NaN /\
  Target (snd (step p st r)) = NaN /\
  Trail (snd (step p st r)) = NaN.
Proof.
  unfold step. destruct (negb (in_pos st)).
  - destruct (entry_cond p r); cbn; [congruence | auto].
  - destruct (Float.leb _ _); [cbn; auto|].
    destruct (Float.geb _ _); [cbn; auto|].
    destruct (reversal_cond p r); cbn; auto.
Qed.

Lemma step_levels_buy (p : params) (st : pos_state) (r : row) :
  Signal (snd (step p st r)) = BUY ->
  in_pos st = false /\ entry_cond p r = true /\
  Stop (snd (step p st r))
  = Float.sub (r_close r) (Float.mul (Fin (stop_atr p)) (ATR r)) /\
  Target (snd (step p st r))
  = Float.add (r_close r)
              (Float.mul (Fin (target_atr p)) (ATR r)) /\
  Trail (snd (step p st r)) = Stop (snd (step p st r)) /\
  fst (step p st r)
  = {| in_pos := true; entry := r_close r;
       stop := Stop (snd (step p st r));
       target := Target (snd (step p st r));
       trail := Stop (snd (step p st r)) |}.
Proof.
  intros H. destruct (in_pos st) eqn:Hin.
  - destruct (step_label_long p st r Hin) as [[He _]|[Hc _]].
    + rewrite H in He. discriminate.
    + rewrite H in Hc. discriminate.
  - revert H. unfold step. rewrite Hin. cbn [negb].
    destruct (entry_cond p r); cbn; [auto 10 | discriminate].
Qed.

Lemma entry_atr_finite (p : params) (r : row) :
  atr_consistent r -> entry_cond p r = true ->
  Float.finite (ATR r) /\ Float.finite (r_close r).
Proof.
  intros Hr E. unfold entry_cond in E. rewrite !andb_true_iff in E.
  destruct E as [_ E]. apply ltb_not_nan_l in E. now apply Hr.
Qed.

(** X11.  In every run the Stop, Target and Trail columns hold numbers
    on the BUY bars and nowhere else: every other bar keeps the NaN the
    columns were seeded with. *)
Theorem levels_only_on_buy_bars
  (p : params) (price qqq : list bar) (rows : list row) (i : nat)
  (o : out_rec) :
  indicators p price qqq = inr rows ->
  nth_error (signal_engine p rows) i = Some o ->
  (Signal o = BUY ->
   Float.finite (Stop o) /\ Float.finite (Target o) /\ Trail o = Stop o) /\
  (Signal o <> BUY ->
   Stop o = NaN /\ Target o = NaN /\ Trail o = NaN).
Proof.
  intros Hrows Ho.
  destruct i as [|k].
  - destruct rows as [|r rows']; [discriminate|]. cbn in Ho.
    inversion Ho; subst. cbn. split; [discriminate | auto].
  - destruct (nth_error rows (S k)) as [r|] eqn:Hr.
    + assert (Hi : (1 <= S k)%nat) by lia.
      rewrite (engine_nth p rows Hi Hr) in Ho. inversion Ho; subst. split.
      * intros Hb.
        destruct (step_levels_buy p _ r Hb) as (_ & Hc & Hs & Ht & Htr & _).
        assert (Hcons : atr_consistent r).
        { pose proof (indicators_atr_consistent p price qqq Hrows) as Hall.
          rewrite Forall_forall in Hall. apply Hall.
          now apply nth_error_In in Hr. }
        destruct (@entry_atr_finite p r Hcons Hc) as [[a Ha] [c Hcl]].
        rewrite Hs, Ht, Ha, Hcl in *. cbn.
        repeat split; try (now eexists). exact Htr.
      * apply step_levels_blank.
    + apply nth_error_None in Hr.
      assert (nth_error (signal_engine p rows) (S k) = None) as Hnone.
      { apply nth_error_None. now rewrite signal_engine_length. }
      congruence.
Qed.

Lemma levels_only_on_buy_bars_witness :
  exists o,
    nth_error (signal_engine Demo.demo_params Demo.demo_rows) 70 = Some o /\
    Float.finite (Stop o) /\ Float.finite (Target o).
Proof.
  destruct (nth_error (signal_engine Demo.demo_params Demo.demo_rows) 70)
    as [o|] eqn:E; [|vm_compute in E; discriminate].
  destruct (@levels_only_on_buy_bars Demo.demo_params Demo.demo_price
              Demo.demo_qqq Demo.demo_rows 70 o) as [Hb _].
  - vm_compute. reflexivity.
  - exact E.
  - destruct Hb as (Hs & Ht & _).
    + vm_compute in E. injection E as <-. reflexivity.
    + exists o. auto.
Defined.

Lemma atr_nonneg_nth (p : params) (price : list bar) (i : nat) :
  Forall bar_ok price -> nan_or nonneg (nth i (atr p price) NaN).
Proof.
  intros H. unfold atr. apply rolling_mean_nan_or.
  - unfold nonneg. lra.
  - apply nonneg_add.
  - apply nonneg_div.
  - eapply Forall_impl; [apply fin_with_nan_or|]. now apply tr_nonneg.
Qed.

(** X12.  When no bar has its low above its high and the stop and target
    multipliers are not negative, every BUY bar brackets its close: the
    recorded stop is at or below the close and the recorded target at or
    above it. *)
Theorem entry_levels_bracket_close
  (p : params) (price qqq : list bar) (rows : list row) (i : nat) (r : row)
  (o : out_rec) :
  Forall bar_ok price ->
  0 <= stop_atr p ->
  0 <= target_atr p ->
  indicators p price qqq = inr rows ->
  nth_error rows i = Some r ->
  nth_error (signal_engine p rows) i = Some o ->
  Signal o = BUY ->
  exists s t c,
    Stop o = Fin s /\ Target o = Fin t /\ r_close r = Fin c /\
    s <= c /\ c <= t.
Proof.
  intros Hbars Hs Ht Hrows Hr Ho Hb.
  destruct i as [|k].
  { destruct rows; [discriminate|]. cbn in Ho.
    inversion Ho; subst. discriminate. }
  assert (Hi : (1 <= S k)%nat) by lia.
  rewrite (engine_nth p _ Hi Hr) in Ho. inversion Ho; subst. clear Ho.
  destruct (step_levels_buy p _ r Hb) as (_ & Hc & HS & HT & _).
  destruct (indicators_nth _ _ _ _ Hrows Hr)
    as [(cells & b & _ & Hbar & E)|(_ & dv & _ & E)];
    [|rewrite E in Hc; discriminate].
  pose proof (atr_nonneg_nth p (S k) Hbars) as Ha.
  rewrite HS, HT. rewrite E. cbn [ATR row_at r_close].
  assert (Hfin : Float.finite (ATR r)).
  { apply (@entry_atr_finite p r); [|exact Hc].
    rewrite E. apply row_at_atr_consistent. }
  rewrite E in Hfin. cbn [ATR row_at] in Hfin. destruct Hfin as [a Hfin].
  rewrite Hfin in Ha |- *. cbn in Ha. unfold nonneg in Ha. cbn.
  eexists. eexists. eexists. split; [reflexivity|]. split; [reflexivity|].
  split; [reflexivity|]. split; nra.
Qed.

Lemma entry_levels_bracket_close_witness :
  exists s t,
    nth 57 (map Stop (signal_engine Demo.demo_params Demo.demo_rows)) NaN
    = Fin s /\
    nth 57 (map Target (signal_engine Demo.demo_params Demo.demo_rows)) NaN
    = Fin t /\
    s <= 148 /\ 148 <= t.
Proof.
  destruct (nth_error Demo.demo_rows 57) as [r|] eqn:Er;
    [|vm_compute in Er; discriminate].
  destruct (nth_error (signal_engine Demo.demo_params Demo.demo_rows) 57)
    as [o|] eqn:Eo; [|vm_compute in Eo; discriminate].
  destruct (@entry_levels_bracket_close Demo.demo_params Demo.demo_price
              Demo.demo_qqq Demo.demo_rows 57 r o)
    as (s & t & c & Hs & Ht & Hc & H1 & H2).
  - apply bars_ok_of_check. vm_compute. reflexivity.
  - vm_compute. discriminate.
  - vm_compute. discriminate.
  - vm_compute. reflexivity.
  - exact Er.
  - exact Eo.
  - vm_compute in Eo. injection Eo as <-. reflexivity.
  - exists s, t.
    assert (E1 : nth 57 (map Stop (signal_engine Demo.demo_params
                                     Demo.demo_rows)) NaN = Stop o).
    { change NaN with (Stop default_rec) at 1. rewrite map_nth.
      f_equal. now apply nth_error_nth. }
    assert (E2 : nth 57 (map Target (signal_engine Demo.demo_params
                                       Demo.demo_rows)) NaN = Target o).
    { change NaN with (Target default_rec) at 1. rewrite map_nth.
      f_equal. now apply nth_error_nth. }
    rewrite E1, E2. split; [exact Hs|]. split; [exact Ht|].
    vm_compute in Er. injection Er as <-. cbn in Hc.
    injection Hc as <-. split; assumption.
Defined.

(* ===================================================================== *)
(** ** The open position *)
(* ===================================================================== *)

Lemma pymax_finite (t : Q) (b : float) :
  Float.finite_or_nan b ->
  exists t', Float.pymax (Fin t) b = Fin t' /\ t <= t'.
Proof.
  intros [->|[q ->]].
  - exists t. split; [reflexivity | lra].
  - unfold Float.pymax, Float.gtb. cbn.
    destruct (Float.Qltb t q) eqn:E.
    + apply Qltb_true in E. exists q. split; [reflexivity | lra].
    + exists t. split; [reflexivity | lra].
Qed.

Lemma new_trail_finite_or_nan (p : params) (r : row) :
  Float.finite_or_nan (ATR r) -> Float.finite_or_nan (r_close r) ->
  Float.finite_or_nan (new_trail p r).
Proof.
  unfold new_trail. intros [->|[a ->]] [->|[c ->]]; cbn;
    try (now left). right. now eexists.
Qed.

(** The cells the trail is computed from are numbers or NaN, never an
    infinity. *)
Lemma indicators_trail_inputs (p : params) (price qqq : list bar)
  (rows : list row) :
  indicators p price qqq = inr rows ->
  Forall (fun r => Float.finite_or_nan (ATR r) /\
                   Float.finite_or_nan (r_close r)) rows.
Proof.
  intros H.
  apply (@indicators_Forall _ _ _ _ _ H).
  - intros cells i b _. cbn. split; [apply atr_finite_or_nan|].
    right. now eexists.
  - intros dv. split; now left.
Qed.

Lemma step_position_ok (p : params) (st : pos_state) (r : row) :
  atr_consistent r ->
  Float.finite_or_nan (ATR r) /\ Float.finite_or_nan (r_close r) ->
  position_ok st -> position_ok (fst (step p st r)).
Proof.
  intros Hcons [Hatr Hcl] Hst. destruct (in_pos st) eqn:Hin.
  - destruct (Hst Hin) as (s & t & Hs & Ht & Hle).
    destruct (@pymax_finite t (new_trail p r)
                (new_trail_finite_or_nan p r Hatr Hcl)) as (t' & Ht' & Hle').
    unfold step. rewrite Hin. cbn [negb]. unfold update_trail. rewrite Ht, Ht'.
    destruct (Float.leb _ _); [intros H; discriminate|].
    destruct (Float.geb _ _); [intros H; discriminate|].
    destruct (reversal_cond p r); [intros H; discriminate|].
    intros _. cbn. exists s, t'. repeat split; auto. lra.
  - unfold step. rewrite Hin. cbn [negb].
    destruct (entry_cond p r) eqn:E; cbn [fst]; [|exact Hst].
    intros _. cbn.
    destruct (@entry_atr_finite p r Hcons E) as [[a ->] [c ->]].
    cbn. eexists. eexists. split; [reflexivity|]. split; [reflexivity|]. lra.
Qed.

Lemma run_state_position_ok (p : params) (rows : list row) :
  Forall atr_consistent rows ->
  Forall (fun r => Float.finite_or_nan (ATR r) /\
                   Float.finite_or_nan (r_close r)) rows ->
  forall st, position_ok st -> position_ok (run_state p st rows).
Proof.
  induction rows as [|r rows IH]; intros Hc Ha st Hst; [exact Hst|].
  inversion Hc; inversion Ha; subst.
  unfold run_state. cbn [fold_left]. apply IH; auto.
  now apply step_position_ok.
Qed.

(** X13.  In every run, while a position is open the initial stop and
    the trailing stop are numbers and the trailing stop is never below
    the initial stop. *)
Theorem trail_never_below_initial_stop
  (p : params) (price qqq : list bar) (rows : list row) (i : nat) :
  indicators p price qqq = inr rows ->
  let st := state_before p rows i in
  in_pos st = true ->
  exists s t, stop st = Fin s /\ trail st = Fin t /\ s <= t.
Proof.
  intros Hrows st. unfold st, state_before.
  apply run_state_position_ok.
  - apply Forall_firstn_keep.
    pose proof (indicators_atr_consistent p price qqq Hrows) as H.
    destruct rows; [constructor | now inversion H].
  - apply Forall_firstn_keep.
    pose proof (indicators_trail_inputs p price qqq Hrows) as H.
    destruct rows; [constructor | now inversion H].
  - intros H. discriminate.
Qed.

Lemma trail_never_below_initial_stop_witness :
  exists s t,
    stop (state_before Demo.demo_params Demo.demo_rows 61) = Fin s /\
    trail (state_before Demo.demo_params Demo.demo_rows 61) = Fin t /\
    s <= t.
Proof.
  apply (@trail_never_below_initial_stop Demo.demo_params Demo.demo_price
           Demo.demo_qqq Demo.demo_rows 61).
  - vm_compute. reflexivity.
  - vm_compute. reflexivity.
Defined.

Lemma step_hold (p : params) (st : pos_state) (r : row) :
  in_pos st = true ->
  Signal (snd (step p st r)) = CASH ->
  fst (step p st r) = hold st (update_trail p st r).
Proof.
  intros Hin. unfold step. rewrite Hin. cbn [negb].
  destruct (Float.leb _ _); [cbn; discriminate|].
  destruct (Float.geb _ _); [cbn; discriminate|].
  destruct (reversal_cond p r); [cbn; discriminate|].
  reflexivity.
Qed.

Lemma engine_nth_inv (p : params) (rows : list row) (k : nat) (o : out_rec) :
  (1 <= k)%nat ->
  nth_error (signal_engine p rows) k = Some o ->
  exists r, nth_error rows k = Some r /\
            o = snd (step p (state_before p rows k) r).
Proof.
  intros Hk Ho. destruct (nth_error rows k) as [r|] eqn:Hr.
  - exists r. split; [reflexivity|].
    rewrite (engine_nth p rows Hk Hr) in Ho. now inversion Ho.
  - apply nth_error_None in Hr.
    assert (nth_error (signal_engine p rows) k = None) as Hnone.
    { apply nth_error_None. now rewrite signal_engine_length. }
    congruence.
Qed.

(** X14.  The levels of a position are frozen at entry: as long as the
    bars after a BUY carry the hold label (the seed CASH), the position
    is still open and its entry, stop and target are the close, Stop and
    Target of the BUY bar; only the trail moves. *)
Theorem levels_frozen_while_holding
  (p : params) (rows : list row) (i : nat) (o : out_rec) :
  nth_error (signal_engine p rows) i = Some o ->
  Signal o = BUY ->
  forall j,
    (i < j)%nat ->
    (forall k, (i < k < j)%nat ->
               exists ok, nth_error (signal_engine p rows) k = Some ok /\
                          Signal ok = CASH) ->
    let st := state_before p rows j in
    in_pos st = true /\
    stop st = Stop o /\
    target st = Target o /\
    exists r, nth_error rows i = Some r /\ entry st = r_close r.
Proof.
  intros Ho Hb.
  assert (Hi : (1 <= i)%nat).
  { destruct i; [|lia]. destruct rows; [discriminate|]. cbn in Ho.
    inversion Ho; subst. discriminate. }
  destruct (engine_nth_inv p rows Hi Ho) as (r & Hr & Eo).
  induction j as [|j IH]; intros Hlt Hhold; [lia|].
  cbv zeta. rewrite state_before_succ.
  destruct (Nat.eq_dec j i) as [->|Hne].
  - rewrite (state_after_step p rows Hi Hr).
    rewrite Eo in Hb.
    destruct (step_levels_buy p _ r Hb) as (_ & _ & _ & _ & _ & Hst).
    rewrite Hst, Eo. cbn. repeat split; auto. now exists r.
  - assert (Hlt' : (i < j)%nat) by lia.
    destruct (IH Hlt') as (Hin & Hs & Ht & r0 & Hr0 & He).
    { intros k Hk. apply Hhold. lia. }
    destruct (Hhold j) as (oj & Hoj & Hcash); [lia|].
    assert (Hj : (1 <= j)%nat) by lia.
    destruct (engine_nth_inv p rows Hj Hoj) as (rj & Hrj & Eoj).
    rewrite (state_after_step p rows Hj Hrj).
    rewrite Eoj in Hcash. rewrite (step_hold p _ rj Hin Hcash).
    cbn. repeat split; auto. now exists r0.
Qed.

Lemma levels_frozen_while_holding_witness :
  exists o,
    nth_error (signal_engine Demo.demo_params Demo.demo_rows) 57 = Some o /\
    target (state_before Demo.demo_params Demo.demo_rows 61) = Target o.
Proof.
  destruct (nth_error (signal_engine Demo.demo_params Demo.demo_rows) 57)
    as [o|] eqn:E; [|vm_compute in E; discriminate].
  exists o. split; [reflexivity|].
  destruct (@levels_frozen_while_holding Demo.demo_params Demo.demo_rows 57 o
              E) with (j := 61%nat) as (_ & _ & Ht & _).
  - vm_compute in E. injection E as <-. reflexivity.
  - lia.
  - intros k Hk.
    assert (Hcases : k = 58%nat \/ k = 59%nat \/ k = 60%nat) by lia.
    destruct Hcases as [-> | [-> | ->]]; eexists; split;
      vm_compute; reflexivity.
  - exact Ht.
Defined.

(* ===================================================================== *)
(** ** More on position sizing *)
(* ===================================================================== *)

(** X16.  A larger latest ATR never suggests more shares. *)
Theorem shares_decrease_with_atr (p : params) (a b : Q) :
  (0 <= account_size p)%Z ->
  0 <= risk_per_trade p ->
  0 < stop_atr p ->
  0 < a ->
  a <= b ->
  exists n m,
    shares p (Fin a) = inr n /\ shares p (Fin b) = inr m /\ (m <= n)%Z.
Proof.
  intros Hacct Hrisk Hstop Ha Hab.
  assert (Hb : 0 < b) by lra.
  eexists. eexists.
  split; [now apply shares_positive_atr|].
  split; [now apply shares_positive_atr|].
  apply Qfloor_resp_le, round64_mono.
  pose proof (@risk_dollars_nonneg p Hacct Hrisk) as Hrd.
  pose proof (stop_distance_pos p Hstop Ha) as Hda.
  pose proof (stop_distance_pos p Hstop Hb) as Hdb.
  assert (Hle : IEEE.round64 (stop_atr p * a)
                <= IEEE.round64 (stop_atr p * b)).
  { apply round64_mono. nra. }
  set (da := IEEE.round64 (stop_atr p * a)) in *.
  set (db := IEEE.round64 (stop_atr p * b)) in *.
  apply Qle_shift_div_r; [exact Hdb|].
  set (x := risk_dollars p / da).
  assert (Hx : 0 <= x) by (apply Qle_shift_div_l; lra).
  assert (E : x * da == risk_dollars p) by (unfold x; field; lra).
  rewrite <- E. clearbody x da db. nra.
Qed.

Lemma shares_decrease_with_atr_witness :
  exists n m,
    shares Demo.default_params (Fin 3) = inr n /\
    shares Demo.default_params (Fin 5) = inr m /\
    (m <= n)%Z.
Proof.
  apply (@shares_decrease_with_atr Demo.default_params 3 5).
  - vm_compute. discriminate.
  - vm_compute. discriminate.
  - reflexivity.
  - reflexivity.
  - vm_compute. discriminate.
Defined.

(** X17.  The account-size input has no lower bound.  With a negative
    account size and a positive latest ATR the sizer returns the quotient
    truncated toward zero, its ceiling, which is never positive. *)
Theorem negative_account_truncates (p : params) (a : Q) :
  (account_size p < 0)%Z ->
  0 < risk_per_trade p ->
  0 < stop_atr p ->
  0 < a ->
  shares p (Fin a)
  = inr (Qceiling (IEEE.round64
                     (risk_dollars p / IEEE.round64 (stop_atr p * a)))) /\
  (Qceiling (IEEE.round64
               (risk_dollars p / IEEE.round64 (stop_atr p * a))) <= 0)%Z.
Proof.
  intros Hacct Hrisk Hstop Ha.
  assert (Hrd : risk_dollars p < 0).
  { unfold risk_dollars, IEEE.of_int. apply round64_neg.
    assert (H : IEEE.round64 (inject_Z (account_size p)) < 0).
    { apply round64_neg. change 0 with (inject_Z 0).
      now rewrite <- Zlt_Qlt. }
    nra. }
  pose proof (stop_distance_pos p Hstop Ha) as Hd.
  assert (Hq : IEEE.round64
                 (risk_dollars p / IEEE.round64 (stop_atr p * a)) < 0).
  { apply round64_neg. apply Qlt_shift_div_r; [exact Hd | lra]. }
  split.
  - rewrite shares_positive_divisor by assumption. cbn [int_of_float].
    destruct (Qle_bool 0 _) eqn:El; [|reflexivity].
    apply Qle_bool_iff in El. lra.
  - unfold Qceiling.
    assert (H0 : (0 <= Qfloor (- IEEE.round64
                                   (risk_dollars p
                                    / IEEE.round64 (stop_atr p * a))))%Z).
    { apply Qfloor_nonneg. lra. }
    lia.
Qed.

Lemma negative_account_truncates_witness :
  shares Demo.overdrawn_params (Fin 2) = inr (-2)%Z.
Proof.
  destruct (@negative_account_truncates Demo.overdrawn_params 2) as [H _].
  - reflexivity.
  - reflexivity.
  - reflexivity.
  - reflexivity.
  - rewrite H. vm_compute. reflexivity.
Defined.

(* ===================================================================== *)
(** ** The outcome of a run *)
(* ===================================================================== *)

Lemma blank_rows_idle (p : params) (qqq : list bar) :
  signals p (map blank_row (trend qqq)) = idle_labels (length qqq).
Proof.
  rewrite <- (length_trend qqq), <- (length_map blank_row (trend qqq)).
  apply signals_idle, Forall_map, Forall_forall. intros dv _.
  apply entry_cond_blank.
Qed.

Lemma run_script_blank (p : params) (qqq : list bar) :
  qqq <> [] ->
  exists latest,
    iloc_last (map blank_row (trend qqq)) = inr latest /\
    run_script p [] qqq
    = ([PhIndicators; PhSignalEngine; PhPositionSizing],
       inr {| rep_rows := map blank_row (trend qqq);
              rep_out := signal_engine p (map blank_row (trend qqq));
              rep_latest := latest;
              rep_risk_dollars := risk_dollars p;
              rep_shares := 0 |}).
Proof.
  intros Hq.
  assert (Hne : map blank_row (trend qqq) <> []).
  { intros E. apply Hq. apply length_zero_iff_nil.
    rewrite <- (length_trend qqq), <- (length_map blank_row (trend qqq)), E.
    reflexivity. }
  destruct (iloc_last_nonempty Hne) as [latest Hl].
  exists latest. split; [exact Hl|].
  rewrite run_script_unfold. cbn [indicators]. rewrite Hl.
  apply iloc_last_In, in_map_iff in Hl. destruct Hl as (dv & <- & _).
  reflexivity.
Qed.

Lemma assign_trend_raises (price qqq : list bar) :
  map Date qqq <> map Date price -> ~ NoDup (map Date qqq) ->
  assign_trend price qqq = inl ValueError.
Proof.
  intros Hne Hdup. unfold assign_trend.
  destruct (Pandas.index_equals (map Date qqq) (map Date price)) eqn:E.
  { apply index_equals_eq in E. contradiction. }
  destruct (Pandas.is_unique (map Date qqq)) eqn:U; [|reflexivity].
  apply is_unique_NoDup in U. contradiction.
Qed.

Lemma assign_trend_succeeds (price qqq : list bar) :
  map Date qqq = map Date price \/ NoDup (map Date qqq) ->
  exists cells, assign_trend price qqq = inr cells.
Proof.
  intros H. unfold assign_trend.
  destruct (Pandas.index_equals (map Date qqq) (map Date price)) eqn:E;
    [now eexists|].
  destruct (Pandas.is_unique (map Date qqq)) eqn:U; [now eexists|].
  destruct H as [H|H].
  - apply index_equals_eq in H. congruence.
  - apply is_unique_NoDup in H. congruence.
Qed.

(** C8, as the code has it.  Nothing is checked before the scan.  With
    an empty price series and an empty benchmark the indicator block
    and the scan run over an empty frame and the run stops with
    IndexError at the sizer's access to the latest row, after the scan.
    With an empty price series and a benchmark that has rows, the trend
    assignment fills the frame with one row of undefined prices per
    benchmark day, and the run completes without any error: the label
    column is the seed CASH followed by NO TRADE and the size is 0.  With
    a price series that has rows, the only failure before the scan is
    the ValueError the trend assignment raises when the benchmark index
    differs from the price index and repeats a date; in every other case
    (stop multiplier non-zero) the run completes with one signal record
    per price bar. *)
Theorem script_outcome (p : params) (price qqq : list bar) :
  (price = [] -> qqq = [] ->
   indicators p price qqq = inr [] /\
   run_script p price qqq
   = ([PhIndicators; PhSignalEngine; PhPositionSizing], inl IndexError)) /\
  (price = [] -> qqq <> [] ->
   exists rep,
     run_script p price qqq
     = ([PhIndicators; PhSignalEngine; PhPositionSizing], inr rep) /\
     length (rep_rows rep) = length qqq /\
     Forall (fun r => r_close r = NaN /\ ATR r = NaN) (rep_rows rep) /\
     map Signal (rep_out rep) = idle_labels (length qqq) /\
     rep_shares rep = 0%Z) /\
  (price <> [] ->
   map Date qqq <> map Date price ->
   ~ NoDup (map Date qqq) ->
   run_script p price qqq = ([PhIndicators], inl ValueError)) /\
  (price <> [] ->
   map Date qqq = map Date price \/ NoDup (map Date qqq) ->
   ~ stop_atr p == 0 ->
   exists rep,
     run_script p price qqq
     = ([PhIndicators; PhSignalEngine; PhPositionSizing], inr rep) /\
     length (rep_out rep) = length price).
Proof.
  split; [|split; [|split]].
  - intros -> ->. split; reflexivity.
  - intros -> Hq. destruct (@run_script_blank p qqq Hq) as (latest & _ & Hrun).
    eexists. split; [exact Hrun|]. cbn [rep_rows rep_out rep_shares].
    split; [now rewrite length_map, length_trend|].
    split; [apply Forall_map, Forall_forall; intros dv _; now split|].
    split; [apply blank_rows_idle | reflexivity].
  - intros Hne Hidx Hdup. rewrite run_script_unfold. unfold indicators.
    destruct price as [|b bs]; [contradiction|].
    now rewrite (@assign_trend_raises _ _ Hidx Hdup).
  - intros Hne Hidx Hs.
    destruct (@assign_trend_succeeds price qqq Hidx) as [cells Hc].
    assert (Hrows : indicators p price qqq = inr (priced_rows p price cells)).
    { unfold indicators. destruct price as [|b bs]; [contradiction|].
      now rewrite Hc. }
    rewrite run_script_unfold, Hrows.
    assert (Hrne : priced_rows p price cells <> []).
    { intros E. apply Hne. apply length_zero_iff_nil.
      rewrite <- (priced_rows_length p price cells), E. reflexivity. }
    destruct (iloc_last_nonempty Hrne) as [latest Hl]. rewrite Hl.
    pose proof (indicators_atr_finite_or_nan _ _ _ Hrows) as Hall.
    rewrite Forall_forall in Hall.
    destruct (shares_no_exception p Hs (Hall _ (iloc_last_In _ Hl)))
      as [n Hn].
    rewrite Hn. eexists. split; [reflexivity|].
    cbn. now rewrite signal_engine_length, priced_rows_length.
Qed.

Lemma script_outcome_witness :
  (exists rep,
      run_script Demo.demo_params Demo.demo_price Demo.demo_qqq
      = ([PhIndicators; PhSignalEngine; PhPositionSizing], inr rep) /\
      length (rep_out rep) = 76%nat) /\
  run_script Demo.demo_params Demo.demo_price
    (Demo.demo_bar 0 :: Demo.demo_qqq)
  = ([PhIndicators], inl ValueError).
Proof.
  split.
  - destruct (script_outcome Demo.demo_params Demo.demo_price Demo.demo_qqq)
      as (_ & _ & _ & H).
    destruct H as (rep & Hrep & Hlen).
    + discriminate.
    + right. apply is_unique_NoDup. vm_compute. reflexivity.
    + vm_compute. discriminate.
    + exists rep. split; [exact Hrep|]. rewrite Hlen. reflexivity.
  - destruct (script_outcome Demo.demo_params Demo.demo_price
                (Demo.demo_bar 0 :: Demo.demo_qqq)) as (_ & _ & H & _).
    apply H.
    + discriminate.
    + intros E. apply index_equals_eq in E. vm_compute in E. discriminate.
    + intros E. apply is_unique_NoDup in E. vm_compute in E. discriminate.
Defined.

(** C8, as stated, fails.  On an empty price series and an empty
    benchmark the run enters the signal engine, the scan leaves an empty
    signal column, and the only error is the IndexError raised afterwards
    in the sizing block.  On an empty price series and the 73-day
    benchmark there is no error at all: the run completes, reports a
    label column of 73 rows that no price bar stands behind, and suggests
    0 shares. *)
Lemma empty_series_reaches_scan :
  (In PhSignalEngine (fst (run_script Demo.demo_params [] [])) /\
   indicators Demo.demo_params [] [] = inr [] /\
   signal_engine Demo.demo_params [] = [] /\
   run_script Demo.demo_params [] []
   = ([PhIndicators; PhSignalEngine; PhPositionSizing], inl IndexError)) /\
  (exists rep,
      run_script Demo.demo_params [] Demo.demo_qqq
      = ([PhIndicators; PhSignalEngine; PhPositionSizing], inr rep) /\
      map Signal (rep_out rep) = idle_labels 73 /\
      r_close (rep_latest rep) = NaN /\
      rep_shares rep = 0%Z).
Proof.
  split.
  - repeat split; vm_compute; auto.
  - eexists. split; [vm_compute; reflexivity|].
    repeat split; vm_compute; reflexivity.
Qed.

(* ===================================================================== *)
(** ** The latest bar and the alert *)
(* ===================================================================== *)

Lemma iloc_last_nth (A : Type) (l : list A) (x : A) :
  iloc_last l = inr x -> nth_error l (length l - 1) = Some x.
Proof.
  unfold iloc_last. destruct (rev l) as [|y ys] eqn:E; [discriminate|].
  intros H. inversion H; subst.
  assert (El : l = rev ys ++ [x]).
  { rewrite <- (rev_involutive l), E. reflexivity. }
  rewrite El, length_app. cbn [length].
  replace (length (rev ys) + 1 - 1)%nat with (length (rev ys)) by lia.
  rewrite nth_error_app2 by lia. now rewrite Nat.sub_diag.
Qed.

Lemma run_script_latest (p : params) (price qqq : list bar) (rep : report) :
  snd (run_script p price qqq) = inr rep ->
  indicators p price qqq = inr (rep_rows rep) /\
  iloc_last (rep_rows rep) = inr (rep_latest rep) /\
  rep_out rep = signal_engine p (rep_rows rep) /\
  shares p (ATR (rep_latest rep)) = inr (rep_shares rep).
Proof.
  rewrite run_script_unfold.
  destruct (indicators p price qqq) as [e|rows]; [discriminate|].
  cbn [snd].
  destruct (iloc_last rows) as [e|latest] eqn:El; [discriminate|].
  destruct (shares p (ATR latest)) as [e|n] eqn:E; [discriminate|].
  intros H. inversion H; subst. cbn. auto.
Qed.

(** X18.  Whenever the run completes, the alert is about the last row of
    the frame and the share count is sized from that row's ATR.  For a
    price series with rows this is its last bar: if the bar's date is
    missing from the benchmark the alert prints Trend Filter ON; if it is
    one of the benchmark's first 199 days (dates unique) it prints OFF.
    For an empty price series the last row is the blank row dated by the
    benchmark's last day: its close and ATR are undefined, the size is 0,
    and with a benchmark shorter than 200 days the alert prints OFF. *)
Theorem alert_reports_latest_bar
  (p : params) (price qqq : list bar) (rep : report) :
  snd (run_script p price qqq) = inr rep ->
  shares p (ATR (rep_latest rep)) = inr (rep_shares rep) /\
  (price <> [] ->
   exists b cells,
     nth_error price (length price - 1) = Some b /\
     assign_trend price qqq = inr cells /\
     rep_latest rep = row_at p price cells (length price - 1) b /\
     shares p (nth (length price - 1) (atr p price) NaN)
     = inr (rep_shares rep) /\
     (~ In (Date b) (map Date qqq) ->
      trend_filter_flag (rep_latest rep) = ON) /\
     (forall j bq,
         NoDup (map Date qqq) ->
         nth_error qqq j = Some bq ->
         Date bq = Date b ->
         (S j < 200)%nat ->
         trend_filter_flag (rep_latest rep) = OFF)) /\
  (price = [] ->
   exists bq,
     nth_error qqq (length qqq - 1) = Some bq /\
     rep_latest rep
     = blank_row (Date bq,
                  Float.gtb (Fin (Close bq))
                            (nth (length qqq - 1) (sma_200 qqq) NaN)) /\
     rep_shares rep = 0%Z /\
     ((length qqq < 200)%nat ->
      trend_filter_flag (rep_latest rep) = OFF)).
Proof.
  intros Hrun.
  destruct (run_script_latest _ _ _ Hrun) as (Hrows & Hl & _ & Hs).
  split; [exact Hs|].
  apply iloc_last_nth in Hl.
  rewrite (indicators_length _ _ _ Hrows) in Hl.
  destruct (indicators_nth _ _ _ _ Hrows Hl)
    as [(cells & b & Hc & Hb & E)|(Hp & dv & Hdv & E)].
  - assert (Hne : price <> []) by (intros ->; destruct (length qqq - 1)%nat;
                                   discriminate).
    split; [|intros Hp; contradiction]. intros _.
    destruct price as [|b0 bs] eqn:Eprice; [contradiction|].
    rewrite <- Eprice in *.
    exists b, cells. split; [exact Hb|]. split; [exact Hc|].
    split; [exact E|]. split; [now rewrite E in Hs|]. split.
    + intros Habs. unfold trend_filter_flag. rewrite E. cbn [Trend_OK row_at].
      now rewrite (assign_trend_missing _ _ _ Hc Hb Habs).
    + intros j bq Hnd Hj Hdate Hwarm. unfold trend_filter_flag.
      rewrite E. cbn [Trend_OK row_at].
      rewrite (assign_trend_nth _ _ _ Hc Hnd Hb), <- Hdate.
      rewrite (@reindex_found _ (@NoDup_trend qqq Hnd) _ _ _
                 (trend_nth _ _ Hj)).
      unfold sma_200. rewrite rolling_mean_warmup by exact Hwarm.
      reflexivity.
  - split; [intros Hne; contradiction|]. intros _. subst price.
    cbn [length] in Hl. cbn match in Hdv.
    destruct (nth_error qqq (length qqq - 1)) as [bq|] eqn:Hbq.
    + exists bq. split; [reflexivity|].
      rewrite (trend_nth _ _ Hbq) in Hdv. injection Hdv as <-.
      split; [exact E|]. split.
      * rewrite E in Hs. cbn in Hs. congruence.
      * intros Hshort. unfold trend_filter_flag. rewrite E.
        cbn [Trend_OK blank_row snd]. unfold sma_200.
        rewrite rolling_mean_warmup by lia. reflexivity.
    + exfalso. apply nth_error_None in Hbq.
      assert (Hlt : (length qqq - 1 < length (trend qqq))%nat).
      { apply nth_error_Some. congruence. }
      rewrite length_trend in Hlt. lia.
Qed.

Lemma alert_reports_latest_bar_witness :
  exists rep,
    snd (run_script Demo.demo_params (firstn 58 Demo.demo_price)
           Demo.demo_qqq) = inr rep /\
    trend_filter_flag (rep_latest rep) = ON.
Proof.
  destruct (snd (run_script Demo.demo_params (firstn 58 Demo.demo_price)
                   Demo.demo_qqq)) as [e|rep] eqn:E;
    [vm_compute in E; discriminate|].
  exists rep. split; [reflexivity|].
  destruct (@alert_reports_latest_bar Demo.demo_params
              (firstn 58 Demo.demo_price) Demo.demo_qqq rep E)
    as (_ & Hp & _).
  destruct Hp as (b & cells & Hb & _ & _ & _ & Hon & _);
    [vm_compute; discriminate|].
  apply Hon. vm_compute in Hb. injection Hb as <-.
  vm_compute. intuition discriminate.
Defined.

(* ===================================================================== *)
(** ** Entries and exits over a whole run *)
(* ===================================================================== *)

Lemma step_counts (p : params) (st : pos_state) (r : row) :
  (buys [Signal (snd (step p st r))] + flag (in_pos st)
   = exits [Signal (snd (step p st r))]
     + flag (in_pos (fst (step p st r))))%nat.
Proof.
  unfold step. destruct (in_pos st) eqn:Hin; cbn [negb].
  - destruct (Float.leb _ _); [reflexivity|].
    destruct (Float.geb _ _); [reflexivity|].
    destruct (reversal_cond p r); [reflexivity|].
    cbn. now rewrite Hin.
  - destruct (entry_cond p r); [reflexivity|]. cbn. now rewrite Hin.
Qed.

Lemma buys_cons (l : label) (ls : list label) :
  buys (l :: ls) = (buys [l] + buys ls)%nat.
Proof. unfold buys. cbn. destruct (label_eqb l BUY); reflexivity. Qed.

Lemma exits_cons (l : label) (ls : list label) :
  exits (l :: ls) = (exits [l] + exits ls)%nat.
Proof. unfold exits. cbn. destruct (is_exit l); reflexivity. Qed.

Lemma scan_counts (p : params) (rows : list row) :
  forall st,
    (buys (map Signal (scan p st rows)) + flag (in_pos st)
     = exits (map Signal (scan p st rows))
       + flag (in_pos (run_state p st rows)))%nat.
Proof.
  induction rows as [|r rows IH]; intros st; [reflexivity|].
  cbn [scan]. unfold run_state. cbn [fold_left]. fold (run_state p).
  pose proof (step_counts p st r) as Hs.
  specialize (IH (fst (step p st r))).
  remember (step p st r) as so eqn:Eso. destruct so as [st' o].
  cbn [fst snd map] in *.
  unfold run_state in IH. rewrite buys_cons, exits_cons. lia.
Qed.

(** X19.  Over any run the BUY labels and the exit labels balance: the
    number of BUYs is the number of exits, plus one exactly when a
    position is still open after the last bar. *)
Theorem buys_balance_exits (p : params) (rows : list row) :
  buys (signals p rows)
  = (exits (signals p rows)
     + flag (in_pos (state_after p rows (length rows - 1))))%nat.
Proof.
  unfold signals, signal_engine, state_after.
  destruct rows as [|r rows]; [reflexivity|].
  cbn [map tl length]. replace (S (length rows) - 1)%nat with (length rows)
    by lia.
  rewrite firstn_all.
  pose proof (scan_counts p rows init_state) as H. cbn [in_pos init_state flag] in H.
  rewrite buys_cons, exits_cons. cbn [default_rec Signal].
  change (buys [CASH]) with 0%nat. change (exits [CASH]) with 0%nat. lia.
Qed.

Lemma position_has_opening_buy (p : params) (rows : list row) :
  forall i,
    (i <= length rows)%nat ->
    in_pos (state_before p rows i) = true ->
    exists j,
      (j < i)%nat /\
      (exists o, nth_error (signal_engine p rows) j = Some o /\
                 Signal o = BUY) /\
      forall k, (j < k < i)%nat ->
                exists o, nth_error (signal_engine p rows) k = Some o /\
                          Signal o = CASH.
Proof.
  induction i as [|i IH]; intros Hle Hin; [discriminate|].
  rewrite state_before_succ in Hin.
  destruct i as [|i'].
  { unfold state_after in Hin. cbn in Hin. discriminate. }
  assert (Hi : (1 <= S i')%nat) by lia.
  destruct (nth_error rows (S i')) as [r|] eqn:Hr;
    [|apply nth_error_None in Hr; lia].
  rewrite (state_after_step p rows Hi Hr) in Hin.
  pose proof (engine_nth p rows Hi Hr) as Ho.
  destruct (in_pos (state_before p rows (S i'))) eqn:Hb.
  - destruct (step_label_long p _ r Hb) as [[_ Hp]|[Hc _]];
      [congruence|].
    destruct IH as (j & Hj & Hbuy & Hmid); [lia | reflexivity|].
    exists j. split; [lia|]. split; [exact Hbuy|].
    intros k Hk. destruct (Nat.eq_dec k (S i')) as [->|Hne].
    + eexists. split; [exact Ho | exact Hc].
    + apply Hmid. lia.
  - destruct (step_label_flat p _ r Hb) as [[Hbuy _]|[_ Hp]];
      [|congruence].
    exists (S i'). split; [lia|]. split.
    + eexists. split; [exact Ho | exact Hbuy].
    + intros k Hk. lia.
Qed.

(** X20.  Every exit closes a position opened by an earlier BUY: a bar
    labelled SELL, TRAIL STOP or TAKE PROFIT is preceded by a BUY bar
    with nothing but hold labels (the seed CASH) in between. *)
Theorem exit_follows_a_buy
  (p : params) (rows : list row) (i : nat) (o : out_rec) :
  nth_error (signal_engine p rows) i = Some o ->
  is_exit (Signal o) = true ->
  exists j,
    (j < i)%nat /\
    (exists ob, nth_error (signal_engine p rows) j = Some ob /\
                Signal ob = BUY) /\
    forall k, (j < k < i)%nat ->
              exists ok, nth_error (signal_engine p rows) k = Some ok /\
                         Signal ok = CASH.
Proof.
  intros Ho He.
  assert (Hlen : (i < length rows)%nat).
  { rewrite <- (signal_engine_length p rows). apply nth_error_Some.
    congruence. }
  apply position_has_opening_buy; [lia|].
  destruct i as [|k].
  { destruct rows; [discriminate|]. cbn in Ho. inversion Ho; subst.
    discriminate. }
  assert (Hi : (1 <= S k)%nat) by lia.
  destruct (engine_nth_inv p rows Hi Ho) as (r & Hr & ->).
  destruct (in_pos (state_before p rows (S k))) eqn:Hin; [reflexivity|].
  destruct (step_label_flat p _ r Hin) as [[Hb _]|[Hn _]].
  - rewrite Hb in He. discriminate.
  - rewrite Hn in He. discriminate.
Qed.

Lemma exit_follows_a_buy_witness :
  exists j,
    (j < 73)%nat /\
    exists ob,
      nth_error (signal_engine Demo.demo_params Demo.demo_rows) j = Some ob /\
      Signal ob = BUY.
Proof.
  destruct (nth_error (signal_engine Demo.demo_params Demo.demo_rows) 73)
    as [o|] eqn:E; [|vm_compute in E; discriminate].
  destruct (@exit_follows_a_buy Demo.demo_params Demo.demo_rows 73 o E)
    as (j & Hj & Hb & _).
  - vm_compute in E. injection E as <-. reflexivity.
  - exists j. split; assumption.
Defined.

(* ===================================================================== *)
(** ** The true range *)
(* ===================================================================== *)

Lemma nth_shift_0 (xs : list float) : nth 0 (Pandas.shift xs) NaN = NaN.
Proof. unfold Pandas.shift. destruct xs; reflexivity. Qed.

Lemma nth_shift_succ (xs : list float) (k : nat) :
  (S k < length xs)%nat ->
  nth (S k) (Pandas.shift xs) NaN = nth k xs NaN.
Proof.
  intros H. unfold Pandas.shift. rewrite nth_firstn.
  assert (E : (S k <? length xs)%nat = true) by now apply Nat.ltb_lt.
  now rewrite E.
Qed.

Lemma nth_column (f : bar -> Q) (price : list bar) (i : nat) (b : bar) :
  nth_error price i = Some b ->
  nth i (map (fun b0 => Fin (f b0)) price) NaN = Fin (f b).
Proof.
  intros H. apply nth_error_nth.
  now rewrite nth_error_map, H.
Qed.

Lemma nth_zip_nan (f : float -> float -> float) (xs ys : list float)
  (i : nat) :
  f NaN NaN = NaN ->
  length xs = length ys ->
  nth i (Pandas.zip_with f xs ys) NaN = f (nth i xs NaN) (nth i ys NaN).
Proof.
  intros Hf Hlen. rewrite <- (nth_zip_with f xs ys NaN NaN i Hlen).
  now rewrite Hf.
Qed.

Lemma nth_map_nan (f : float -> float) (xs : list float) (i : nat) :
  f NaN = NaN -> nth i (map f xs) NaN = f (nth i xs NaN).
Proof. intros Hf. rewrite <- (map_nth f xs NaN i). now rewrite Hf. Qed.

Lemma tr_nth (price : list bar) (i : nat) (b : bar) :
  nth_error price i = Some b ->
  nth i (tr price) NaN
  = Float.max_skipna
      (Float.max_skipna
         (Fin (High b + - Low b))
         (Float.abs (Float.sub (Fin (High b))
                               (nth i (Pandas.shift (closes price)) NaN))))
      (Float.abs (Float.sub (Fin (Low b))
                            (nth i (Pandas.shift (closes price)) NaN))).
Proof.
  intros Hb. unfold tr, hl, hc, lc.
  rewrite nth_zip_nan by (reflexivity || col_length).
  rewrite nth_zip_nan by (reflexivity || col_length).
  rewrite !nth_map_nan by reflexivity.
  rewrite !nth_zip_nan by (reflexivity || col_length).
  unfold highs, lows.
  now rewrite (nth_column High _ _ Hb), (nth_column Low _ _ Hb).
Qed.

Lemma max_skipna_fin (x y : Q) :
  exists t, Float.max_skipna (Fin x) (Fin y) = Fin t /\
            x <= t /\ y <= t /\ (t = x \/ t = y).
Proof.
  cbn. destruct (Float.Qltb x y) eqn:E.
  - apply Qltb_true in E. exists y. repeat split; auto; lra.
  - apply Qltb_false in E. exists x. repeat split; auto; lra.
Qed.

(** X21.  The true range of the first bar is its high minus its low, the
    two terms that need a previous close being skipped; on every later
    bar it is the largest of high - low, |high - previous close| and
    |low - previous close|. *)
Theorem true_range_is_largest_move (price : list bar) (i : nat) (b : bar) :
  nth_error price i = Some b ->
  (i = 0%nat -> nth i (tr price) NaN = Fin (High b + - Low b)) /\
  (forall k pb,
      i = S k ->
      nth_error price k = Some pb ->
      exists t,
        nth i (tr price) NaN = Fin t /\
        High b - Low b <= t /\
        Qabs (High b - Close pb) <= t /\
        Qabs (Low b - Close pb) <= t /\
        (t == High b - Low b \/ t == Qabs (High b - Close pb) \/
         t == Qabs (Low b - Close pb))).
Proof.
  intros Hb. rewrite (tr_nth _ _ Hb). split.
  - intros ->. rewrite nth_shift_0. reflexivity.
  - intros k pb -> Hpb.
    assert (Hlt : (S k < length (closes price))%nat).
    { rewrite length_closes. apply nth_error_Some. congruence. }
    rewrite nth_shift_succ by exact Hlt.
    unfold closes. rewrite (nth_column Close _ _ Hpb). cbn [Float.sub Float.neg Float.add Float.abs].
    destruct (max_skipna_fin (High b + - Low b)
                             (Qabs (High b + - Close pb)))
      as (u & -> & Hu1 & Hu2 & Hu).
    destruct (max_skipna_fin u (Qabs (Low b + - Close pb)))
      as (t & -> & Ht1 & Ht2 & Ht).
    exists t. split; [reflexivity|].
    unfold Qminus. repeat split; try lra.
    destruct Ht as [-> | ->]; [|right; right; reflexivity].
    destruct Hu as [-> | ->]; [left | right; left]; reflexivity.
Qed.

Lemma true_range_is_largest_move_witness :
  exists t,
    nth 55 (tr Demo.demo_price) NaN = Fin t /\ t == 3.
Proof.
  destruct (@true_range_is_largest_move Demo.demo_price 55
              (Demo.demo_bar 55)) as [_ H].
  - reflexivity.
  - destruct (H 54%nat (Demo.demo_bar 54)) as (t & Ht & _).
    + reflexivity.
    + reflexivity.
    + exists t. split; [exact Ht|].
      assert (E : nth 55 (tr Demo.demo_price) NaN = Fin 3)
        by (vm_compute; reflexivity).
      rewrite E in Ht. injection Ht as <-. reflexivity.
Defined.

